(** * migen FIFOs and the Wishbone-to-CSR bridge: a shallow embedding

    The models below follow [migen/genlib/fifo.py] and
    [migen/bus/wishbone2csr.py].  A migen module is a set of registers, a
    list of combinational assignments ([comb]) and a list of synchronous
    assignments ([sync]).  A module is embedded as

    - a record holding its registers and memories,
    - one function per combinational signal, from the registers and the
      inputs of the current tick,
    - a [tick] function giving the registers after a clock edge: every
      right-hand side reads the registers before the edge, and where two
      [sync] statements assign the same register the later one wins.

    Unsigned signals are integers in [Z]; assigning to a signal of [n] bits
    keeps the low [n] bits ([Fhdl.wrap]). *)

From Stdlib Require Import ZArith Lia Bool List.
From stdpp Require Import base list.
Import ListNotations.
Local Open Scope Z_scope.

(** ** The elaboration substrate as the two files use it

    [migen.fhdl] is not among the sources; the two files use its signals,
    assignments, slices and memories, which are embedded as follows. *)

Module Fhdl.

(** Assignment to an unsigned signal of [flen] bits. *)
Definition wrap (flen v : Z) : Z := v mod 2 ^ flen.

(** [v[i]]: one bit of a signal. *)
Definition bit (v i : Z) : bool := Z.testbit v i.

(** [v[:n]]: the low [n] bits of a signal. *)
Definition low (n v : Z) : Z := v mod 2 ^ n.

(** What is assumed of the width [flen] of a [Signal(max=m)]: it is wide
    enough for the values [0 .. m-1]. *)
Definition holds_max (flen m : Z) : Prop := 0 <= flen /\ m <= 2 ^ flen.

(** Modelled from the spec: [Memory] is not among the sources.  The
    specification describes an "addressable memory of [depth] slots of
    [width] bits, exposing independent write and read ports", where "a
    read port has a latency class (immediate/combinational vs.
    one-tick-delayed)".  So: [depth] words, initially zero; a write port
    stores at its clock edge; an asynchronous read port shows the
    addressed word in the same tick.  An address outside the memory reads
    as zero and a write there is dropped. *)
Definition Memory (depth : Z) : list Z := replicate (Z.to_nat depth) 0.

Definition mem_read (m : list Z) (adr : Z) : Z :=
  default 0 (m !! Z.to_nat adr).

Definition mem_write (m : list Z) (adr v : Z) : list Z :=
  <[Z.to_nat adr := v]> m.

(** Modelled from the spec: a "one-tick-delayed" read port samples at its
    clock edge.  Both ways of building one are covered: in mode
    [WRITE_FIRST] it registers the address and shows the word stored there
    now; in mode [READ_FIRST] it registers the word that was stored there
    at the edge. *)
Inductive port_mode := WRITE_FIRST | READ_FIRST.

Record read_port := {
  adr_reg : Z;
  dat_reg : Z
}.

Definition port_init : read_port := {| adr_reg := 0; dat_reg := 0 |}.

Definition port_tick (m : list Z) (adr : Z) : read_port :=
  {| adr_reg := adr; dat_reg := mem_read m adr |}.

Definition port_dat_r (mode : port_mode) (m : list Z) (p : read_port) : Z :=
  match mode with
  | WRITE_FIRST => mem_read m (adr_reg p)
  | READ_FIRST => dat_reg p
  end.

End Fhdl.

Import Fhdl.

(** ** [_inc]: the pointer increment *)

(** The branch taken when [modulo == 2**flen(signal)]. *)
Definition inc_truncate (flen signal : Z) : Z := wrap flen (signal + 1).

(** The branch taken otherwise. *)
Definition inc_compare_reset (flen signal modulo : Z) : Z :=
  if signal =? modulo - 1 then 0 else wrap flen (signal + 1).

(** The value [_inc(signal, modulo)] assigns to [signal]. *)
Definition _inc (flen signal modulo : Z) : Z :=
  if modulo =? 2 ^ flen then inc_truncate flen signal
  else inc_compare_reset flen signal modulo.

(** ** [_FIFOInterface]: the ports shared by every variant *)

(** What the caller drives in one tick.  [din] is the value of [din_bits],
    a signal of the FIFO's width; the FIFOs move it around unchanged. *)
Record Inputs := {
  din : Z;
  we : bool;
  re : bool;
  flush : bool
}.

(** What a wrapper drives into the FIFO it wraps. *)
Definition with_we (b : bool) (i : Inputs) : Inputs :=
  {| din := din i; we := b; re := re i; flush := flush i |}.

Definition with_re (b : bool) (i : Inputs) : Inputs :=
  {| din := din i; we := we i; re := b; flush := flush i |}.

(** A variant as seen through its ports: its registers and their reset
    value; what one clock edge is ([edge]: for the synchronous variants the
    inputs sampled at the edge, for [AsyncFIFO] also which of the two
    clocks ticks) and what the caller drives at it; the registers after the
    edge; and the three outputs, which in every variant are functions of
    the registers alone. *)
Record FIFOInterface := {
  regs : Type;
  edge : Type;
  drive : edge -> Inputs;
  reset : regs;
  tick : regs -> edge -> regs;
  writable : regs -> bool;
  readable : regs -> bool;
  dout_bits : regs -> Z
}.

(** ** [SyncFIFO] *)

Module SyncFIFO.
Section Elaborated.

(** [depth], and the widths of [produce]/[consume] ([Signal(max=depth)])
    and of [level] ([Signal(max=depth+1)]). *)
Variables (depth flen_ptr flen_level : Z).

Record t := {
  produce : Z;
  consume : Z;
  level : Z;
  storage : list Z
}.

Definition init : t :=
  {| produce := 0; consume := 0; level := 0; storage := Memory depth |}.

(** [self.writable.eq(self.level != depth)] *)
Definition writable (s : t) : bool := negb (level s =? depth).

(** [self.readable.eq(self.level != 0)] *)
Definition readable (s : t) : bool := negb (level s =? 0).

Definition do_write (s : t) (i : Inputs) : bool := writable s && we i.

Definition do_read (s : t) (i : Inputs) : bool := readable s && re i.

(** [rdport.adr.eq(consume)], [self.dout_bits.eq(rdport.dat_r)], with an
    asynchronous read port. *)
Definition dout_bits (s : t) : Z := mem_read (storage s) (consume s).

Definition tick (s : t) (i : Inputs) : t :=
  (* wrport: adr = produce, dat_w = din_bits, we = do_write *)
  let storage' :=
    if do_write s i then mem_write (storage s) (produce s) (din i)
    else storage s in
  (* self.sync += If(do_write, _inc(produce, depth)) *)
  let produce' :=
    if do_write s i then _inc flen_ptr (produce s) depth else produce s in
  (* self.sync += If(do_read, _inc(consume, depth)) *)
  let consume' :=
    if do_read s i then _inc flen_ptr (consume s) depth else consume s in
  (* self.sync += [If(self.flush, ...).Elif(do_write, ...).Elif(do_read, ...)] *)
  if flush i then
    {| produce := 0; consume := 0; level := 0; storage := storage' |}
  else if do_write s i then
    {| produce := produce'; consume := consume';
       level := if negb (do_read s i) then wrap flen_level (level s + 1)
                else level s;
       storage := storage' |}
  else if do_read s i then
    {| produce := produce'; consume := consume';
       level := wrap flen_level (level s - 1); storage := storage' |}
  else
    {| produce := produce'; consume := consume';
       level := level s; storage := storage' |}.

Definition machine : FIFOInterface :=
  Build_FIFOInterface t Inputs (fun i => i) init tick writable readable dout_bits.

End Elaborated.
End SyncFIFO.

(** ** [SyncFIFOClassic] *)

Module SyncFIFOClassic.
Section Elaborated.

Variables (depth flen_ptr flen_level : Z).

(** The inner [SyncFIFO] and the adapter's own [dout_bits] register.  Every
    other port is the inner FIFO's port under another name. *)
Record t := {
  fifo : SyncFIFO.t;
  dout_bits : Z
}.

Definition init : t := {| fifo := SyncFIFO.init depth; dout_bits := 0 |}.

Definition writable (s : t) : bool := SyncFIFO.writable depth (fifo s).

Definition readable (s : t) : bool := SyncFIFO.readable (fifo s).

Definition level (s : t) : Z := SyncFIFO.level (fifo s).

Definition tick (s : t) (i : Inputs) : t :=
  {| fifo := SyncFIFO.tick depth flen_ptr flen_level (fifo s) i;
     (* If(self.re & self.readable, self.dout_bits.eq(fifo.dout_bits)) *)
     dout_bits := if re i && readable s then SyncFIFO.dout_bits (fifo s)
                  else dout_bits s |}.

Definition machine : FIFOInterface :=
  Build_FIFOInterface t Inputs (fun i => i) init tick writable readable dout_bits.

End Elaborated.
End SyncFIFOClassic.

(** ** [SyncFIFOBuffered] *)

Module SyncFIFOBuffered.
Section Elaborated.

Variables (depth flen_ptr flen_level : Z).

(** The inner [SyncFIFOClassic] and the adapter's own [readable] register. *)
Record t := {
  fifo : SyncFIFOClassic.t;
  readable : bool
}.

Definition init : t :=
  {| fifo := SyncFIFOClassic.init depth; readable := false |}.

Definition writable (s : t) : bool := SyncFIFOClassic.writable depth (fifo s).

Definition dout_bits (s : t) : Z := SyncFIFOClassic.dout_bits (fifo s).

Definition level (s : t) : Z := SyncFIFOClassic.level (fifo s).

(** [fifo.re.eq(fifo.readable & (~self.readable | self.re))] *)
Definition fifo_re (s : t) (i : Inputs) : bool :=
  SyncFIFOClassic.readable (fifo s) && (negb (readable s) || re i).

Definition tick (s : t) (i : Inputs) : t :=
  {| fifo := SyncFIFOClassic.tick depth flen_ptr flen_level (fifo s)
               (with_re (fifo_re s i) i);
     readable := if flush i then false
                 else if fifo_re s i then true
                 else if re i then false
                 else readable s |}.

Definition machine : FIFOInterface :=
  Build_FIFOInterface t Inputs (fun i => i) init tick writable readable dout_bits.

End Elaborated.
End SyncFIFOBuffered.

(** ** [SyncFIFORelaxed] *)

Module SyncFIFORelaxed.
Section Elaborated.

(** [flen_rlevel] is the width of the wrapper's own [level]
    ([Signal(max=depth + 2)]). *)
Variables (depth flen_ptr flen_level flen_rlevel : Z).

Record t := {
  fifo : SyncFIFO.t;
  dout : Z;
  dout_readable : bool;
  buff : Z;
  buff_readable : bool
}.

Definition init : t :=
  {| fifo := SyncFIFO.init depth; dout := 0; dout_readable := false;
     buff := 0; buff_readable := false |}.

Definition writable (s : t) : bool := SyncFIFO.writable depth (fifo s).

(** [self.level.eq(fifo.level + buff_readable)] *)
Definition level (s : t) : Z :=
  wrap flen_rlevel (SyncFIFO.level (fifo s) + Z.b2z (buff_readable s)).

(** [self.readable.eq(buff_readable | dout_readable)] *)
Definition readable (s : t) : bool := buff_readable s || dout_readable s.

(** [do_shunt.eq(self.we & ~fifo.readable & ~(self.readable & ~self.re))] *)
Definition do_shunt (s : t) (i : Inputs) : bool :=
  we i && negb (SyncFIFO.readable (fifo s))
       && negb (readable s && negb (re i)).

(** [fifo.we.eq(self.we & ~do_shunt)] *)
Definition fifo_we (s : t) (i : Inputs) : bool := we i && negb (do_shunt s i).

(** [self.dout_bits.eq(Mux(buff_readable, buff, dout))] *)
Definition dout_bits (s : t) : Z := if buff_readable s then buff s else dout s.

(** [fifo.re.eq(self.re | ~self.readable)] *)
Definition fifo_re (s : t) (i : Inputs) : bool := re i || negb (readable s).

(** What the inner FIFO sees: [din_bits] and [flush] are its own ports. *)
Definition fifo_inputs (s : t) (i : Inputs) : Inputs :=
  {| din := din i; we := fifo_we s i; re := fifo_re s i; flush := flush i |}.

Definition tick (s : t) (i : Inputs) : t :=
  (* If(do_shunt, ...).Elif(~self.re & ~buff_readable, ...)
       .Elif(self.re & buff_readable, ...) *)
  let buff' :=
    if do_shunt s i then din i
    else if negb (re i) && negb (buff_readable s) then dout s
    else buff s in
  let buff_readable' :=
    if do_shunt s i then true
    else if negb (re i) && negb (buff_readable s) then dout_readable s
    else if re i && buff_readable s then false
    else buff_readable s in
  {| fifo := SyncFIFO.tick depth flen_ptr flen_level (fifo s) (fifo_inputs s i);
     (* dout.eq(fifo.dout_bits) *)
     dout := SyncFIFO.dout_bits (fifo s);
     (* dout_readable.eq(fifo.readable), then If(self.flush, ...) *)
     dout_readable := if flush i then false else SyncFIFO.readable (fifo s);
     buff := buff';
     buff_readable := if flush i then false else buff_readable' |}.

Definition machine : FIFOInterface :=
  Build_FIFOInterface t Inputs (fun i => i) init tick writable readable dout_bits.

End Elaborated.
End SyncFIFORelaxed.

(** ** The clock-domain-crossing blocks used by [AsyncFIFO] *)

(** Modelled from the spec: [GrayCounter] ([migen.genlib.cdc]) is not among
    the sources.  The specification calls it a counter of the given width
    "in reflected binary, where successive values differ in exactly one
    bit", whose binary equivalent addresses the storage, "the read-port
    address using the next consume value".  So: a binary counter
    [q_binary] that advances when [ce] is asserted, the combinational next
    value [q_next_binary], and the register [q] holding the reflected
    binary code of [q_binary]. *)
Module GrayCounter.
Section Elaborated.

Variable width : Z.

Record t := {
  q_binary : Z;
  q : Z
}.

Definition init : t := {| q_binary := 0; q := 0 |}.

(** The reflected binary code of [b]. *)
Definition gray (b : Z) : Z := Z.lxor b (Z.shiftr b 1).

Definition q_next_binary (s : t) (ce : bool) : Z :=
  if ce then wrap width (q_binary s + 1) else q_binary s.

Definition q_next (s : t) (ce : bool) : Z := gray (q_next_binary s ce).

Definition tick (s : t) (ce : bool) : t :=
  {| q_binary := q_next_binary s ce; q := q_next s ce |}.

End Elaborated.
End GrayCounter.

(** Modelled from the spec: [MultiReg] ([migen.genlib.cdc]) is not among the
    sources.  The specification describes "a fixed number (>= 2) of serial
    resampling stages" in the destination domain; the value is visible
    there "only after passing through all stages".  So: a chain of
    registers, newest sample first, shifted at every edge of the
    destination clock; its output is the last register. *)
Module MultiReg.

Definition init (stages : nat) : list Z := replicate stages 0.

Definition o (chain : list Z) : Z := default 0 (last chain).

Definition tick (i : Z) (chain : list Z) : list Z :=
  match chain with
  | [] => []
  | _ :: _ => i :: removelast chain
  end.

End MultiReg.

(** ** [AsyncFIFO] *)

Module AsyncFIFO.

(** One step of the two unrelated clocks: an edge of the [write] clock, an
    edge of the [read] clock, or both at once, with what the caller drives
    on the side that ticks.  A run is any sequence of such steps, so the
    two clocks may have any rates and one may stand still.  A register
    that samples a signal of the other domain takes the value the signal
    had before the edge. *)
Inductive clock_edge :=
  | write_edge (din : Z) (we : bool)
  | read_edge (re : bool)
  | both_edges (din : Z) (we re : bool).

Definition drive (e : clock_edge) : Inputs :=
  match e with
  | write_edge d w => {| din := d; we := w; re := false; flush := false |}
  | read_edge r => {| din := 0; we := false; re := r; flush := false |}
  | both_edges d w r => {| din := d; we := w; re := r; flush := false |}
  end.

Section Elaborated.

(** [depth_bits = log2_int(depth, True)], so [depth = 2 ** depth_bits];
    [stages] is the length of the two [MultiReg] chains; [mode] is the mode
    of the read port. *)
Variables (depth_bits : Z) (stages : nat) (mode : port_mode).

Definition depth : Z := 2 ^ depth_bits.

(** The width of the two Gray counters and of their resynchronised copies. *)
Definition width : Z := depth_bits + 1.

(** [produce] and [consume] are the two counters; [produce_rdomain] and
    [consume_wdomain] the register chains that carry [produce.q] into the
    read domain and [consume.q] into the write domain; [rdport] holds the
    registers of the read port. *)
Record t := {
  produce : GrayCounter.t;
  consume : GrayCounter.t;
  produce_rdomain : list Z;
  consume_wdomain : list Z;
  storage : list Z;
  rdport : read_port
}.

Definition init : t :=
  {| produce := GrayCounter.init; consume := GrayCounter.init;
     produce_rdomain := MultiReg.init stages;
     consume_wdomain := MultiReg.init stages;
     storage := Memory depth; rdport := port_init |}.

(** The comparison of two Gray pointers that decides [writable]: with
    [p = produce.q] and [c = consume_wdomain],
    [(p[-1] == c[-1]) | (p[-2] == c[-2])], and for more than two bits also
    [| (p[:-2] != c[:-2])]. *)
Definition not_full (p c : Z) : bool :=
  if depth_bits =? 1 then
    eqb (bit p (width - 1)) (bit c (width - 1))
    || eqb (bit p (width - 2)) (bit c (width - 2))
  else
    eqb (bit p (width - 1)) (bit c (width - 1))
    || eqb (bit p (width - 2)) (bit c (width - 2))
    || negb (low (width - 2) p =? low (width - 2) c).

Definition writable (s : t) : bool :=
  not_full (GrayCounter.q (produce s)) (MultiReg.o (consume_wdomain s)).

(** [self.readable.eq(consume.q != produce_rdomain)] *)
Definition readable (s : t) : bool :=
  negb (GrayCounter.q (consume s) =? MultiReg.o (produce_rdomain s)).

(** [self.dout_bits.eq(rdport.dat_r)] *)
Definition dout_bits (s : t) : Z := port_dat_r mode (storage s) (rdport s).

(** [produce.ce.eq(self.writable & self.we)] *)
Definition produce_ce (s : t) (we : bool) : bool := writable s && we.

(** [consume.ce.eq(self.readable & self.re)] *)
Definition consume_ce (s : t) (re : bool) : bool := readable s && re.

(** An edge of the [write] clock: the counter [produce], the chain into
    the write domain and the write port. *)
Definition tick_write (s : t) (din : Z) (we : bool) : t :=
  {| produce := GrayCounter.tick width (produce s) (produce_ce s we);
     consume := consume s;
     produce_rdomain := produce_rdomain s;
     consume_wdomain :=
       MultiReg.tick (GrayCounter.q (consume s)) (consume_wdomain s);
     (* wrport: adr = produce.q_binary[:-1], dat_w = din_bits, we = produce.ce *)
     storage :=
       if produce_ce s we
       then mem_write (storage s)
              (low (width - 1) (GrayCounter.q_binary (produce s))) din
       else storage s;
     rdport := rdport s |}.

(** An edge of the [read] clock: the counter [consume], the chain into the
    read domain and the registered read port. *)
Definition tick_read (s : t) (re : bool) : t :=
  {| produce := produce s;
     consume := GrayCounter.tick width (consume s) (consume_ce s re);
     produce_rdomain :=
       MultiReg.tick (GrayCounter.q (produce s)) (produce_rdomain s);
     consume_wdomain := consume_wdomain s;
     storage := storage s;
     (* rdport: adr = consume.q_next_binary[:-1] *)
     rdport :=
       port_tick (storage s)
         (low (width - 1)
            (GrayCounter.q_next_binary width (consume s) (consume_ce s re))) |}.

(** Both clocks at once: each domain's registers are computed from the
    registers before the edge. *)
Definition tick_both (s : t) (din : Z) (we re : bool) : t :=
  let w := tick_write s din we in
  let r := tick_read s re in
  {| produce := produce w; consume := consume r;
     produce_rdomain := produce_rdomain r;
     consume_wdomain := consume_wdomain w;
     storage := storage w; rdport := rdport r |}.

Definition tick (s : t) (e : clock_edge) : t :=
  match e with
  | write_edge d w => tick_write s d w
  | read_edge r => tick_read s r
  | both_edges d w r => tick_both s d w r
  end.

Definition machine : FIFOInterface :=
  Build_FIFOInterface t clock_edge drive init tick writable readable dout_bits.

End Elaborated.
End AsyncFIFO.

(** The full pattern in the specification's words: "equal top bit with
    differing second-top bit" while "the remaining low bits are equal".
    It is compared with [AsyncFIFO.not_full] below. *)
Definition spec_full_pattern (depth_bits p c : Z) : bool :=
  eqb (bit p (AsyncFIFO.width depth_bits - 1))
      (bit c (AsyncFIFO.width depth_bits - 1))
  && negb (eqb (bit p (AsyncFIFO.width depth_bits - 2))
               (bit c (AsyncFIFO.width depth_bits - 2)))
  && (low (AsyncFIFO.width depth_bits - 2) p
      =? low (AsyncFIFO.width depth_bits - 2) c).

(** ** Runs and what a caller observes *)

(** One tick as the caller sees it: what it drove, whether the FIFO was
    writable, and the data word shown, which counts only while [readable]
    is asserted. *)
Record Event := {
  ev_in : Inputs;
  ev_writable : bool;
  ev_dout : option Z
}.

Section Runs.

Variable M : FIFOInterface.

Definition observe (s : regs M) (i : edge M) : Event :=
  {| ev_in := drive M i;
     ev_writable := writable M s;
     ev_dout := if readable M s then Some (dout_bits M s) else None |}.

Fixpoint run_from (s : regs M) (inputs : list (edge M)) : regs M :=
  match inputs with
  | [] => s
  | i :: rest => run_from (tick M s i) rest
  end.

Fixpoint trace_from (s : regs M) (inputs : list (edge M)) : list Event :=
  match inputs with
  | [] => []
  | i :: rest => observe s i :: trace_from (tick M s i) rest
  end.

(** The registers and the observations after the given ticks from reset. *)
Definition run (inputs : list (edge M)) : regs M :=
  run_from (reset M) inputs.

Definition trace (inputs : list (edge M)) : list Event :=
  trace_from (reset M) inputs.

End Runs.

(** A write is committed when [writable] and [we] hold in the same tick, a
    read when [readable] and [re] do. *)
Definition committed_write (e : Event) : option Z :=
  if ev_writable e && we (ev_in e) then Some (din (ev_in e)) else None.

Definition committed_read (e : Event) : option Z :=
  if re (ev_in e) then ev_dout e else None.

Definition writes (tr : list Event) : list Z := omap committed_write tr.

Definition reads (tr : list Event) : list Z := omap committed_read tr.

(** The committed-but-unread writes since the last flush, oldest first. *)
Definition pending_step (q : list Z) (e : Event) : list Z :=
  if flush (ev_in e) then []
  else (match committed_read e with Some _ => tail q | None => q end)
       ++ (match committed_write e with Some v => [v] | None => [] end).

Definition pending (tr : list Event) : list Z := fold_left pending_step tr [].

(** First-word-fall-through: whenever [readable] is asserted after a run
    from reset, [dout_bits] already shows the oldest pending write. *)
Definition fwft (M : FIFOInterface) : Prop :=
  forall inputs : list (edge M),
    readable M (run M inputs) = true ->
    head (pending (trace M inputs)) = Some (dout_bits M (run M inputs)).

(** ** The bounded queue of the specification

    A list of at most [depth] elements, oldest first: a committed write
    appends, a committed read removes the head, a flush empties it. *)

Module BoundedQueue.
Section Elaborated.

Variable depth : Z.

Definition writable (q : list Z) : bool := negb (Z.of_nat (length q) =? depth).

Definition readable (q : list Z) : bool := negb (Z.of_nat (length q) =? 0).

Definition dout_bits (q : list Z) : Z := hd 0 q.

Definition tick (q : list Z) (i : Inputs) : list Z :=
  if flush i then []
  else (if readable q && re i then tail q else q)
       ++ (if writable q && we i then [din i] else []).

Definition machine : FIFOInterface :=
  Build_FIFOInterface (list Z) Inputs (fun i => i) [] tick
    writable readable dout_bits.

End Elaborated.
End BoundedQueue.

(** Scenario A: four writes with [we] held, then four reads. *)
Definition wr (v : Z) : Inputs :=
  {| din := v; we := true; re := false; flush := false |}.

Definition rd : Inputs :=
  {| din := 0; we := false; re := true; flush := false |}.

Definition idle : Inputs :=
  {| din := 0; we := false; re := false; flush := false |}.

Definition fl : Inputs :=
  {| din := 0; we := false; re := false; flush := true |}.

Definition scenario_A : list Inputs :=
  [wr 10; wr 20; wr 30; wr 40; rd; rd; rd; rd].

(** ** [wishbone2csr] *)

(** Modelled from the spec: [timeline.Inst] ([migen.corelogic.timeline]) is
    not among the sources.  The specification calls it "a fixed-length
    event sequencer" that drives "a fixed three-step timed sequence (tick
    1 ...; tick 2 ...; tick 3 ...) gated on the bus cycle being active".
    So: a counter that rests at zero, leaves it when the trigger is
    asserted, then counts up to the time of the last event and returns to
    rest; the event of time [t] fires at the clock edge at which the
    counter is [t]. *)
Module timeline.

Definition counter_next (lastevent counter : Z) (trigger : bool) : Z :=
  if counter =? 0 then (if trigger then 1 else 0)
  else if counter =? lastevent then 0
  else counter + 1.

Definition fires (t counter : Z) : bool := counter =? t.

End timeline.

Module wishbone2csr.
Section Elaborated.

(** The widths of [csr.a_o], [csr.d_o] and [wishbone.dat_o], which the bus
    declarations fix. *)
Variables (flen_a_o flen_d_o flen_dat_o : Z).

(** What the Wishbone master and the CSR target drive in one tick. *)
Record bus := {
  cyc_i : bool;
  stb_i : bool;
  we_i : bool;
  adr_i : Z;
  dat_i : Z;
  d_i : Z
}.

(** The registers of the bridge, and the counter of its timeline. *)
Record t := {
  we_o : bool;
  d_o : Z;
  a_o : Z;
  dat_o : Z;
  ack_o : bool;
  counter : Z
}.

Definition init : t :=
  {| we_o := false; d_o := 0; a_o := 0; dat_o := 0; ack_o := false;
     counter := 0 |}.

(** [self.wishbone.cyc_i & self.wishbone.stb_i] *)
Definition trigger (i : bus) : bool := cyc_i i && stb_i i.

(** [get_fragment]: the four assignments of [sync], then the timeline's
    events, which come later in the list and so win over
    [self.csr.we_o.eq(0)]. *)
Definition tick (s : t) (i : bus) : t :=
  {| (* self.csr.we_o.eq(0); (1, [self.csr.we_o.eq(self.wishbone.we_i)]) *)
     we_o := if timeline.fires 1 (counter s) then we_i i else false;
     (* self.csr.d_o.eq(self.wishbone.dat_i) *)
     d_o := wrap flen_d_o (dat_i i);
     (* self.csr.a_o.eq(self.wishbone.adr_i[:14]) *)
     a_o := wrap flen_a_o (low 14 (adr_i i));
     (* self.wishbone.dat_o.eq(self.csr.d_i) *)
     dat_o := wrap flen_dat_o (d_i i);
     (* (2, [self.wishbone.ack_o.eq(1)]), (3, [self.wishbone.ack_o.eq(0)]) *)
     ack_o := if timeline.fires 3 (counter s) then false
              else if timeline.fires 2 (counter s) then true
              else ack_o s;
     counter := timeline.counter_next 3 (counter s) (trigger i) |}.

Definition run (inputs : list bus) : t := fold_left tick inputs init.

End Elaborated.
End wishbone2csr.

(** * Invariants

    What the proofs below say about the registers of each variant, and the
    notions the claims are stated with. *)

(** ** A queue laid out in a ring of [depth] memory words *)

(** The memory [m] holds the queue [q] from position [c] on: the [k]-th
    element of [q] is the word at address [(c + k) mod depth]. *)
Definition ring_holds (depth : Z) (m : list Z) (c : Z) (q : list Z) : Prop :=
  length m = Z.to_nat depth
  /\ forall (k : nat) (v : Z), q !! k = Some v ->
       m !! Z.to_nat ((c + Z.of_nat k) mod depth) = Some v.

(** ** The registers of the synchronous variants *)

Section Invariants.

Variable depth : Z.

(** The registers [s] hold the queue [q]: [level] is its length, and its
    [k]-th element sits [k] slots after [consume] in the ring. *)
Record holds_queue (s : SyncFIFO.t) (q : list Z) : Prop := {
  hq_consume : 0 <= SyncFIFO.consume s < depth;
  hq_level : SyncFIFO.level s = Z.of_nat (length q);
  hq_bound : SyncFIFO.level s <= depth;
  hq_produce :
    SyncFIFO.produce s = (SyncFIFO.consume s + SyncFIFO.level s) mod depth;
  hq_storage : ring_holds depth (SyncFIFO.storage s) (SyncFIFO.consume s) q
}.

(** The three things a clock edge of [SyncFIFO] is made of: a committed
    write, a committed read, a flush. *)
Definition push (v : Z) (s : SyncFIFO.t) : SyncFIFO.t :=
  {| SyncFIFO.produce := (SyncFIFO.produce s + 1) mod depth;
     SyncFIFO.consume := SyncFIFO.consume s;
     SyncFIFO.level := SyncFIFO.level s + 1;
     SyncFIFO.storage :=
       mem_write (SyncFIFO.storage s) (SyncFIFO.produce s) v |}.

Definition pop (s : SyncFIFO.t) : SyncFIFO.t :=
  {| SyncFIFO.produce := SyncFIFO.produce s;
     SyncFIFO.consume := (SyncFIFO.consume s + 1) mod depth;
     SyncFIFO.level := SyncFIFO.level s - 1;
     SyncFIFO.storage := SyncFIFO.storage s |}.

Definition cleared (s : SyncFIFO.t) : SyncFIFO.t :=
  {| SyncFIFO.produce := 0; SyncFIFO.consume := 0; SyncFIFO.level := 0;
     SyncFIFO.storage := SyncFIFO.storage s |}.

(** What the adapter holds in front of the inner FIFO. *)
Definition buffered_front (s : SyncFIFOBuffered.t) : list Z :=
  if SyncFIFOBuffered.readable s then [SyncFIFOBuffered.dout_bits s] else [].

Definition buffered_holds (s : SyncFIFOBuffered.t) (q : list Z) : Prop :=
  exists q_in,
    holds_queue (SyncFIFOClassic.fifo (SyncFIFOBuffered.fifo s)) q_in
    /\ q = buffered_front s ++ q_in.

(** What the wrapper holds in front of the inner FIFO: the bypass cell
    when it is occupied, else the mirror register when it is valid. *)
Definition relaxed_front (s : SyncFIFORelaxed.t) : list Z :=
  if SyncFIFORelaxed.buff_readable s then [SyncFIFORelaxed.buff s]
  else if SyncFIFORelaxed.dout_readable s then [SyncFIFORelaxed.dout s]
  else [].

Definition relaxed_holds (s : SyncFIFORelaxed.t) (q : list Z) : Prop :=
  exists q_in,
    holds_queue (SyncFIFORelaxed.fifo s) q_in
    /\ q = relaxed_front s ++ q_in.

End Invariants.

(** The pending writes after the trace [tr], starting from [q]. *)
Definition pending_from (q : list Z) (tr : list Event) : list Z :=
  fold_left pending_step tr q.

(** ** The registers of [AsyncFIFO] *)

(** [chain_ok hi lo ws]: the samples [ws], newest first, were taken from a
    count that only grows and is now [hi], and none is below [lo]. *)
Fixpoint chain_ok (hi lo : Z) (ws : list Z) : Prop :=
  match ws with
  | [] => lo <= hi
  | w :: rest => w <= hi /\ chain_ok w lo rest
  end.

Section AsyncFIFO_invariant.

Variable depth_bits : Z.

(** The binary and the Gray pointer after [x] committed operations. *)
Definition pointer (x : Z) : Z := x mod 2 ^ AsyncFIFO.width depth_bits.

Definition gray_pointer (x : Z) : Z := GrayCounter.gray (pointer x).

(** [s] is what [reads] committed reads and [reads + length q] committed
    writes leave behind, [q] being the writes not yet read; [ws] and [rs]
    are the counts whose pointers sit in the two register chains. *)
Record async_inv (s : AsyncFIFO.t) (q : list Z)
    (reads : Z) (ws rs : list Z) : Prop := {
  ai_reads : 0 <= reads;
  ai_consume_binary :
    GrayCounter.q_binary (AsyncFIFO.consume s) = pointer reads;
  ai_consume_q : GrayCounter.q (AsyncFIFO.consume s) = gray_pointer reads;
  ai_produce_binary :
    GrayCounter.q_binary (AsyncFIFO.produce s)
    = pointer (reads + Z.of_nat (length q));
  ai_produce_q :
    GrayCounter.q (AsyncFIFO.produce s)
    = gray_pointer (reads + Z.of_nat (length q));
  ai_rdomain : AsyncFIFO.produce_rdomain s = map gray_pointer ws;
  ai_rdomain_ne : ws <> [];
  ai_rdomain_ok : chain_ok (reads + Z.of_nat (length q)) reads ws;
  ai_wdomain : AsyncFIFO.consume_wdomain s = map gray_pointer rs;
  ai_wdomain_ne : rs <> [];
  ai_wdomain_ok :
    chain_ok reads
      (reads + Z.of_nat (length q) - AsyncFIFO.depth depth_bits) rs;
  ai_storage :
    ring_holds (AsyncFIFO.depth depth_bits) (AsyncFIFO.storage s) reads q;
  ai_adr :
    adr_reg (AsyncFIFO.rdport s) = reads mod AsyncFIFO.depth depth_bits;
  ai_dat : forall w, last ws = Some w -> reads < w ->
    head q = Some (dat_reg (AsyncFIFO.rdport s))
}.

Definition async_holds (s : AsyncFIFO.t) (q : list Z) : Prop :=
  exists reads ws rs, async_inv s q reads ws rs.

(** The edges of the two clocks, each ticking or not. *)
Definition tick_domains (tw tr : bool) (s : AsyncFIFO.t)
    (d : Z) (we re : bool) : AsyncFIFO.t :=
  let w := if tw then AsyncFIFO.tick_write depth_bits s d we else s in
  let r := if tr then AsyncFIFO.tick_read depth_bits s re else s in
  {| AsyncFIFO.produce := AsyncFIFO.produce w;
     AsyncFIFO.consume := AsyncFIFO.consume r;
     AsyncFIFO.produce_rdomain := AsyncFIFO.produce_rdomain r;
     AsyncFIFO.consume_wdomain := AsyncFIFO.consume_wdomain w;
     AsyncFIFO.storage := AsyncFIFO.storage w;
     AsyncFIFO.rdport := AsyncFIFO.rdport r |}.

End AsyncFIFO_invariant.

(** ** Enables that are not honoured *)

(** [we_is_noop M mask same]: at an edge where [writable] is false, the
    registers after the edge are the same whether the caller asserts [we]
    or not ([mask] is the edge with [we] deasserted).  [re_is_noop]
    likewise for [re] while [readable] is false. *)
Definition we_is_noop (M : FIFOInterface) (mask : edge M -> edge M)
    (same : regs M -> regs M -> Prop) : Prop :=
  forall s e, writable M s = false -> same (tick M s e) (tick M s (mask e)).

Definition re_is_noop (M : FIFOInterface) (mask : edge M -> edge M)
    (same : regs M -> regs M -> Prop) : Prop :=
  forall s e, readable M s = false -> same (tick M s e) (tick M s (mask e)).

(** The edges of [AsyncFIFO] with an enable deasserted. *)
Definition async_without_we (e : AsyncFIFO.clock_edge) : AsyncFIFO.clock_edge :=
  match e with
  | AsyncFIFO.write_edge d _ => AsyncFIFO.write_edge d false
  | AsyncFIFO.read_edge r => AsyncFIFO.read_edge r
  | AsyncFIFO.both_edges d _ r => AsyncFIFO.both_edges d false r
  end.

Definition async_without_re (e : AsyncFIFO.clock_edge) : AsyncFIFO.clock_edge :=
  match e with
  | AsyncFIFO.write_edge d w => AsyncFIFO.write_edge d w
  | AsyncFIFO.read_edge _ => AsyncFIFO.read_edge false
  | AsyncFIFO.both_edges d w _ => AsyncFIFO.both_edges d w false
  end.

(** Two states of [SyncFIFORelaxed] that agree in every register except,
    while the bypass cell is not occupied, in what the cell holds. *)
Definition relaxed_same (s1 s2 : SyncFIFORelaxed.t) : Prop :=
  SyncFIFORelaxed.fifo s1 = SyncFIFORelaxed.fifo s2
  /\ SyncFIFORelaxed.dout s1 = SyncFIFORelaxed.dout s2
  /\ SyncFIFORelaxed.dout_readable s1 = SyncFIFORelaxed.dout_readable s2
  /\ SyncFIFORelaxed.buff_readable s1 = SyncFIFORelaxed.buff_readable s2
  /\ (SyncFIFORelaxed.buff_readable s1 = true ->
      SyncFIFORelaxed.buff s1 = SyncFIFORelaxed.buff s2).

(** What a caller can ever see from two states is the same. *)
Definition same_traces (M : FIFOInterface) (s1 s2 : regs M) : Prop :=
  forall inputs, trace_from M s1 inputs = trace_from M s2 inputs.

(** ** What the wrappers hold, more closely *)

(** [SyncFIFORelaxed] never leaves a word in the inner FIFO while both of
    its own registers are empty. *)
Definition relaxed_tight (depth : Z) (s : SyncFIFORelaxed.t) (q : list Z) : Prop :=
  exists q_in,
    holds_queue depth (SyncFIFORelaxed.fifo s) q_in
    /\ q = relaxed_front s ++ q_in
    /\ (relaxed_front s = [] -> q_in = []).

(** The pending writes of [SyncFIFOClassic] are those of the inner FIFO;
    its output register is not among them. *)
Definition classic_holds (depth : Z) (s : SyncFIFOClassic.t) (q : list Z) : Prop :=
  holds_queue depth (SyncFIFOClassic.fifo s) q.

(** Two states of [SyncFIFOBuffered] with the same words pending: they
    agree on [readable], on the output register while [readable] is
    asserted, and on the queue the inner FIFO holds. *)
Definition buffered_same (depth : Z) (s1 s2 : SyncFIFOBuffered.t) : Prop :=
  SyncFIFOBuffered.readable s1 = SyncFIFOBuffered.readable s2
  /\ (SyncFIFOBuffered.readable s1 = true ->
      SyncFIFOBuffered.dout_bits s1 = SyncFIFOBuffered.dout_bits s2)
  /\ exists q_in,
       holds_queue depth (SyncFIFOClassic.fifo (SyncFIFOBuffered.fifo s1)) q_in
       /\ holds_queue depth (SyncFIFOClassic.fifo (SyncFIFOBuffered.fifo s2)) q_in.

(** ** One clock of [AsyncFIFO] running alone *)

(** Edges of the [read] clock alone, with the [re] driven at each, and
    edges of the [write] clock alone, with the [din] and [we] driven at
    each. *)
Definition read_edges (res : list bool) : list AsyncFIFO.clock_edge :=
  map AsyncFIFO.read_edge res.

Definition write_edges (wes : list (Z * bool)) : list AsyncFIFO.clock_edge :=
  map (fun dw => AsyncFIFO.write_edge (fst dw) (snd dw)) wes.

(** The [k] newest samples of the chain [ws] are the count [x]. *)
Definition fresh (k : nat) (x : Z) (ws : list Z) : Prop :=
  forall (j : nat) (w : Z), (j < k)%nat -> ws !! j = Some w -> w = x.

(** The samples of the chain [ws] from the [k]-th on are the count [x]. *)
Definition stale (k : nat) (x : Z) (ws : list Z) : Prop :=
  forall (j : nat) (w : Z), (k <= j)%nat -> ws !! j = Some w -> w = x.

(** * Proofs *)

(** ** Arithmetic of wrapped pointers *)

Lemma wrap_small (flen v : Z) : 0 <= v < 2 ^ flen -> wrap flen v = v.
Proof. intros H. unfold wrap. apply Z.mod_small, H. Qed.

Lemma inc_mod (flen s depth : Z) :
  holds_max flen depth -> 0 <= s < depth ->
  _inc flen s depth = (s + 1) mod depth.
Proof.
  intros [Hf Hd] Hs. unfold _inc, inc_truncate, inc_compare_reset, wrap.
  destruct (Z.eqb_spec depth (2 ^ flen)) as [->|Hne]; [reflexivity|].
  destruct (Z.eqb_spec s (depth - 1)) as [->|Hs'].
  - replace (depth - 1 + 1) with depth by lia.
    symmetry. apply Z.mod_same. lia.
  - rewrite !Z.mod_small by lia. reflexivity.
Qed.

Lemma mod_succ (a d : Z) : 0 < d -> (a mod d + 1) mod d = (a + 1) mod d.
Proof. intros Hd. apply Zplus_mod_idemp_l. Qed.

(** Two slots of the ring less than [d] apart are different slots. *)
Lemma ring_slots_distinct (c j k d : Z) :
  0 <= j < k -> k < d -> (c + j) mod d <> (c + k) mod d.
Proof.
  intros Hj Hk Heq.
  assert (Hd : 0 < d) by lia.
  pose proof (Z.div_mod (c + j) d ltac:(lia)) as Ej.
  pose proof (Z.div_mod (c + k) d ltac:(lia)) as Ek.
  rewrite Heq in Ej.
  assert (E : k - j = d * ((c + k) / d - (c + j) / d)) by lia.
  set (x := (c + k) / d - (c + j) / d) in *.
  assert (x <= 0 \/ 1 <= x) as [Hx|Hx] by lia; nia.
Qed.

(** ** The ring *)

Lemma ring_holds_nil depth m c :
  length m = Z.to_nat depth -> ring_holds depth m c [].
Proof.
  intros H. split; [exact H|].
  intros k v Hk. rewrite lookup_nil in Hk. discriminate.
Qed.

Lemma ring_holds_push depth m c q v :
  0 < depth -> ring_holds depth m c q -> Z.of_nat (length q) < depth ->
  ring_holds depth
    (mem_write m ((c + Z.of_nat (length q)) mod depth) v) c (q ++ [v]).
Proof.
  intros Hd [Hs Hq] Hlen. unfold mem_write. split.
  - rewrite length_insert. exact Hs.
  - intros k w Hk.
    destruct (decide (k < length q)%nat) as [Hlt|Hge].
    + rewrite lookup_app_l in Hk by exact Hlt.
      rewrite list_lookup_insert_ne; [apply Hq, Hk|].
      intros E. apply Z2Nat.inj in E; try (apply Z.mod_pos_bound; lia).
      symmetry in E. revert E. apply ring_slots_distinct; lia.
    + assert (k = length q) as ->.
      { apply lookup_lt_Some in Hk. rewrite length_app in Hk.
        simpl in Hk. lia. }
      rewrite lookup_app_r in Hk by lia.
      rewrite Nat.sub_diag in Hk. simpl in Hk. injection Hk as <-.
      apply list_lookup_insert_eq.
      pose proof (Z.mod_pos_bound (c + Z.of_nat (length q)) depth Hd). lia.
Qed.

Lemma ring_holds_pop depth m c v q :
  ring_holds depth m c (v :: q) -> ring_holds depth m (c + 1) q.
Proof.
  intros [Hs Hq]. split; [exact Hs|].
  intros k w Hk.
  replace (c + 1 + Z.of_nat k) with (c + Z.of_nat (S k)) by lia.
  apply Hq. exact Hk.
Qed.

Lemma ring_holds_mod depth m c q :
  ring_holds depth m c q -> ring_holds depth m (c mod depth) q.
Proof.
  intros [Hs Hq]. split; [exact Hs|].
  intros k w Hk. rewrite Zplus_mod_idemp_l. apply Hq, Hk.
Qed.

Lemma ring_holds_head depth m c v q :
  ring_holds depth m c (v :: q) -> mem_read m (c mod depth) = v.
Proof.
  intros [_ Hq]. unfold mem_read.
  pose proof (Hq 0%nat v eq_refl) as E. rewrite Z.add_0_r in E.
  rewrite E. reflexivity.
Qed.

(** ** [SyncFIFO] refines the bounded queue *)

Section SyncFIFO_refinement.

Variables (depth flen_ptr flen_level : Z).
Hypothesis depth_pos : 0 < depth.
Hypothesis ptr_fits : holds_max flen_ptr depth.
Hypothesis level_fits : holds_max flen_level (depth + 1).

Lemma holds_queue_init : holds_queue depth (SyncFIFO.init depth) [].
Proof.
  split; simpl; [lia|lia|lia| |].
  - rewrite Z.mod_0_l by lia. reflexivity.
  - apply ring_holds_nil. unfold Memory. apply length_replicate.
Qed.

Lemma holds_queue_produce s q :
  holds_queue depth s q -> 0 <= SyncFIFO.produce s < depth.
Proof.
  intros H. rewrite (hq_produce _ _ _ H). apply Z.mod_pos_bound, depth_pos.
Qed.

Lemma holds_queue_push s q v :
  holds_queue depth s q -> SyncFIFO.level s <> depth ->
  holds_queue depth (push depth v s) (q ++ [v]).
Proof.
  intros [Hc Hl Hb Hpr Hm] Hne.
  split; simpl.
  - exact Hc.
  - rewrite length_app. simpl. lia.
  - lia.
  - rewrite Hpr, mod_succ by lia. f_equal. lia.
  - rewrite Hpr, Hl. apply ring_holds_push; [exact depth_pos|exact Hm|lia].
Qed.

Lemma holds_queue_pop s v q :
  holds_queue depth s (v :: q) -> holds_queue depth (pop depth s) q.
Proof.
  intros [Hc Hl Hb Hpr Hm]. simpl in Hl.
  split; simpl.
  - apply Z.mod_pos_bound, depth_pos.
  - lia.
  - lia.
  - rewrite Hpr, Zplus_mod_idemp_l. f_equal. lia.
  - apply ring_holds_mod. eapply ring_holds_pop, Hm.
Qed.

Lemma holds_queue_cleared s :
  length (SyncFIFO.storage s) = Z.to_nat depth -> holds_queue depth (cleared s) [].
Proof.
  intros Hs. split; simpl; [lia|lia|lia| |].
  - rewrite Z.mod_0_l by lia. reflexivity.
  - apply ring_holds_nil, Hs.
Qed.

(** The outputs are those of the queue. *)
Lemma holds_queue_writable s q :
  holds_queue depth s q -> SyncFIFO.writable depth s = BoundedQueue.writable depth q.
Proof.
  intros H. unfold SyncFIFO.writable, BoundedQueue.writable.
  rewrite (hq_level _ _ _ H). reflexivity.
Qed.

Lemma holds_queue_readable s q :
  holds_queue depth s q -> SyncFIFO.readable s = BoundedQueue.readable q.
Proof.
  intros H. unfold SyncFIFO.readable, BoundedQueue.readable.
  rewrite (hq_level _ _ _ H). reflexivity.
Qed.

Lemma holds_queue_dout s v q :
  holds_queue depth s (v :: q) -> SyncFIFO.dout_bits s = v.
Proof.
  intros H. unfold SyncFIFO.dout_bits.
  rewrite <- (Z.mod_small (SyncFIFO.consume s) depth)
    by apply (hq_consume _ _ _ H).
  eapply ring_holds_head, (hq_storage _ _ _ H).
Qed.

(** One clock edge, split into the write, the read and the flush. *)
Lemma tick_decompose s q i :
  holds_queue depth s q ->
  SyncFIFO.tick depth flen_ptr flen_level s i =
    let s1 := if SyncFIFO.do_write depth s i then push depth (din i) s else s in
    if flush i then cleared s1
    else if SyncFIFO.do_read s i then pop depth s1 else s1.
Proof.
  intros H. pose proof (holds_queue_produce _ _ H) as Hp.
  pose proof (hq_consume _ _ _ H) as Hc. pose proof (hq_bound _ _ _ H) as Hb.
  pose proof (hq_level _ _ _ H) as Hl.
  destruct level_fits as [Hf0 Hf].
  unfold SyncFIFO.tick, push, pop, cleared. cbv zeta.
  rewrite !(inc_mod flen_ptr _ depth ptr_fits) by assumption.
  unfold SyncFIFO.do_write, SyncFIFO.do_read, SyncFIFO.writable,
    SyncFIFO.readable.
  destruct (flush i);
    destruct (Z.eqb_spec (SyncFIFO.level s) depth) as [Ed|Ed];
    destruct (Z.eqb_spec (SyncFIFO.level s) 0) as [E0|E0];
    destruct (we i); destruct (re i); destruct s as [p c l m];
    simpl in *; try reflexivity;
    f_equal; try lia;
    rewrite wrap_small by lia; reflexivity.
Qed.

(** The simulation: a clock edge of [SyncFIFO] is a step of the queue. *)
Lemma holds_queue_tick s q i :
  holds_queue depth s q ->
  holds_queue depth (SyncFIFO.tick depth flen_ptr flen_level s i)
    (BoundedQueue.tick depth q i).
Proof.
  intros H. rewrite (tick_decompose s q i H). cbv zeta.
  unfold BoundedQueue.tick, SyncFIFO.do_write, SyncFIFO.do_read.
  rewrite <- (holds_queue_writable s q H), <- (holds_queue_readable s q H).
  assert (Hs1 : holds_queue depth
    (if SyncFIFO.writable depth s && we i then push depth (din i) s else s)
    (q ++ (if SyncFIFO.writable depth s && we i then [din i] else []))).
  { destruct (SyncFIFO.writable depth s && we i) eqn:W.
    - apply holds_queue_push; [exact H|].
      apply andb_true_iff in W as [W _]. unfold SyncFIFO.writable in W.
      apply negb_true_iff, Z.eqb_neq in W. exact W.
    - rewrite app_nil_r. exact H. }
  destruct (flush i).
  - apply holds_queue_cleared, (hq_storage _ _ _ Hs1).
  - destruct (SyncFIFO.readable s && re i) eqn:R; [|exact Hs1].
    apply andb_true_iff in R as [R _]. unfold SyncFIFO.readable in R.
    apply negb_true_iff, Z.eqb_neq in R.
    destruct q as [|v q'].
    + exfalso. apply R. rewrite (hq_level _ _ _ H). reflexivity.
    + simpl. simpl in Hs1. eapply holds_queue_pop, Hs1.
Qed.

End SyncFIFO_refinement.

(** ** Runs of any variant against its pending writes *)

Lemma pending_step_no_flush q e :
  flush (ev_in e) = false ->
  pending_step q e
  = (match committed_read e with Some _ => tail q | None => q end)
    ++ (match committed_write e with Some v => [v] | None => [] end).
Proof. intros H. unfold pending_step. rewrite H. reflexivity. Qed.

Section Pending.

Variable M : FIFOInterface.

(** [R s q]: in the registers [s] the pending writes are [q]. *)
Variable R : regs M -> list Z -> Prop.

Hypothesis R_tick : forall s q i,
  R s q -> R (tick M s i) (pending_step q (observe M s i)).

Hypothesis R_dout : forall s q,
  R s q -> readable M s = true -> head q = Some (dout_bits M s).

Lemma R_run_from inputs : forall s q,
  R s q ->
  R (run_from M s inputs) (pending_from q (trace_from M s inputs)).
Proof.
  induction inputs as [|i rest IH]; intros s q H; simpl.
  - exact H.
  - apply IH, R_tick, H.
Qed.

Lemma R_committed_read s q i v :
  R s q -> committed_read (observe M s i) = Some v -> head q = Some v.
Proof.
  intros H E. unfold committed_read, observe in E. simpl in E.
  destruct (re (drive M i)); [|discriminate].
  destruct (readable M s) eqn:Hr; [|discriminate].
  injection E as <-. apply R_dout; assumption.
Qed.

(** Every committed read returns the oldest pending write. *)
Lemma R_read_is_oldest inputs : forall s q n e v,
  R s q ->
  trace_from M s inputs !! n = Some e ->
  committed_read e = Some v ->
  head (pending_from q (take n (trace_from M s inputs))) = Some v.
Proof.
  induction inputs as [|i rest IH]; intros s q n e v H Hn He; simpl in *.
  - rewrite lookup_nil in Hn. discriminate.
  - destruct n as [|n]; simpl in *.
    + injection Hn as <-. eapply R_committed_read; eassumption.
    + eapply IH; [apply R_tick, H|exact Hn|exact He].
Qed.

(** Without a flush nothing is lost or reordered: what was read, followed
    by what is still pending, is what was written. *)
Lemma R_reads_then_pending inputs : forall s q,
  R s q ->
  Forall (fun i => flush (drive M i) = false) inputs ->
  reads (trace_from M s inputs) ++ pending_from q (trace_from M s inputs)
  = q ++ writes (trace_from M s inputs).
Proof.
  induction inputs as [|i rest IH]; intros s q H Hf; simpl.
  - symmetry. apply app_nil_r.
  - inversion Hf as [|? ? Hi Hrest]; subst.
    specialize (IH _ _ (R_tick _ _ i H) Hrest).
    pose proof (R_committed_read s q i) as Hhead.
    unfold reads, writes, pending_from in *. simpl.
    rewrite (pending_step_no_flush q (observe M s i) Hi) in *.
    destruct (committed_read (observe M s i)) as [v|];
      destruct (committed_write (observe M s i)) as [w|]; simpl.
    + specialize (Hhead v H eq_refl).
      destruct q as [|v' q']; [discriminate|]. injection Hhead as ->.
      simpl in *. rewrite IH, <- app_assoc. reflexivity.
    + specialize (Hhead v H eq_refl).
      destruct q as [|v' q']; [discriminate|]. injection Hhead as ->.
      simpl in *. rewrite IH, <- app_assoc. reflexivity.
    + rewrite IH, <- app_assoc. reflexivity.
    + rewrite IH, <- app_assoc. reflexivity.
Qed.

End Pending.

(** The queue's pending writes are its contents. *)
Lemma queue_pending_step depth q i :
  pending_step q (observe (BoundedQueue.machine depth) q i)
  = BoundedQueue.tick depth q i.
Proof.
  unfold pending_step, BoundedQueue.tick, committed_read, committed_write,
    observe. simpl.
  destruct (flush i); [reflexivity|].
  destruct (re i), (BoundedQueue.readable q),
    (BoundedQueue.writable depth q && we i); reflexivity.
Qed.

Section SyncFIFO_runs.

Variables (depth flen_ptr flen_level : Z).
Hypothesis depth_pos : 0 < depth.
Hypothesis ptr_fits : holds_max flen_ptr depth.
Hypothesis level_fits : holds_max flen_level (depth + 1).

Lemma SyncFIFO_observe s q i :
  holds_queue depth s q ->
  observe (SyncFIFO.machine depth flen_ptr flen_level) s i
  = observe (BoundedQueue.machine depth) q i.
Proof.
  intros H. unfold observe. simpl.
  rewrite (holds_queue_writable depth s q H), (holds_queue_readable depth s q H).
  destruct q as [|v q']; [reflexivity|].
  rewrite (holds_queue_dout depth s v q' H). reflexivity.
Qed.

Lemma SyncFIFO_pending_tick s q i :
  holds_queue depth s q ->
  holds_queue depth (SyncFIFO.tick depth flen_ptr flen_level s i)
    (pending_step q (observe (SyncFIFO.machine depth flen_ptr flen_level) s i)).
Proof.
  intros H. rewrite (SyncFIFO_observe s q i H), queue_pending_step.
  apply holds_queue_tick; assumption.
Qed.

Lemma SyncFIFO_pending_dout s q :
  holds_queue depth s q -> SyncFIFO.readable s = true ->
  head q = Some (SyncFIFO.dout_bits s).
Proof.
  intros H Hr. destruct q as [|v q'].
  - rewrite (holds_queue_readable depth s [] H) in Hr. discriminate.
  - rewrite (holds_queue_dout depth s v q' H). reflexivity.
Qed.

(** After any inputs the registers hold exactly the pending writes. *)
Lemma SyncFIFO_holds_pending inputs :
  holds_queue depth (run (SyncFIFO.machine depth flen_ptr flen_level) inputs)
    (pending (trace (SyncFIFO.machine depth flen_ptr flen_level) inputs)).
Proof.
  apply (R_run_from (SyncFIFO.machine depth flen_ptr flen_level)
           (holds_queue depth) SyncFIFO_pending_tick inputs).
  apply holds_queue_init. exact depth_pos.
Qed.

(** [SyncFIFO] and the bounded queue cannot be told apart at the ports. *)
Lemma SyncFIFO_trace_from_queue inputs : forall s q,
  holds_queue depth s q ->
  trace_from (SyncFIFO.machine depth flen_ptr flen_level) s inputs
  = trace_from (BoundedQueue.machine depth) q inputs
  /\ holds_queue depth
       (run_from (SyncFIFO.machine depth flen_ptr flen_level) s inputs)
       (run_from (BoundedQueue.machine depth) q inputs).
Proof.
  induction inputs as [|i rest IH]; intros s q H; simpl.
  - split; [reflexivity|exact H].
  - destruct (IH _ _ (holds_queue_tick depth flen_ptr flen_level
                        depth_pos ptr_fits level_fits s q i H)) as [E HR].
    split; [|exact HR].
    f_equal; [apply SyncFIFO_observe, H|exact E].
Qed.

Lemma SyncFIFO_trace_queue inputs :
  trace (SyncFIFO.machine depth flen_ptr flen_level) inputs
  = trace (BoundedQueue.machine depth) inputs
  /\ holds_queue depth
       (run (SyncFIFO.machine depth flen_ptr flen_level) inputs)
       (run (BoundedQueue.machine depth) inputs).
Proof.
  apply SyncFIFO_trace_from_queue, holds_queue_init. exact depth_pos.
Qed.

End SyncFIFO_runs.

Lemma queue_readable_nil : BoundedQueue.readable [] = false.
Proof. reflexivity. Qed.

Lemma queue_readable_cons v q : BoundedQueue.readable (v :: q) = true.
Proof.
  unfold BoundedQueue.readable. apply negb_true_iff, Z.eqb_neq.
  simpl length. lia.
Qed.

(** ** [SyncFIFOBuffered]: the output register in front of the inner queue *)

Section SyncFIFOBuffered_runs.

Variables (depth flen_ptr flen_level : Z).
Hypothesis depth_pos : 0 < depth.
Hypothesis ptr_fits : holds_max flen_ptr depth.
Hypothesis level_fits : holds_max flen_level (depth + 1).

Lemma buffered_holds_init : buffered_holds depth (SyncFIFOBuffered.init depth) [].
Proof.
  exists []. split; [apply holds_queue_init; exact depth_pos|reflexivity].
Qed.

Lemma buffered_holds_tick s q i :
  buffered_holds depth s q ->
  buffered_holds depth (SyncFIFOBuffered.tick depth flen_ptr flen_level s i)
    (pending_step q
       (observe (SyncFIFOBuffered.machine depth flen_ptr flen_level) s i)).
Proof.
  intros [q_in [Hq ->]].
  exists (BoundedQueue.tick depth q_in
            (with_re (SyncFIFOBuffered.fifo_re s i) i)).
  split.
  - simpl. apply holds_queue_tick; assumption.
  - destruct s as [[inner dreg] r].
    unfold pending_step, committed_read, committed_write, observe,
      buffered_front, BoundedQueue.tick.
    simpl in *.
    unfold SyncFIFOBuffered.tick, SyncFIFOClassic.tick,
      SyncFIFOBuffered.writable, SyncFIFOBuffered.fifo_re,
      SyncFIFOBuffered.dout_bits, SyncFIFOClassic.writable,
      SyncFIFOClassic.readable.
    simpl in *.
    rewrite !(holds_queue_writable depth _ q_in Hq),
      !(holds_queue_readable depth _ q_in Hq).
    destruct (flush i); [destruct r; reflexivity|].
    destruct q_in as [|v q_in'].
    + rewrite !queue_readable_nil. simpl.
      destruct r, (re i), (BoundedQueue.writable depth [] && we i);
        reflexivity.
    + rewrite !queue_readable_cons, !(holds_queue_dout depth _ v q_in' Hq).
      simpl.
      destruct r, (re i), (BoundedQueue.writable depth (v :: q_in') && we i);
        reflexivity.
Qed.

Lemma buffered_holds_dout s q :
  buffered_holds depth s q -> SyncFIFOBuffered.readable s = true ->
  head q = Some (SyncFIFOBuffered.dout_bits s).
Proof.
  intros [q_in [_ ->]] Hr. unfold buffered_front. rewrite Hr. reflexivity.
Qed.

Lemma SyncFIFOBuffered_holds_pending inputs :
  buffered_holds depth
    (run (SyncFIFOBuffered.machine depth flen_ptr flen_level) inputs)
    (pending (trace (SyncFIFOBuffered.machine depth flen_ptr flen_level) inputs)).
Proof.
  apply (R_run_from (SyncFIFOBuffered.machine depth flen_ptr flen_level)
           (buffered_holds depth) buffered_holds_tick inputs).
  apply buffered_holds_init.
Qed.

End SyncFIFOBuffered_runs.

Lemma queue_writable_nil depth : 0 < depth -> BoundedQueue.writable depth [] = true.
Proof.
  intros H. unfold BoundedQueue.writable. apply negb_true_iff, Z.eqb_neq.
  simpl. lia.
Qed.

(** ** [SyncFIFORelaxed]: the bypass cell and the mirror register *)

Section SyncFIFORelaxed_runs.

Variables (depth flen_ptr flen_level : Z).
Hypothesis depth_pos : 0 < depth.
Hypothesis ptr_fits : holds_max flen_ptr depth.
Hypothesis level_fits : holds_max flen_level (depth + 1).

Lemma relaxed_holds_init : relaxed_holds depth (SyncFIFORelaxed.init depth) [].
Proof.
  exists []. split; [apply holds_queue_init; exact depth_pos|reflexivity].
Qed.

Lemma relaxed_holds_tick s q i :
  relaxed_holds depth s q ->
  relaxed_holds depth (SyncFIFORelaxed.tick depth flen_ptr flen_level s i)
    (pending_step q
       (observe (SyncFIFORelaxed.machine depth flen_ptr flen_level) s i)).
Proof.
  intros [q_in [Hq ->]].
  exists (BoundedQueue.tick depth q_in (SyncFIFORelaxed.fifo_inputs s i)).
  split.
  - simpl. apply holds_queue_tick; assumption.
  - destruct s as [inner d dr b br].
    unfold pending_step, committed_read, committed_write, observe,
      relaxed_front, BoundedQueue.tick.
    simpl in *.
    unfold SyncFIFORelaxed.tick, SyncFIFORelaxed.fifo_inputs,
      SyncFIFORelaxed.fifo_we, SyncFIFORelaxed.fifo_re,
      SyncFIFORelaxed.do_shunt, SyncFIFORelaxed.writable,
      SyncFIFORelaxed.readable, SyncFIFORelaxed.dout_bits.
    simpl in *.
    rewrite !(holds_queue_writable depth _ q_in Hq),
      !(holds_queue_readable depth _ q_in Hq).
    destruct (flush i); [destruct br, dr; reflexivity|].
    destruct q_in as [|v q_in'].
    + rewrite !queue_readable_nil, !(queue_writable_nil depth depth_pos).
      simpl.
      destruct br, dr, (re i), (we i); reflexivity.
    + rewrite !queue_readable_cons, !(holds_queue_dout depth _ v q_in' Hq).
      simpl.
      destruct br, dr, (re i), (we i),
        (BoundedQueue.writable depth (v :: q_in')); reflexivity.
Qed.

Lemma relaxed_holds_dout s q :
  relaxed_holds depth s q -> SyncFIFORelaxed.readable s = true ->
  head q = Some (SyncFIFORelaxed.dout_bits s).
Proof.
  intros [q_in [_ ->]]. 
  unfold relaxed_front, SyncFIFORelaxed.readable, SyncFIFORelaxed.dout_bits.
  destruct (SyncFIFORelaxed.buff_readable s),
    (SyncFIFORelaxed.dout_readable s); simpl; intros Hr;
    try reflexivity; discriminate.
Qed.

Lemma SyncFIFORelaxed_holds_pending inputs :
  relaxed_holds depth
    (run (SyncFIFORelaxed.machine depth flen_ptr flen_level) inputs)
    (pending (trace (SyncFIFORelaxed.machine depth flen_ptr flen_level) inputs)).
Proof.
  apply (R_run_from (SyncFIFORelaxed.machine depth flen_ptr flen_level)
           (relaxed_holds depth) relaxed_holds_tick inputs).
  apply relaxed_holds_init.
Qed.

End SyncFIFORelaxed_runs.

(** ** Gray pointers *)

Lemma testbit_small (n c k : Z) :
  0 <= n -> 0 <= c < 2 ^ n -> n <= k -> Z.testbit c k = false.
Proof.
  intros Hn Hc Hk. rewrite <- (Z.mod_small c (2 ^ n)) by exact Hc.
  apply Z.mod_pow2_bits_high. lia.
Qed.

Lemma testbit_add_pow2 (c m k : Z) :
  0 <= k <= m ->
  Z.testbit (c + 2 ^ m) k
  = if k =? m then negb (Z.testbit c k) else Z.testbit c k.
Proof.
  intros Hk. destruct (Z.eqb_spec k m) as [->|Hne].
  - rewrite !Z.testbit_odd, !Z.shiftr_div_pow2 by lia.
    replace (c + 2 ^ m) with (c + 1 * 2 ^ m) by lia.
    rewrite Z.div_add by (apply Z.pow_nonzero; lia).
    rewrite Z.add_1_r, Z.odd_succ, <- Z.negb_odd. reflexivity.
  - rewrite <- (Z.mod_pow2_bits_low (c + 2 ^ m) m k) by lia.
    rewrite <- (Z.mod_pow2_bits_low c m k) by lia.
    replace (c + 2 ^ m) with (c + 1 * 2 ^ m) by lia.
    rewrite Z_mod_plus_full. reflexivity.
Qed.

(** Adding half the range to a pointer of [n] bits flips its top bit. *)
Lemma testbit_half_turn (n c k : Z) :
  1 <= n -> 0 <= c < 2 ^ n -> 0 <= k ->
  Z.testbit ((c + 2 ^ (n - 1)) mod 2 ^ n) k
  = xorb (Z.testbit c k) (k =? n - 1).
Proof.
  intros Hn Hc Hk. rewrite Z.testbit_mod_pow2 by lia.
  destruct (Z.ltb_spec k n) as [Hlt|Hge]; simpl.
  - rewrite testbit_add_pow2 by lia.
    destruct (k =? n - 1), (Z.testbit c k); reflexivity.
  - rewrite (testbit_small n c k) by lia.
    destruct (Z.eqb_spec k (n - 1)); [lia|reflexivity].
Qed.

Lemma testbit_gray (b k : Z) :
  0 <= k ->
  Z.testbit (GrayCounter.gray b) k
  = xorb (Z.testbit b k) (Z.testbit b (k + 1)).
Proof.
  intros Hk. unfold GrayCounter.gray.
  rewrite Z.lxor_spec, Z.shiftr_spec by lia. reflexivity.
Qed.

(** The Gray code of a pointer half a turn ahead differs in exactly the top
    two bits. *)
Lemma testbit_gray_half_turn (n c k : Z) :
  2 <= n -> 0 <= c < 2 ^ n -> 0 <= k ->
  Z.testbit (GrayCounter.gray ((c + 2 ^ (n - 1)) mod 2 ^ n)) k
  = xorb (Z.testbit (GrayCounter.gray c) k)
         ((k =? n - 1) || (k =? n - 2)).
Proof.
  intros Hn Hc Hk. rewrite !testbit_gray by lia.
  rewrite !testbit_half_turn by lia.
  destruct (Z.eqb_spec k (n - 1)), (Z.eqb_spec k (n - 2)),
    (Z.eqb_spec (k + 1) (n - 1)); try lia;
    destruct (Z.testbit c k), (Z.testbit c (k + 1)); reflexivity.
Qed.

(** The Gray code is one-to-one on pointers of [n] bits. *)
Lemma gray_inj (n a b : Z) :
  0 <= n -> 0 <= a < 2 ^ n -> 0 <= b < 2 ^ n ->
  GrayCounter.gray a = GrayCounter.gray b -> a = b.
Proof.
  intros Hn Ha Hb E.
  assert (Hhigh : forall j : nat, forall k,
            n - Z.of_nat j <= k -> Z.testbit a k = Z.testbit b k).
  { induction j as [|j IH]; intros k Hk.
    - rewrite (testbit_small n a k), (testbit_small n b k) by lia.
      reflexivity.
    - destruct (Z.ltb_spec k 0) as [Hneg|Hpos].
      + rewrite !Z.testbit_neg_r by lia. reflexivity.
      + pose proof (f_equal (fun x => Z.testbit x k) E) as Ek. simpl in Ek.
        rewrite !testbit_gray in Ek by lia.
        rewrite (IH (k + 1)) in Ek by lia.
        destruct (Z.testbit a k), (Z.testbit b k), (Z.testbit b (k + 1));
          simpl in Ek; congruence. }
  apply Z.bits_inj'. intros k Hk. apply (Hhigh (Z.to_nat n)). lia.
Qed.

Lemma gray_range (n b : Z) :
  0 <= n -> 0 <= b < 2 ^ n -> 0 <= GrayCounter.gray b < 2 ^ n.
Proof.
  intros Hn Hb. unfold GrayCounter.gray.
  assert (H0 : 0 <= Z.lxor b (Z.shiftr b 1)).
  { apply Z.lxor_nonneg. split; intros _; [|lia]. apply Z.shiftr_nonneg. lia. }
  split; [exact H0|].
  destruct (Z.eq_dec (Z.lxor b (Z.shiftr b 1)) 0) as [->|Hnz].
  - apply Z.pow_pos_nonneg; lia.
  - apply Z.log2_lt_pow2; [lia|].
    destruct (Z.ltb_spec (Z.log2 (Z.lxor b (Z.shiftr b 1))) n) as [|Hge];
      [assumption|exfalso].
    pose proof (Z.bit_log2 (Z.lxor b (Z.shiftr b 1)) ltac:(lia)) as Hbit.
    rewrite Z.lxor_spec, Z.shiftr_spec in Hbit by apply Z.log2_nonneg.
    rewrite !(testbit_small n b) in Hbit by lia. discriminate.
Qed.

(** ** The full test of [AsyncFIFO] *)

(** The pattern the code tests, spelt out: not writable exactly when the
    top bits differ, the second-top bits differ and the lower bits agree. *)
Lemma not_full_false_iff (depth_bits p c : Z) :
  AsyncFIFO.not_full depth_bits p c = false <->
  bit p (AsyncFIFO.width depth_bits - 1)
    <> bit c (AsyncFIFO.width depth_bits - 1)
  /\ bit p (AsyncFIFO.width depth_bits - 2)
    <> bit c (AsyncFIFO.width depth_bits - 2)
  /\ (depth_bits <> 1 ->
      low (AsyncFIFO.width depth_bits - 2) p
      = low (AsyncFIFO.width depth_bits - 2) c).
Proof.
  unfold AsyncFIFO.not_full.
  destruct (Z.eqb_spec depth_bits 1) as [E1|E1];
    destruct (bit p (AsyncFIFO.width depth_bits - 1)),
      (bit c (AsyncFIFO.width depth_bits - 1)),
      (bit p (AsyncFIFO.width depth_bits - 2)),
      (bit c (AsyncFIFO.width depth_bits - 2)); simpl;
    try (split; [discriminate|intros (H1 & H2 & _); congruence]);
    try (split; [intros _; repeat split; congruence|reflexivity]);
    rewrite negb_false_iff, Z.eqb_eq;
    (split; [intros H; repeat split; congruence|
             intros (_ & _ & H); apply H, E1]).
Qed.

Lemma not_full_false_bits (depth_bits p c : Z) :
  1 <= depth_bits ->
  0 <= p < 2 ^ AsyncFIFO.width depth_bits ->
  0 <= c < 2 ^ AsyncFIFO.width depth_bits ->
  AsyncFIFO.not_full depth_bits p c = false <->
  forall k, 0 <= k ->
    Z.testbit p k
    = xorb (Z.testbit c k)
        ((k =? AsyncFIFO.width depth_bits - 1)
         || (k =? AsyncFIFO.width depth_bits - 2)).
Proof.
  intros Hd Hp Hc. rewrite not_full_false_iff.
  unfold bit, low, AsyncFIFO.width in *.
  set (n := depth_bits + 1) in *. assert (Hn : 2 <= n) by lia.
  split.
  - intros (H1 & H2 & H3) k Hk.
    destruct (Z.eqb_spec k (n - 1)) as [->|N1]; simpl.
    { destruct (Z.testbit p (n - 1)), (Z.testbit c (n - 1));
        simpl; congruence. }
    destruct (Z.eqb_spec k (n - 2)) as [->|N2]; simpl.
    { destruct (Z.testbit p (n - 2)), (Z.testbit c (n - 2));
        simpl; congruence. }
    rewrite xorb_false_r.
    destruct (Z.ltb_spec k n) as [Hlt|Hge].
    + assert (Hne : depth_bits <> 1) by lia. specialize (H3 Hne).
      rewrite <- (Z.mod_pow2_bits_low p (n - 2) k) by lia.
      rewrite <- (Z.mod_pow2_bits_low c (n - 2) k) by lia.
      rewrite H3. reflexivity.
    + rewrite (testbit_small n p k), (testbit_small n c k) by lia.
      reflexivity.
  - intros H. repeat split.
    + rewrite (H (n - 1)) by lia. rewrite Z.eqb_refl. simpl.
      destruct (Z.testbit c (n - 1)); discriminate.
    + rewrite (H (n - 2)) by lia. rewrite Z.eqb_refl, orb_true_r.
      destruct (Z.testbit c (n - 2)); discriminate.
    + intros _. apply Z.bits_inj'. intros k Hk.
      rewrite !Z.testbit_mod_pow2 by lia.
      destruct (Z.ltb_spec k (n - 2)) as [Hlt|Hge]; [|reflexivity].
      simpl. rewrite (H k Hk).
      destruct (Z.eqb_spec k (n - 1)), (Z.eqb_spec k (n - 2)); try lia.
      apply xorb_false_r.
Qed.

(** In terms of the binary pointers: full exactly when the produce pointer
    is [depth] ahead of the consume pointer it is compared with. *)
Lemma not_full_gray (depth_bits a b : Z) :
  1 <= depth_bits ->
  0 <= a < 2 ^ AsyncFIFO.width depth_bits ->
  0 <= b < 2 ^ AsyncFIFO.width depth_bits ->
  AsyncFIFO.not_full depth_bits (GrayCounter.gray a) (GrayCounter.gray b)
    = false
  <-> a = (b + AsyncFIFO.depth depth_bits) mod 2 ^ AsyncFIFO.width depth_bits.
Proof.
  intros Hd Ha Hb.
  assert (Hw : 2 <= AsyncFIFO.width depth_bits)
    by (unfold AsyncFIFO.width; lia).
  rewrite not_full_false_bits;
    [|exact Hd|apply gray_range; lia|apply gray_range; lia].
  assert (E : AsyncFIFO.depth depth_bits
              = 2 ^ (AsyncFIFO.width depth_bits - 1)).
  { unfold AsyncFIFO.depth, AsyncFIFO.width. f_equal. lia. }
  rewrite E.
  set (n := AsyncFIFO.width depth_bits) in *.
  set (b' := (b + 2 ^ (n - 1)) mod 2 ^ n).
  assert (Hb' : 0 <= b' < 2 ^ n) by (apply Z.mod_pos_bound; lia).
  split.
  - intros H. apply (gray_inj n); [lia|exact Ha|exact Hb'|].
    apply Z.bits_inj'. intros k Hk.
    rewrite (H k Hk). symmetry. apply testbit_gray_half_turn; lia.
  - intros -> k Hk. apply testbit_gray_half_turn; lia.
Qed.

(** ** Resynchronised pointers lag behind *)

Lemma last_is_Some {A} (l : list A) : l <> [] -> exists x, last l = Some x.
Proof.
  intros H. destruct (last l) as [x|] eqn:E; [eauto|].
  apply last_None in E. congruence.
Qed.

Lemma chain_ok_bounds hi lo ws : chain_ok hi lo ws -> lo <= hi.
Proof.
  revert hi. induction ws as [|w rest IH]; simpl; intros hi H; [exact H|].
  destruct H as [Hw Hrest]. specialize (IH _ Hrest). lia.
Qed.

Lemma chain_ok_raise hi hi' lo ws :
  chain_ok hi lo ws -> hi <= hi' -> chain_ok hi' lo ws.
Proof. destruct ws; simpl; intros H Hle; [lia|split; [lia|apply H]]. Qed.

Lemma chain_ok_last hi lo ws w :
  chain_ok hi lo ws -> last ws = Some w -> lo <= w <= hi.
Proof.
  revert hi. induction ws as [|w1 rest IH]; simpl; intros hi H Hl.
  - discriminate.
  - destruct H as [Hw Hrest]. destruct rest as [|w2 rest'].
    + simpl in *. injection Hl as <-. lia.
    + specialize (IH _ Hrest Hl). lia.
Qed.

(** Dropping the oldest sample allows a floor up to that sample. *)
Lemma chain_ok_removelast hi lo lo' ws :
  chain_ok hi lo ws -> lo' <= hi ->
  (forall w, last ws = Some w -> lo' <= w) ->
  chain_ok hi lo' (removelast ws).
Proof.
  revert hi. induction ws as [|w1 rest IH]; intros hi H Hhi Hl.
  - exact Hhi.
  - destruct H as [Hw Hrest]. destruct rest as [|w2 rest'].
    + simpl. exact Hhi.
    + change (removelast (w1 :: w2 :: rest'))
        with (w1 :: removelast (w2 :: rest')).
      split; [exact Hw|]. apply IH; [exact Hrest| |exact Hl].
      destruct (last_is_Some (w2 :: rest') ltac:(discriminate)) as [w E].
      pose proof (chain_ok_last _ _ _ _ Hrest E). specialize (Hl w E). lia.
Qed.

(** Shifting the current count in, with a floor no higher than the sample
    that drops out or, for a chain of one, than the count itself. *)
Lemma chain_ok_shift hi hi' lo lo' ws :
  chain_ok hi lo ws -> hi <= hi' -> lo' <= hi ->
  (forall w, last ws = Some w -> lo' <= w) ->
  chain_ok hi' lo' (hi :: removelast ws).
Proof.
  intros H Hhi Hlo Hl. split; [exact Hhi|].
  apply (chain_ok_removelast hi lo); assumption.
Qed.

Lemma removelast_map {A B} (f : A -> B) (l : list A) :
  removelast (map f l) = map f (removelast l).
Proof.
  induction l as [|a [|b l'] IH]; [reflexivity|reflexivity|].
  change (f a :: removelast (map f (b :: l'))
          = f a :: map f (removelast (b :: l'))).
  f_equal. exact IH.
Qed.

Lemma MultiReg_tick_map (f : Z -> Z) (x : Z) (ws : list Z) :
  ws <> [] ->
  MultiReg.tick (f x) (map f ws) = map f (x :: removelast ws).
Proof.
  intros Hne. destruct ws as [|w rest]; [congruence|].
  change (map f (x :: removelast (w :: rest)))
    with (f x :: map f (removelast (w :: rest))).
  rewrite <- removelast_map. reflexivity.
Qed.

Lemma MultiReg_o_map (f : Z -> Z) (ws : list Z) (w : Z) :
  last ws = Some w -> MultiReg.o (map f ws) = f w.
Proof.
  intros H. unfold MultiReg.o.
  change (map f ws) with (f <$> ws). rewrite fmap_last, H. reflexivity.
Qed.

(** ** [AsyncFIFO]: the pointers as counts of committed writes and reads *)

Section AsyncFIFO_runs.

Variables (depth_bits : Z) (stages : nat) (mode : port_mode).
Hypothesis depth_bits_pos : 1 <= depth_bits.
Hypothesis stages_pos : (0 < stages)%nat.

Lemma async_depth_pos : 0 < AsyncFIFO.depth depth_bits.
Proof. unfold AsyncFIFO.depth. apply Z.pow_pos_nonneg; lia. Qed.

Lemma async_range :
  2 ^ AsyncFIFO.width depth_bits = AsyncFIFO.depth depth_bits * 2.
Proof.
  unfold AsyncFIFO.width, AsyncFIFO.depth.
  rewrite Z.pow_add_r by lia. reflexivity.
Qed.

Lemma pointer_range x : 0 <= pointer depth_bits x < 2 ^ AsyncFIFO.width depth_bits.
Proof.
  apply Z.mod_pos_bound. rewrite async_range.
  pose proof async_depth_pos. lia.
Qed.

Lemma pointer_advance x (ce : bool) :
  (if ce then wrap (AsyncFIFO.width depth_bits) (pointer depth_bits x + 1)
   else pointer depth_bits x)
  = pointer depth_bits (x + Z.b2z ce).
Proof.
  destruct ce; simpl.
  - unfold wrap, pointer. apply Zplus_mod_idemp_l.
  - rewrite Z.add_0_r. reflexivity.
Qed.

Lemma pointer_low x :
  low (AsyncFIFO.width depth_bits - 1) (pointer depth_bits x)
  = x mod AsyncFIFO.depth depth_bits.
Proof.
  unfold low, pointer. rewrite async_range.
  replace (AsyncFIFO.width depth_bits - 1) with depth_bits
    by (unfold AsyncFIFO.width; lia).
  fold (AsyncFIFO.depth depth_bits).
  pose proof async_depth_pos as Hd.
  rewrite Z.rem_mul_r by lia.
  rewrite Z.mul_comm, Z_mod_plus_full. apply Z.mod_mod. lia.
Qed.

Lemma pointer_half_turn x :
  pointer depth_bits (x + AsyncFIFO.depth depth_bits)
  = (pointer depth_bits x + AsyncFIFO.depth depth_bits)
      mod 2 ^ AsyncFIFO.width depth_bits.
Proof. unfold pointer. symmetry. apply Zplus_mod_idemp_l. Qed.

Lemma async_inv_length s q reads ws rs :
  async_inv depth_bits s q reads ws rs ->
  Z.of_nat (length q) <= AsyncFIFO.depth depth_bits.
Proof.
  intros H. pose proof (chain_ok_bounds _ _ _ (ai_wdomain_ok _ _ _ _ _ _ H)).
  lia.
Qed.

(** [readable] is only asserted once a write has become visible. *)
Lemma async_readable s q reads ws rs :
  async_inv depth_bits s q reads ws rs -> AsyncFIFO.readable s = true ->
  exists w, last ws = Some w /\ reads < w.
Proof.
  intros H Hr.
  destruct (last_is_Some ws (ai_rdomain_ne _ _ _ _ _ _ H)) as [w Hw].
  exists w. split; [exact Hw|].
  pose proof (chain_ok_last _ _ _ _ (ai_rdomain_ok _ _ _ _ _ _ H) Hw) as Hb.
  destruct (Z.eq_dec reads w) as [->|Hne]; [exfalso|lia].
  unfold AsyncFIFO.readable in Hr.
  rewrite (ai_consume_q _ _ _ _ _ _ H), (ai_rdomain _ _ _ _ _ _ H) in Hr.
  rewrite (MultiReg_o_map _ _ _ Hw), Z.eqb_refl in Hr. discriminate.
Qed.

(** [writable] is only asserted while a slot is known to be free. *)
Lemma async_writable s q reads ws rs :
  async_inv depth_bits s q reads ws rs -> AsyncFIFO.writable depth_bits s = true ->
  exists r, last rs = Some r
    /\ reads + Z.of_nat (length q) < r + AsyncFIFO.depth depth_bits.
Proof.
  intros H Hw.
  destruct (last_is_Some rs (ai_wdomain_ne _ _ _ _ _ _ H)) as [r Hr].
  exists r. split; [exact Hr|].
  pose proof (chain_ok_last _ _ _ _ (ai_wdomain_ok _ _ _ _ _ _ H) Hr) as Hb.
  destruct (Z.eq_dec (reads + Z.of_nat (length q))
              (r + AsyncFIFO.depth depth_bits)) as [E|Hne]; [exfalso|lia].
  unfold AsyncFIFO.writable in Hw.
  rewrite (ai_produce_q _ _ _ _ _ _ H), (ai_wdomain _ _ _ _ _ _ H) in Hw.
  rewrite (MultiReg_o_map _ _ _ Hr), E in Hw.
  unfold gray_pointer in Hw.
  assert (Hfull : AsyncFIFO.not_full depth_bits
            (GrayCounter.gray (pointer depth_bits (r + AsyncFIFO.depth depth_bits)))
            (GrayCounter.gray (pointer depth_bits r)) = false).
  { apply not_full_gray; [exact depth_bits_pos|apply pointer_range..|].
    apply pointer_half_turn. }
  rewrite Hfull in Hw. discriminate.
Qed.

Lemma async_inv_init :
  async_inv depth_bits (AsyncFIFO.init depth_bits stages) [] 0
    (replicate stages 0) (replicate stages 0).
Proof.
  assert (Hg : gray_pointer depth_bits 0 = 0) by reflexivity.
  assert (Hmap : map (gray_pointer depth_bits) (replicate stages 0)
                 = replicate stages 0).
  { clear stages_pos. induction stages as [|k IH]; [reflexivity|].
    simpl. rewrite IH. reflexivity. }
  assert (Hne : replicate stages 0 <> []).
  { destruct stages; [lia|discriminate]. }
  assert (Hok : forall lo, lo <= 0 -> chain_ok 0 lo (replicate stages 0)).
  { intros lo Hlo. clear stages_pos Hmap Hne.
    induction stages as [|k IH]; simpl; [exact Hlo|split; [lia|exact IH]]. }
  pose proof async_depth_pos as Hd.
  split; simpl; try reflexivity; try assumption; try lia;
    try (symmetry; exact Hmap); try (apply Hok; lia).
  - apply ring_holds_nil. unfold Memory. apply length_replicate.
  - intros w Hw Hlt. exfalso.
    pose proof (chain_ok_last _ _ _ _ (Hok 0 ltac:(lia)) Hw). lia.
Qed.

Lemma counter_next_binary c x (ce : bool) :
  GrayCounter.q_binary c = pointer depth_bits x ->
  GrayCounter.q_next_binary (AsyncFIFO.width depth_bits) c ce
  = pointer depth_bits (x + Z.b2z ce).
Proof.
  intros H. unfold GrayCounter.q_next_binary.
  rewrite H. apply pointer_advance.
Qed.

Lemma counter_next c x (ce : bool) :
  GrayCounter.q_binary c = pointer depth_bits x ->
  GrayCounter.q_next (AsyncFIFO.width depth_bits) c ce
  = gray_pointer depth_bits (x + Z.b2z ce).
Proof.
  intros H. unfold GrayCounter.q_next, gray_pointer.
  rewrite (counter_next_binary c x ce H). reflexivity.
Qed.

Lemma async_inv_tick_domains tw tr s q reads ws rs d we re :
  async_inv depth_bits s q reads ws rs ->
  let ce_w := tw && AsyncFIFO.produce_ce depth_bits s we in
  let ce_r := tr && AsyncFIFO.consume_ce s re in
  async_inv depth_bits (tick_domains depth_bits tw tr s d we re)
    ((if ce_r then tail q else q) ++ (if ce_w then [d] else []))
    (reads + Z.b2z ce_r)
    (if tr then (reads + Z.of_nat (length q)) :: removelast ws else ws)
    (if tw then reads :: removelast rs else rs).
Proof.
  intros H ce_w ce_r.
  pose proof async_depth_pos as Hd.
  pose proof (async_inv_length _ _ _ _ _ H) as Hlen.
  destruct H as [HR Hcb Hcq Hpb Hpq Hpr Hprne Hprok Hcw Hcwne Hcwok
                   Hst Hadr Hdat].
  set (W := reads + Z.of_nat (length q)) in *.
  (* what a committed read and a committed write tell *)
  assert (Hread : ce_r = true ->
            exists w, last ws = Some w /\ reads < w <= W).
  { intros E. apply andb_true_iff in E as [_ E].
    apply andb_true_iff in E as [E _].
    destruct (last_is_Some ws Hprne) as [w Hw]. exists w.
    pose proof (chain_ok_last _ _ _ _ Hprok Hw) as Hb.
    split; [exact Hw|].
    destruct (Z.eq_dec reads w) as [->|Hne]; [exfalso|lia].
    unfold AsyncFIFO.readable in E.
    rewrite Hcq, Hpr, (MultiReg_o_map _ _ _ Hw), Z.eqb_refl in E.
    discriminate. }
  assert (Hwrite : ce_w = true ->
            exists r, last rs = Some r
              /\ W < r + AsyncFIFO.depth depth_bits).
  { intros E. apply andb_true_iff in E as [_ E].
    apply andb_true_iff in E as [E _].
    destruct (last_is_Some rs Hcwne) as [r Hr]. exists r.
    pose proof (chain_ok_last _ _ _ _ Hcwok Hr) as Hb.
    split; [exact Hr|].
    destruct (Z.eq_dec W (r + AsyncFIFO.depth depth_bits)) as [E'|Hne];
      [exfalso|lia].
    unfold AsyncFIFO.writable in E.
    rewrite Hpq, Hcw, (MultiReg_o_map _ _ _ Hr), E' in E.
    unfold gray_pointer in E.
    rewrite (proj2 (not_full_gray depth_bits
               (pointer depth_bits (r + AsyncFIFO.depth depth_bits)) (pointer depth_bits r)
               depth_bits_pos (pointer_range _) (pointer_range _)))
      in E by apply pointer_half_turn.
    discriminate. }
  set (q1 := if ce_r then tail q else q).
  set (wr := if ce_w then [d] else []).
  assert (Hlen1 : Z.of_nat (length q1) = Z.of_nat (length q) - Z.b2z ce_r).
  { subst q1. destruct ce_r eqn:E; simpl; [|lia].
    destruct (Hread eq_refl) as (w & _ & Hw). subst W.
    destruct q; simpl in *; lia. }
  assert (Hlen' : reads + Z.b2z ce_r + Z.of_nat (length (q1 ++ wr))
                  = W + Z.b2z ce_w).
  { rewrite length_app, Nat2Z.inj_add, Hlen1. subst wr W.
    destruct ce_w; simpl; lia. }
  assert (Hfree : ce_w = true ->
            Z.of_nat (length q) < AsyncFIFO.depth depth_bits).
  { intros E. destruct (Hwrite E) as (r & Hr & Hlt).
    pose proof (chain_ok_last _ _ _ _ Hcwok Hr). subst W. lia. }
  (* the memory after the write edge, and the pending writes in it *)
  set (m' := if ce_w
             then mem_write (AsyncFIFO.storage s)
                    (W mod AsyncFIFO.depth depth_bits) d
             else AsyncFIFO.storage s).
  assert (Hm' : AsyncFIFO.storage (tick_domains depth_bits tw tr s d we re) = m').
  { subst m' ce_w. unfold tick_domains. simpl.
    destruct tw; simpl; [|reflexivity].
    rewrite Hpb, pointer_low. reflexivity. }
  assert (Hring1 : ring_holds (AsyncFIFO.depth depth_bits)
                     (AsyncFIFO.storage s) (reads + Z.b2z ce_r) q1).
  { subst q1. destruct ce_r eqn:E; simpl.
    - destruct q as [|v q0]; [|eapply ring_holds_pop, Hst].
      destruct (Hread eq_refl) as (w & _ & Hw). subst W. simpl in Hw. lia.
    - rewrite Z.add_0_r. exact Hst. }
  assert (Hring' : ring_holds (AsyncFIFO.depth depth_bits) m'
                     (reads + Z.b2z ce_r) (q1 ++ wr)).
  { assert (Hpush : ring_holds (AsyncFIFO.depth depth_bits) m' reads
                      (q ++ wr)).
    { subst m' wr. destruct ce_w eqn:E.
      - apply ring_holds_push; [exact Hd|exact Hst|apply Hfree; reflexivity].
      - rewrite app_nil_r. exact Hst. }
    subst q1. destruct ce_r eqn:E; simpl.
    - destruct q as [|v q0]; [|eapply ring_holds_pop, Hpush].
      destruct (Hread eq_refl) as (w & _ & Hw). subst W. simpl in Hw. lia.
    - rewrite Z.add_0_r. exact Hpush. }
  (* the chain into the read domain, before the count of writes moves *)
  assert (Hprok1 : chain_ok W (reads + Z.b2z ce_r)
            (if tr then W :: removelast ws else ws)).
  { destruct tr.
    - apply (chain_ok_shift W W reads); [exact Hprok|lia| |].
      + destruct ce_r eqn:E; simpl.
        * destruct (Hread eq_refl) as (w & _ & Hw). lia.
        * pose proof (chain_ok_bounds _ _ _ Hprok). lia.
      + intros w Hw. pose proof (chain_ok_last _ _ _ _ Hprok Hw).
        destruct ce_r eqn:E; simpl; [|lia].
        destruct (Hread eq_refl) as (w' & Hw' & Hlt).
        rewrite Hw in Hw'. injection Hw' as <-. lia.
    - subst ce_r. simpl. rewrite Z.add_0_r. exact Hprok. }
  split.
  - destruct ce_r; simpl; lia.
  - unfold tick_domains. simpl. destruct tr; simpl.
    + apply counter_next_binary, Hcb.
    + subst ce_r. simpl. rewrite Z.add_0_r. exact Hcb.
  - unfold tick_domains. simpl. destruct tr; simpl.
    + apply counter_next, Hcb.
    + subst ce_r. simpl. rewrite Z.add_0_r. exact Hcq.
  - rewrite Hlen'. unfold tick_domains. simpl. destruct tw; simpl.
    + apply counter_next_binary, Hpb.
    + subst ce_w. simpl. rewrite Z.add_0_r. exact Hpb.
  - rewrite Hlen'. unfold tick_domains. simpl. destruct tw; simpl.
    + apply counter_next, Hpb.
    + subst ce_w. simpl. rewrite Z.add_0_r. exact Hpq.
  - unfold tick_domains. simpl. destruct tr; simpl; [|exact Hpr].
    rewrite Hpq, Hpr. apply MultiReg_tick_map, Hprne.
  - destruct tr; [discriminate|exact Hprne].
  - rewrite Hlen'. eapply chain_ok_raise; [exact Hprok1|].
    destruct ce_w; simpl; lia.
  - unfold tick_domains. simpl. destruct tw; simpl; [|exact Hcw].
    rewrite Hcq, Hcw. apply MultiReg_tick_map, Hcwne.
  - destruct tw; [discriminate|exact Hcwne].
  - rewrite Hlen'. destruct tw.
    + apply (chain_ok_shift reads _
               (W - AsyncFIFO.depth depth_bits)); [exact Hcwok| | |].
      * destruct ce_r; simpl; lia.
      * destruct ce_w eqn:E; simpl; [|lia].
        pose proof (Hfree eq_refl). subst W. lia.
      * intros r Hr. pose proof (chain_ok_last _ _ _ _ Hcwok Hr).
        destruct ce_w eqn:E; simpl; [|lia].
        destruct (Hwrite eq_refl) as (r' & Hr' & Hlt).
        rewrite Hr in Hr'. injection Hr' as <-. lia.
    + subst ce_w. simpl. rewrite Z.add_0_r.
      eapply chain_ok_raise; [exact Hcwok|]. destruct ce_r; simpl; lia.
  - rewrite Hm'. exact Hring'.
  - unfold tick_domains. simpl. destruct tr; simpl.
    + rewrite (counter_next_binary _ reads _ Hcb). apply pointer_low.
    + subst ce_r. simpl. rewrite Z.add_0_r. exact Hadr.
  - intros w Hw Hlt.
    pose proof (chain_ok_last _ _ _ _ Hprok1 Hw) as Hb.
    assert (Hq1 : exists v q2, q1 = v :: q2).
    { destruct q1 as [|v q2]; [simpl in Hlen1; lia|eauto]. }
    destruct Hq1 as (v & q2 & Eq1). rewrite Eq1 in *. simpl.
    unfold tick_domains. simpl. destruct tr; simpl.
    + rewrite (counter_next_binary _ reads _ Hcb), pointer_low.
      f_equal. symmetry. eapply ring_holds_head, Hring1.
    + subst ce_r q1. simpl in *. rewrite Z.add_0_r in Hlt.
      rewrite <- (Hdat w Hw Hlt), Eq1. reflexivity.
Qed.

Lemma async_holds_init :
  async_holds depth_bits (AsyncFIFO.init depth_bits stages) [].
Proof. eexists _, _, _. apply async_inv_init. Qed.

Lemma async_holds_tick s q e :
  async_holds depth_bits s q ->
  async_holds depth_bits (AsyncFIFO.tick depth_bits s e)
    (pending_step q
       (observe (AsyncFIFO.machine depth_bits stages mode) s e)).
Proof.
  intros (reads & ws & rs & H).
  destruct e as [d w|r|d w r].
  - pose proof (async_inv_tick_domains true false s q reads ws rs d w false H)
      as H'.
    eexists _, _, _.
    replace (pending_step q
               (observe (AsyncFIFO.machine depth_bits stages mode) s
                  (AsyncFIFO.write_edge d w)))
      with ((if false && AsyncFIFO.consume_ce s false then tail q else q)
            ++ (if true && AsyncFIFO.produce_ce depth_bits s w
                then [d] else [])).
    + exact H'.
    + unfold pending_step, committed_read, committed_write, observe,
        AsyncFIFO.produce_ce. simpl.
      destruct (AsyncFIFO.writable depth_bits s && w); reflexivity.
  - pose proof (async_inv_tick_domains false true s q reads ws rs 0 false r H)
      as H'.
    eexists _, _, _.
    replace (pending_step q
               (observe (AsyncFIFO.machine depth_bits stages mode) s
                  (AsyncFIFO.read_edge r)))
      with ((if true && AsyncFIFO.consume_ce s r then tail q else q)
            ++ (if false && AsyncFIFO.produce_ce depth_bits s false
                then [0] else [])).
    + exact H'.
    + unfold pending_step, committed_read, committed_write, observe,
        AsyncFIFO.consume_ce. simpl.
      rewrite andb_false_r.
      destruct (AsyncFIFO.readable s), r; reflexivity.
  - pose proof (async_inv_tick_domains true true s q reads ws rs d w r H)
      as H'.
    eexists _, _, _.
    replace (pending_step q
               (observe (AsyncFIFO.machine depth_bits stages mode) s
                  (AsyncFIFO.both_edges d w r)))
      with ((if true && AsyncFIFO.consume_ce s r then tail q else q)
            ++ (if true && AsyncFIFO.produce_ce depth_bits s w
                then [d] else [])).
    + exact H'.
    + unfold pending_step, committed_read, committed_write, observe,
        AsyncFIFO.consume_ce, AsyncFIFO.produce_ce. simpl.
      destruct (AsyncFIFO.readable s), r,
        (AsyncFIFO.writable depth_bits s && w); reflexivity.
Qed.

Lemma async_holds_dout s q :
  async_holds depth_bits s q -> AsyncFIFO.readable s = true ->
  head q = Some (AsyncFIFO.dout_bits mode s).
Proof.
  intros (reads & ws & rs & H) Hr.
  destruct (async_readable _ _ _ _ _ H Hr) as (w & Hw & Hlt).
  unfold AsyncFIFO.dout_bits, port_dat_r. destruct mode.
  - pose proof (chain_ok_last _ _ _ _ (ai_rdomain_ok _ _ _ _ _ _ H) Hw) as Hb.
    destruct q as [|v q0]; [simpl in Hb; lia|].
    rewrite (ai_adr _ _ _ _ _ _ H).
    rewrite (ring_holds_head _ _ _ _ _ (ai_storage _ _ _ _ _ _ H)).
    reflexivity.
  - apply (ai_dat _ _ _ _ _ _ H w Hw Hlt).
Qed.

Lemma AsyncFIFO_holds_pending inputs :
  async_holds depth_bits
    (run (AsyncFIFO.machine depth_bits stages mode) inputs)
    (pending (trace (AsyncFIFO.machine depth_bits stages mode) inputs)).
Proof.
  apply (R_run_from (AsyncFIFO.machine depth_bits stages mode)
           (async_holds depth_bits) async_holds_tick inputs).
  apply async_holds_init.
Qed.

End AsyncFIFO_runs.

(** ** States of [SyncFIFORelaxed] that no caller can tell apart *)

(** Such states stay so, and no caller can tell them apart. *)
Lemma relaxed_same_tick depth flen_ptr flen_level s1 s2 i :
  relaxed_same s1 s2 ->
  relaxed_same (SyncFIFORelaxed.tick depth flen_ptr flen_level s1 i)
    (SyncFIFORelaxed.tick depth flen_ptr flen_level s2 i).
Proof.
  destruct s1 as [f1 d1 dr1 b1 br1], s2 as [f2 d2 dr2 b2 br2].
  unfold relaxed_same. simpl. intros (-> & -> & -> & -> & Hb).
  unfold SyncFIFORelaxed.tick, SyncFIFORelaxed.fifo_inputs,
    SyncFIFORelaxed.fifo_we, SyncFIFORelaxed.fifo_re,
    SyncFIFORelaxed.do_shunt, SyncFIFORelaxed.readable.
  simpl.
  split; [reflexivity|]. split; [reflexivity|].
  split; [reflexivity|]. split; [reflexivity|].
  destruct (flush i), (we i), (SyncFIFO.readable f2), br2, dr2, (re i);
    simpl; intros E; try discriminate; try reflexivity; apply Hb, eq_refl.
Qed.

Lemma relaxed_same_observe depth flen_ptr flen_level s1 s2 i :
  relaxed_same s1 s2 ->
  observe (SyncFIFORelaxed.machine depth flen_ptr flen_level) s1 i
  = observe (SyncFIFORelaxed.machine depth flen_ptr flen_level) s2 i.
Proof.
  destruct s1 as [f1 d1 dr1 b1 br1], s2 as [f2 d2 dr2 b2 br2].
  unfold relaxed_same. simpl. intros (-> & -> & -> & -> & Hb).
  unfold observe. simpl.
  unfold SyncFIFORelaxed.readable, SyncFIFORelaxed.dout_bits,
    SyncFIFORelaxed.writable. simpl.
  destruct br2; [rewrite (Hb eq_refl)|]; reflexivity.
Qed.

Lemma relaxed_same_trace depth flen_ptr flen_level inputs : forall s1 s2,
  relaxed_same s1 s2 ->
  trace_from (SyncFIFORelaxed.machine depth flen_ptr flen_level) s1 inputs
  = trace_from (SyncFIFORelaxed.machine depth flen_ptr flen_level) s2 inputs.
Proof.
  induction inputs as [|i rest IH]; intros s1 s2 H; simpl; [reflexivity|].
  f_equal.
  - apply relaxed_same_observe, H.
  - apply IH, relaxed_same_tick, H.
Qed.

(** ** Runs in two parts *)

Lemma run_from_app M (a b : list (edge M)) : forall s,
  run_from M s (a ++ b) = run_from M (run_from M s a) b.
Proof. induction a as [|i a IH]; intros s; simpl; [reflexivity|apply IH]. Qed.

Lemma trace_from_app M (a b : list (edge M)) : forall s,
  trace_from M s (a ++ b)
  = trace_from M s a ++ trace_from M (run_from M s a) b.
Proof.
  induction a as [|i a IH]; intros s; simpl; [reflexivity|].
  rewrite IH. reflexivity.
Qed.

Lemma pending_app (tr1 tr2 : list Event) :
  pending (tr1 ++ tr2) = pending_from (pending tr1) tr2.
Proof. unfold pending, pending_from. apply fold_left_app. Qed.

(** ** [SyncFIFORelaxed] is a queue of one more word *)

(** The two registers of the wrapper hold at most one pending word, and
    [readable] tells whether they hold one. *)
Lemma relaxed_front_readable s :
  SyncFIFORelaxed.readable s = negb (Z.of_nat (length (relaxed_front s)) =? 0)
  /\ (length (relaxed_front s) <= 1)%nat
  /\ (SyncFIFORelaxed.readable s = true ->
      relaxed_front s = [SyncFIFORelaxed.dout_bits s]).
Proof.
  unfold SyncFIFORelaxed.readable, SyncFIFORelaxed.dout_bits, relaxed_front.
  destruct (SyncFIFORelaxed.buff_readable s),
    (SyncFIFORelaxed.dout_readable s); simpl;
    repeat split; try lia; try reflexivity; discriminate.
Qed.

Section SyncFIFORelaxed_queue.

Variables (depth flen_ptr flen_level : Z).
Hypothesis depth_pos : 0 < depth.
Hypothesis ptr_fits : holds_max flen_ptr depth.
Hypothesis level_fits : holds_max flen_level (depth + 1).

Lemma relaxed_tight_init : relaxed_tight depth (SyncFIFORelaxed.init depth) [].
Proof.
  exists []. split; [apply holds_queue_init; exact depth_pos|].
  split; reflexivity.
Qed.

Lemma relaxed_tight_writable s q :
  relaxed_tight depth s q ->
  SyncFIFORelaxed.writable depth s = BoundedQueue.writable (depth + 1) q.
Proof.
  intros (q_in & Hq & -> & Ht).
  pose proof (hq_level _ _ _ Hq) as Hl.
  destruct (relaxed_front_readable s) as (_ & Hf & _).
  unfold SyncFIFORelaxed.writable, SyncFIFO.writable, BoundedQueue.writable.
  rewrite Hl, length_app. f_equal.
  destruct (relaxed_front s) as [|x [|y f]] eqn:E.
  - rewrite (Ht eq_refl). simpl length.
    destruct (Z.eqb_spec (Z.of_nat 0) depth), (Z.eqb_spec (Z.of_nat (0 + 0)) (depth + 1));
      try reflexivity; lia.
  - simpl length.
    destruct (Z.eqb_spec (Z.of_nat (length q_in)) depth),
      (Z.eqb_spec (Z.of_nat (1 + length q_in)) (depth + 1));
      try reflexivity; lia.
  - simpl in Hf. lia.
Qed.

Lemma relaxed_tight_readable s q :
  relaxed_tight depth s q ->
  SyncFIFORelaxed.readable s = BoundedQueue.readable q.
Proof.
  intros (q_in & Hq & -> & Ht).
  destruct (relaxed_front_readable s) as (Hr & _ & _).
  rewrite Hr. unfold BoundedQueue.readable. f_equal.
  destruct (relaxed_front s) as [|x f] eqn:E.
  - rewrite (Ht eq_refl). reflexivity.
  - simpl length.
    destruct (Z.eqb_spec (Z.of_nat (S (length f))) 0),
      (Z.eqb_spec (Z.of_nat (S (length (f ++ q_in)))) 0); try reflexivity; lia.
Qed.

Lemma relaxed_tight_observe s q i :
  relaxed_tight depth s q ->
  observe (SyncFIFORelaxed.machine depth flen_ptr flen_level) s i
  = observe (BoundedQueue.machine (depth + 1)) q i.
Proof.
  intros H. unfold observe.
  change (writable (SyncFIFORelaxed.machine depth flen_ptr flen_level) s)
    with (SyncFIFORelaxed.writable depth s).
  change (readable (SyncFIFORelaxed.machine depth flen_ptr flen_level) s)
    with (SyncFIFORelaxed.readable s).
  change (writable (BoundedQueue.machine (depth + 1)) q)
    with (BoundedQueue.writable (depth + 1) q).
  change (readable (BoundedQueue.machine (depth + 1)) q)
    with (BoundedQueue.readable q).
  rewrite <- (relaxed_tight_writable s q H), <- (relaxed_tight_readable s q H).
  f_equal.
  destruct (SyncFIFORelaxed.readable s) eqn:Hr; [|reflexivity].
  destruct H as (q_in & _ & -> & _).
  destruct (relaxed_front_readable s) as (_ & _ & Hf).
  rewrite (Hf Hr). reflexivity.
Qed.

Lemma relaxed_tight_pending_tick s q i :
  relaxed_tight depth s q ->
  relaxed_tight depth (SyncFIFORelaxed.tick depth flen_ptr flen_level s i)
    (pending_step q
       (observe (SyncFIFORelaxed.machine depth flen_ptr flen_level) s i)).
Proof.
  intros (q_in & Hq & -> & Ht).
  exists (BoundedQueue.tick depth q_in (SyncFIFORelaxed.fifo_inputs s i)).
  split.
  - simpl. apply holds_queue_tick; assumption.
  - destruct s as [inner d dr b br].
    unfold pending_step, committed_read, committed_write, observe,
      relaxed_front, BoundedQueue.tick in *.
    simpl in *.
    unfold SyncFIFORelaxed.tick, SyncFIFORelaxed.fifo_inputs,
      SyncFIFORelaxed.fifo_we, SyncFIFORelaxed.fifo_re,
      SyncFIFORelaxed.do_shunt, SyncFIFORelaxed.writable,
      SyncFIFORelaxed.readable, SyncFIFORelaxed.dout_bits.
    simpl in *.
    rewrite !(holds_queue_writable depth _ q_in Hq),
      !(holds_queue_readable depth _ q_in Hq).
    destruct (flush i); [destruct br, dr; split; reflexivity|].
    destruct q_in as [|v q_in'].
    + rewrite !queue_readable_nil, !(queue_writable_nil depth depth_pos).
      simpl.
      destruct br, dr, (re i), (we i); split; try reflexivity;
        try discriminate.
    + rewrite !queue_readable_cons, !(holds_queue_dout depth _ v q_in' Hq).
      simpl.
      destruct br, dr; try (specialize (Ht eq_refl); discriminate);
      destruct (re i), (we i),
        (BoundedQueue.writable depth (v :: q_in')); split;
        try reflexivity; try discriminate.
Qed.

Lemma relaxed_tight_tick s q i :
  relaxed_tight depth s q ->
  relaxed_tight depth (SyncFIFORelaxed.tick depth flen_ptr flen_level s i)
    (BoundedQueue.tick (depth + 1) q i).
Proof.
  intros H.
  rewrite <- queue_pending_step, <- (relaxed_tight_observe s q i H).
  apply relaxed_tight_pending_tick, H.
Qed.

Lemma SyncFIFORelaxed_tight_pending inputs :
  relaxed_tight depth
    (run (SyncFIFORelaxed.machine depth flen_ptr flen_level) inputs)
    (pending (trace (SyncFIFORelaxed.machine depth flen_ptr flen_level) inputs)).
Proof.
  apply (R_run_from (SyncFIFORelaxed.machine depth flen_ptr flen_level)
           (relaxed_tight depth) relaxed_tight_pending_tick inputs).
  apply relaxed_tight_init.
Qed.

Lemma SyncFIFORelaxed_trace_from_queue inputs : forall s q,
  relaxed_tight depth s q ->
  trace_from (SyncFIFORelaxed.machine depth flen_ptr flen_level) s inputs
  = trace_from (BoundedQueue.machine (depth + 1)) q inputs
  /\ relaxed_tight depth
       (run_from (SyncFIFORelaxed.machine depth flen_ptr flen_level) s inputs)
       (run_from (BoundedQueue.machine (depth + 1)) q inputs).
Proof.
  induction inputs as [|i rest IH]; intros s q H; simpl.
  - split; [reflexivity|exact H].
  - destruct (IH _ _ (relaxed_tight_tick s q i H)) as [E HR].
    split; [|exact HR].
    f_equal; [apply relaxed_tight_observe, H|exact E].
Qed.

End SyncFIFORelaxed_queue.

(** ** [SyncFIFOClassic]: the inner queue behind an output register *)

Section SyncFIFOClassic_runs.

Variables (depth flen_ptr flen_level : Z).
Hypothesis depth_pos : 0 < depth.
Hypothesis ptr_fits : holds_max flen_ptr depth.
Hypothesis level_fits : holds_max flen_level (depth + 1).

Lemma classic_holds_tick s q i :
  classic_holds depth s q ->
  classic_holds depth (SyncFIFOClassic.tick depth flen_ptr flen_level s i)
    (pending_step q
       (observe (SyncFIFOClassic.machine depth flen_ptr flen_level) s i)).
Proof.
  unfold classic_holds. intros H.
  replace (pending_step q
             (observe (SyncFIFOClassic.machine depth flen_ptr flen_level) s i))
    with (BoundedQueue.tick depth q i).
  - simpl. apply holds_queue_tick; assumption.
  - unfold pending_step, committed_read, committed_write, observe,
      BoundedQueue.tick. simpl.
    unfold SyncFIFOClassic.writable, SyncFIFOClassic.readable.
    rewrite (holds_queue_writable depth _ q H),
      (holds_queue_readable depth _ q H).
    destruct (flush i); [reflexivity|].
    destruct (re i), (BoundedQueue.readable q),
      (BoundedQueue.writable depth q && we i); reflexivity.
Qed.

Lemma SyncFIFOClassic_holds_pending inputs :
  classic_holds depth
    (run (SyncFIFOClassic.machine depth flen_ptr flen_level) inputs)
    (pending (trace (SyncFIFOClassic.machine depth flen_ptr flen_level) inputs)).
Proof.
  apply (R_run_from (SyncFIFOClassic.machine depth flen_ptr flen_level)
           (classic_holds depth) classic_holds_tick inputs).
  apply holds_queue_init. exact depth_pos.
Qed.

End SyncFIFOClassic_runs.

(** ** States of [SyncFIFOBuffered] that no caller can tell apart *)

Section SyncFIFOBuffered_same.

Variables (depth flen_ptr flen_level : Z).
Hypothesis depth_pos : 0 < depth.
Hypothesis ptr_fits : holds_max flen_ptr depth.
Hypothesis level_fits : holds_max flen_level (depth + 1).

Lemma buffered_same_observe s1 s2 i :
  buffered_same depth s1 s2 ->
  observe (SyncFIFOBuffered.machine depth flen_ptr flen_level) s1 i
  = observe (SyncFIFOBuffered.machine depth flen_ptr flen_level) s2 i.
Proof.
  intros (Hr & Hd & q_in & H1 & H2). unfold observe. simpl.
  unfold SyncFIFOBuffered.writable, SyncFIFOClassic.writable.
  rewrite (holds_queue_writable depth _ q_in H1),
    (holds_queue_writable depth _ q_in H2), <- Hr.
  destruct (SyncFIFOBuffered.readable s1); [rewrite (Hd eq_refl)|];
    reflexivity.
Qed.

Lemma buffered_same_tick s1 s2 i :
  buffered_same depth s1 s2 ->
  buffered_same depth (SyncFIFOBuffered.tick depth flen_ptr flen_level s1 i)
    (SyncFIFOBuffered.tick depth flen_ptr flen_level s2 i).
Proof.
  intros (Hr & Hd & q_in & H1 & H2).
  assert (Hre : SyncFIFOBuffered.fifo_re s1 i = SyncFIFOBuffered.fifo_re s2 i).
  { unfold SyncFIFOBuffered.fifo_re, SyncFIFOClassic.readable.
    rewrite (holds_queue_readable depth _ q_in H1),
      (holds_queue_readable depth _ q_in H2), Hr. reflexivity. }
  split; [|split].
  - simpl. rewrite Hre, Hr. reflexivity.
  - unfold SyncFIFOBuffered.tick, SyncFIFOBuffered.dout_bits, SyncFIFOClassic.tick.
    cbn [SyncFIFOBuffered.readable SyncFIFOBuffered.fifo SyncFIFOClassic.dout_bits re with_re].
    rewrite <- Hre.
    unfold SyncFIFOBuffered.fifo_re, SyncFIFOClassic.readable,
      SyncFIFOBuffered.dout_bits in *.
    rewrite (holds_queue_readable depth _ q_in H1),
      (holds_queue_readable depth _ q_in H2).
    destruct (flush i); [discriminate|].
    destruct q_in as [|v q'].
    + rewrite queue_readable_nil. simpl.
      destruct (re i); [discriminate|]. exact Hd.
    + rewrite queue_readable_cons,
        (holds_queue_dout depth _ v q' H1), (holds_queue_dout depth _ v q' H2).
      simpl.
      destruct (SyncFIFOBuffered.readable s1) eqn:E1, (re i); simpl;
        intros E; try reflexivity; try discriminate.
      apply Hd. reflexivity.
  - exists (BoundedQueue.tick depth q_in
              (with_re (SyncFIFOBuffered.fifo_re s1 i) i)).
    split; simpl.
    + apply holds_queue_tick; assumption.
    + rewrite <- Hre. apply holds_queue_tick; assumption.
Qed.

Lemma buffered_same_trace inputs : forall s1 s2,
  buffered_same depth s1 s2 ->
  trace_from (SyncFIFOBuffered.machine depth flen_ptr flen_level) s1 inputs
  = trace_from (SyncFIFOBuffered.machine depth flen_ptr flen_level) s2 inputs.
Proof.
  induction inputs as [|i rest IH]; intros s1 s2 H; simpl; [reflexivity|].
  f_equal.
  - apply buffered_same_observe, H.
  - apply IH, buffered_same_tick, H.
Qed.

End SyncFIFOBuffered_same.

(** ** [AsyncFIFO] while one clock runs alone *)

Lemma stale_shift k x y ws : stale k x ws -> stale (S k) x (y :: removelast ws).
Proof.
  intros H [|j] w Hj E; simpl in E; [lia|].
  rewrite removelast_firstn_len in E.
  apply lookup_take_Some in E as [E _]. apply (H j); [lia|exact E].
Qed.

Lemma stale_last k x ws w :
  stale k x ws -> (k < length ws)%nat -> last ws = Some w -> w = x.
Proof.
  intros H Hk E. rewrite last_lookup in E.
  apply (H (Init.Nat.pred (length ws))); [lia|exact E].
Qed.

Lemma fresh_stale k x ws : fresh k x ws -> (length ws <= k)%nat -> stale 0 x ws.
Proof.
  intros H Hk j w _ E. apply (H j); [|exact E].
  apply lookup_lt_Some in E. lia.
Qed.

Lemma fresh_0 x ws : fresh 0 x ws.
Proof. intros j w Hj. lia. Qed.

Lemma fresh_shift k x ws : fresh k x ws -> fresh (S k) x (x :: removelast ws).
Proof.
  intros H [|j] w Hj E; simpl in E.
  - congruence.
  - rewrite removelast_firstn_len in E.
    apply lookup_take_Some in E as [E _]. apply (H j); [lia|exact E].
Qed.

Lemma fresh_last k x ws w :
  fresh k x ws -> (length ws <= k)%nat -> last ws = Some w -> w = x.
Proof.
  intros H Hk E. rewrite last_lookup in E.
  apply (H (Init.Nat.pred (length ws))); [|exact E].
  apply lookup_lt_Some in E. lia.
Qed.

Lemma length_MultiReg_tick i chain :
  length (MultiReg.tick i chain) = length chain.
Proof.
  destruct chain as [|c rest]; [reflexivity|].
  unfold MultiReg.tick. rewrite removelast_firstn_len.
  simpl length. rewrite length_take. simpl. lia.
Qed.

Lemma async_init_settled (stages : nat) :
  fresh stages 0 (replicate stages 0).
Proof.
  intros j w _ E. apply lookup_replicate in E as [-> _]. reflexivity.
Qed.

Section AsyncFIFO_settling.

Variables (depth_bits : Z) (stages : nat) (mode : port_mode).
Hypothesis depth_bits_pos : 1 <= depth_bits.
Hypothesis stages_pos : (0 < stages)%nat.

Lemma async_chain_lengths inputs : forall s,
  length (AsyncFIFO.produce_rdomain s) = stages
  /\ length (AsyncFIFO.consume_wdomain s) = stages ->
  let s' := run_from (AsyncFIFO.machine depth_bits stages mode) s inputs in
  length (AsyncFIFO.produce_rdomain s') = stages
  /\ length (AsyncFIFO.consume_wdomain s') = stages.
Proof.
  induction inputs as [|e rest IH]; intros s [Hp Hc]; [split; assumption|].
  apply IH. destruct e; simpl; rewrite ?length_MultiReg_tick; split; assumption.
Qed.

Lemma async_inv_read_edge s q reads ws rs r :
  async_inv depth_bits s q reads ws rs ->
  let q' := pending_step q
              (observe (AsyncFIFO.machine depth_bits stages mode) s
                 (AsyncFIFO.read_edge r)) in
  let reads' := reads + Z.b2z (AsyncFIFO.consume_ce s r) in
  async_inv depth_bits (AsyncFIFO.tick_read depth_bits s r) q' reads'
    ((reads + Z.of_nat (length q)) :: removelast ws) rs
  /\ reads' + Z.of_nat (length q') = reads + Z.of_nat (length q).
Proof.
  intros H q' reads'.
  pose proof (async_inv_tick_domains depth_bits stages depth_bits_pos stages_pos
                false true s q reads ws rs 0 false r H) as H'.
  cbv zeta in H'.
  assert (Eq : q' = (if true && AsyncFIFO.consume_ce s r then tail q else q)
                    ++ (if false && AsyncFIFO.produce_ce depth_bits s false
                        then [0] else [])).
  { subst q'.
    unfold pending_step, committed_read, committed_write, observe,
      AsyncFIFO.consume_ce. simpl.
    rewrite andb_false_r.
    destruct (AsyncFIFO.readable s), r; reflexivity. }
  rewrite <- Eq in H'.
  split; [exact H'|].
  subst reads'. rewrite Eq. simpl. rewrite app_nil_r.
  unfold AsyncFIFO.consume_ce.
  destruct (AsyncFIFO.readable s) eqn:Hr; simpl; [|lia].
  destruct r; simpl; [|lia].
  destruct (async_readable depth_bits stages stages_pos _ _ _ _ _ H Hr)
    as (w & Hw & Hlt).
  pose proof (chain_ok_last _ _ _ _ (ai_rdomain_ok _ _ _ _ _ _ H) Hw) as Hb.
  destruct q; simpl in *; lia.
Qed.

Lemma async_inv_write_edge s q reads ws rs d w :
  async_inv depth_bits s q reads ws rs ->
  async_inv depth_bits (AsyncFIFO.tick_write depth_bits s d w)
    (pending_step q
       (observe (AsyncFIFO.machine depth_bits stages mode) s
          (AsyncFIFO.write_edge d w)))
    reads ws (reads :: removelast rs).
Proof.
  intros H.
  pose proof (async_inv_tick_domains depth_bits stages depth_bits_pos stages_pos
                true false s q reads ws rs d w false H) as H'.
  cbv zeta in H'.
  replace (pending_step q
             (observe (AsyncFIFO.machine depth_bits stages mode) s
                (AsyncFIFO.write_edge d w)))
    with ((if false && AsyncFIFO.consume_ce s false then tail q else q)
          ++ (if true && AsyncFIFO.produce_ce depth_bits s w then [d] else [])).
  - simpl andb in H'. simpl Z.b2z in H'. rewrite Z.add_0_r in H'. exact H'.
  - unfold pending_step, committed_read, committed_write, observe,
      AsyncFIFO.produce_ce. simpl.
    destruct (AsyncFIFO.writable depth_bits s && w); reflexivity.
Qed.

Lemma async_inv_read_edges res : forall s q reads ws rs k,
  async_inv depth_bits s q reads ws rs ->
  fresh k (reads + Z.of_nat (length q)) ws ->
  let M := AsyncFIFO.machine depth_bits stages mode in
  let q' := pending_from q (trace_from M s (read_edges res)) in
  exists reads' ws',
    async_inv depth_bits (run_from M s (read_edges res)) q' reads' ws' rs
    /\ length ws' = length ws
    /\ fresh (k + length res) (reads' + Z.of_nat (length q')) ws'.
Proof.
  induction res as [|r res IH]; intros s q reads ws rs k H Hf M q'.
  - exists reads, ws. subst q'. simpl. rewrite Nat.add_0_r.
    split; [exact H|split; [reflexivity|exact Hf]].
  - destruct (async_inv_read_edge s q reads ws rs r H) as (H1 & E1).
    assert (Hf1 : fresh (S k)
              (reads + Z.b2z (AsyncFIFO.consume_ce s r) + Z.of_nat (length (pending_step q
                 (observe M s (AsyncFIFO.read_edge r)))))
              ((reads + Z.of_nat (length q)) :: removelast ws)).
    { fold M in E1. rewrite E1. apply fresh_shift, Hf. }
    destruct (IH _ _ _ _ _ _ H1 Hf1) as (reads' & ws' & H' & Hl & Hf').
    exists reads', ws'. split; [exact H'|]. split.
    + rewrite Hl. simpl length. rewrite removelast_firstn_len, length_take.
      pose proof (ai_rdomain_ne _ _ _ _ _ _ H). destruct ws; [congruence|].
      simpl. lia.
    + simpl length. replace (k + S (length res))%nat with (S k + length res)%nat by lia.
      exact Hf'.
Qed.

Lemma async_inv_write_edges wes : forall s q reads ws rs k,
  async_inv depth_bits s q reads ws rs ->
  fresh k reads rs ->
  let M := AsyncFIFO.machine depth_bits stages mode in
  let q' := pending_from q (trace_from M s (write_edges wes)) in
  exists rs',
    async_inv depth_bits (run_from M s (write_edges wes)) q' reads ws rs'
    /\ length rs' = length rs
    /\ fresh (k + length wes) reads rs'.
Proof.
  induction wes as [|[d w] wes IH]; intros s q reads ws rs k H Hf M q'.
  - exists rs. subst q'. simpl. rewrite Nat.add_0_r.
    split; [exact H|split; [reflexivity|exact Hf]].
  - pose proof (async_inv_write_edge s q reads ws rs d w H) as H1.
    destruct (IH _ _ _ _ _ _ H1 (fresh_shift _ _ _ Hf)) as (rs' & H' & Hl & Hf').
    exists rs'. split; [exact H'|]. split.
    + rewrite Hl. simpl length. rewrite removelast_firstn_len, length_take.
      pose proof (ai_wdomain_ne _ _ _ _ _ _ H). destruct rs; [congruence|].
      simpl. lia.
    + simpl length. replace (k + S (length wes))%nat with (S k + length wes)%nat by lia.
      exact Hf'.
Qed.

(** Once the newest write count has reached the end of the chain,
    [readable] tells exactly whether a write is pending. *)
Lemma async_readable_exact s q reads ws rs :
  async_inv depth_bits s q reads ws rs ->
  last ws = Some (reads + Z.of_nat (length q)) ->
  AsyncFIFO.readable s = true <-> q <> [].
Proof.
  intros H Hw. pose proof (async_inv_length depth_bits stages stages_pos _ _ _ _ _ H) as Hlen.
  pose proof (async_depth_pos depth_bits stages depth_bits_pos stages_pos) as Hd.
  split.
  - intros Hr ->.
    destruct (async_readable depth_bits stages stages_pos _ _ _ _ _ H Hr)
      as (w & Hw' & Hlt).
    rewrite Hw in Hw'. injection Hw' as <-. simpl in Hlt. lia.
  - intros Hne. unfold AsyncFIFO.readable.
    rewrite (ai_consume_q _ _ _ _ _ _ H), (ai_rdomain _ _ _ _ _ _ H),
      (MultiReg_o_map _ _ _ Hw).
    apply negb_true_iff, Z.eqb_neq. intros E.
    apply (gray_inj (AsyncFIFO.width depth_bits)) in E;
      [|unfold AsyncFIFO.width; lia|apply (pointer_range depth_bits stages); assumption..].
    unfold pointer in E. rewrite (async_range depth_bits stages depth_bits_pos stages_pos) in E.
    assert (Hq : 0 < Z.of_nat (length q)) by (destruct q; [congruence|simpl; lia]).
    revert E. rewrite <- (Z.add_0_r reads) at 1.
    apply ring_slots_distinct; lia.
Qed.

(** Once the newest read count has reached the end of the chain,
    [writable] tells exactly whether a slot is free. *)
Lemma async_writable_exact s q reads ws rs :
  async_inv depth_bits s q reads ws rs ->
  last rs = Some reads ->
  AsyncFIFO.writable depth_bits s = true
  <-> Z.of_nat (length q) < AsyncFIFO.depth depth_bits.
Proof.
  intros H Hr. pose proof (async_inv_length depth_bits stages stages_pos _ _ _ _ _ H) as Hlen.
  pose proof (async_depth_pos depth_bits stages depth_bits_pos stages_pos) as Hd.
  split.
  - intros Hw.
    destruct (async_writable depth_bits stages depth_bits_pos stages_pos _ _ _ _ _ H Hw)
      as (r & Hr' & Hlt).
    rewrite Hr in Hr'. injection Hr' as <-. lia.
  - intros Hlt. destruct (AsyncFIFO.writable depth_bits s) eqn:Hw; [reflexivity|exfalso].
    unfold AsyncFIFO.writable in Hw.
    rewrite (ai_produce_q _ _ _ _ _ _ H), (ai_wdomain _ _ _ _ _ _ H),
      (MultiReg_o_map _ _ _ Hr) in Hw.
    unfold gray_pointer in Hw.
    apply not_full_gray in Hw;
      [|exact depth_bits_pos|apply (pointer_range depth_bits stages); assumption..].
    rewrite <- pointer_half_turn in Hw.
    unfold pointer in Hw. rewrite (async_range depth_bits stages depth_bits_pos stages_pos) in Hw.
    revert Hw. apply ring_slots_distinct; lia.
Qed.

(** While the oldest sample is the count of reads, nothing is readable. *)
Lemma async_not_readable s q reads ws rs :
  async_inv depth_bits s q reads ws rs -> last ws = Some reads ->
  AsyncFIFO.readable s = false.
Proof.
  intros H Hw. unfold AsyncFIFO.readable.
  rewrite (ai_consume_q _ _ _ _ _ _ H), (ai_rdomain _ _ _ _ _ _ H),
    (MultiReg_o_map _ _ _ Hw), Z.eqb_refl. reflexivity.
Qed.

(** Read edges fewer than the samples that are still stale show nothing. *)
Lemma async_inv_stale_read_edges res : forall s q reads ws rs k,
  async_inv depth_bits s q reads ws rs ->
  stale k reads ws -> (k + length res < length ws)%nat ->
  AsyncFIFO.readable
    (run_from (AsyncFIFO.machine depth_bits stages mode) s (read_edges res))
  = false.
Proof.
  induction res as [|r res IH]; intros s q reads ws rs k H Hst Hk.
  - simpl in *. destruct (last_is_Some ws (ai_rdomain_ne _ _ _ _ _ _ H))
      as [w Hw].
    apply (async_not_readable s q reads ws rs H).
    rewrite Hw. f_equal. apply (stale_last k _ _ _ Hst); [lia|exact Hw].
  - simpl in Hk.
    assert (Hr : AsyncFIFO.readable s = false).
    { destruct (last_is_Some ws (ai_rdomain_ne _ _ _ _ _ _ H)) as [w Hw].
      apply (async_not_readable s q reads ws rs H).
      rewrite Hw. f_equal. apply (stale_last k _ _ _ Hst); [lia|exact Hw]. }
    destruct (async_inv_read_edge s q reads ws rs r H) as (H1 & _).
    unfold AsyncFIFO.consume_ce in H1. rewrite Hr in H1. simpl in H1.
    rewrite Z.add_0_r in H1.
    apply (IH _ _ _ _ _ (S k) H1).
    + apply stale_shift, Hst.
    + simpl length. rewrite removelast_firstn_len, length_take.
      destruct ws; simpl in *; lia.
Qed.

End AsyncFIFO_settling.

(** From reset the chain into the write domain holds the count of
    reads, which write edges do not move. *)
Lemma async_reset_writes depth_bits stages mode wes :
  1 <= depth_bits -> (0 < stages)%nat ->
  let M := AsyncFIFO.machine depth_bits stages mode in
  AsyncFIFO.writable depth_bits (run M (write_edges wes)) = true
  <-> Z.of_nat (length (pending (trace M (write_edges wes))))
      < AsyncFIFO.depth depth_bits.
Proof.
  intros Hb Hs M.
  destruct (async_inv_write_edges depth_bits stages mode Hb Hs wes _ _ _ _ _
              stages (async_inv_init depth_bits stages Hb Hs)
              (async_init_settled stages))
    as (rs' & H' & Lrs' & Hf).
  fold M in H', Hf.
  apply (async_writable_exact depth_bits stages Hb Hs _ _ _ _ _ H').
  destruct (last_is_Some rs' (ai_wdomain_ne _ _ _ _ _ _ H')) as [r Hr].
  rewrite Hr. f_equal.
  apply (fresh_last _ _ _ _ Hf); [|exact Hr].
  rewrite Lrs', length_replicate. lia.
Qed.

(** ** [AsyncFIFO]: a freed slot on its way to the write domain *)

Section AsyncFIFO_release.

Variables (depth_bits : Z) (stages : nat) (mode : port_mode).
Hypothesis depth_bits_pos : 1 <= depth_bits.
Hypothesis stages_pos : (0 < stages)%nat.

(** Read edges alone leave the count of writes and the chain into the
    write domain as they are. *)
Lemma async_inv_read_edges_count res : forall s q reads ws rs,
  async_inv depth_bits s q reads ws rs ->
  let M := AsyncFIFO.machine depth_bits stages mode in
  let q' := pending_from q (trace_from M s (read_edges res)) in
  exists reads' ws',
    async_inv depth_bits (run_from M s (read_edges res)) q' reads' ws' rs
    /\ reads' + Z.of_nat (length q') = reads + Z.of_nat (length q).
Proof.
  induction res as [|r res IH]; intros s q reads ws rs H M q'.
  - exists reads, ws. split; [exact H|reflexivity].
  - destruct (async_inv_read_edge depth_bits stages mode depth_bits_pos
                stages_pos s q reads ws rs r H) as (H1 & E1).
    destruct (IH _ _ _ _ _ H1) as (reads' & ws' & H' & E').
    exists reads', ws'. split; [exact H'|].
    fold M in E1, E'. subst q'. simpl. lia.
Qed.

(** While the oldest sample is a full turn of the ring behind the count
    of writes, nothing is writable. *)
Lemma async_not_writable s q reads ws rs r :
  async_inv depth_bits s q reads ws rs -> last rs = Some r ->
  reads + Z.of_nat (length q) = r + AsyncFIFO.depth depth_bits ->
  AsyncFIFO.writable depth_bits s = false.
Proof.
  intros H Hr E. unfold AsyncFIFO.writable.
  rewrite (ai_produce_q _ _ _ _ _ _ H), (ai_wdomain _ _ _ _ _ _ H),
    (MultiReg_o_map _ _ _ Hr), E.
  unfold gray_pointer.
  apply not_full_gray;
    [exact depth_bits_pos|apply (pointer_range depth_bits stages); assumption..|].
  apply pointer_half_turn.
Qed.

(** Write edges fewer than the samples that are still stale free nothing. *)
Lemma async_inv_stale_write_edges wes : forall s q reads ws rs k r0,
  async_inv depth_bits s q reads ws rs ->
  stale k r0 rs -> (k + length wes < length rs)%nat ->
  reads + Z.of_nat (length q) = r0 + AsyncFIFO.depth depth_bits ->
  AsyncFIFO.writable depth_bits
    (run_from (AsyncFIFO.machine depth_bits stages mode) s (write_edges wes))
  = false.
Proof.
  induction wes as [|[d w] wes IH]; intros s q reads ws rs k r0 H Hst Hk E.
  - simpl in *. destruct (last_is_Some rs (ai_wdomain_ne _ _ _ _ _ _ H))
      as [r Hr].
    apply (async_not_writable s q reads ws rs r H Hr).
    rewrite (stale_last k _ _ _ Hst ltac:(lia) Hr). exact E.
  - simpl in Hk.
    assert (Hw : AsyncFIFO.writable depth_bits s = false).
    { destruct (last_is_Some rs (ai_wdomain_ne _ _ _ _ _ _ H)) as [r Hr].
      apply (async_not_writable s q reads ws rs r H Hr).
      rewrite (stale_last k _ _ _ Hst ltac:(lia) Hr). exact E. }
    pose proof (async_inv_write_edge depth_bits stages mode depth_bits_pos
                  stages_pos s q reads ws rs d w H) as H1.
    assert (Eq : pending_step q
                   (observe (AsyncFIFO.machine depth_bits stages mode) s
                      (AsyncFIFO.write_edge d w)) = q).
    { unfold pending_step, committed_read, committed_write, observe. simpl.
      rewrite Hw. simpl. apply app_nil_r. }
    rewrite Eq in H1.
    apply (IH _ _ _ _ _ (S k) r0 H1).
    + apply stale_shift, Hst.
    + simpl length. rewrite removelast_firstn_len, length_take.
      destruct rs; simpl in *; lia.
    + exact E.
Qed.

End AsyncFIFO_release.

(** * The claims *)

(** C8.  The two branches of [_inc] are equivalent: for a pointer
    [0 <= s < depth] held in a signal wide enough for [depth] values, what
    [_inc] assigns is [(s + 1) mod depth]; the compare-and-reset branch
    gives that for every such [depth], and when [depth] is [2 ** flen] the
    truncating branch gives the same value as the compare-and-reset
    branch. *)
Theorem inc_branches_agree (flen s depth : Z) :
  holds_max flen depth -> 0 <= s < depth ->
  _inc flen s depth = (s + 1) mod depth
  /\ inc_compare_reset flen s depth = (s + 1) mod depth
  /\ (depth = 2 ^ flen ->
      inc_truncate flen s = (s + 1) mod depth
      /\ inc_truncate flen s = inc_compare_reset flen s depth).
Proof.
  intros Hf Hs. pose proof Hf as [Hf0 Hfd].
  assert (Hcr : inc_compare_reset flen s depth = (s + 1) mod depth).
  { unfold inc_compare_reset, wrap.
    destruct (Z.eqb_spec s (depth - 1)) as [->|Hne].
    - replace (depth - 1 + 1) with depth by lia.
      symmetry. apply Z.mod_same. lia.
    - rewrite !Z.mod_small by lia. reflexivity. }
  split; [apply inc_mod; assumption|].
  split; [exact Hcr|].
  intros E. rewrite Hcr. unfold inc_truncate, wrap. rewrite E.
  split; reflexivity.
Qed.

Lemma inc_branches_agree_witness :
  holds_max 2 4 /\ 0 <= 3 < 4
  /\ _inc 2 3 4 = 0 /\ inc_compare_reset 2 3 4 = 0
  /\ inc_truncate 2 3 = inc_compare_reset 2 3 4.
Proof.
  assert (Hf : holds_max 2 4) by (unfold holds_max; simpl; lia).
  assert (Hs : 0 <= 3 < 4) by lia.
  destruct (inc_branches_agree 2 3 4 Hf Hs) as (H1 & H2 & H3).
  destruct (H3 eq_refl) as [_ H4].
  split; [exact Hf|]. split; [exact Hs|].
  split; [exact H1|]. split; [exact H2|exact H4].
Defined.

(** C1, as the specification states it, fails when [flush] is driven: the
    writes 10 and 20 are both committed, a flush comes between them, and
    the only read returns 20. *)
Lemma SyncFIFO_flush_discards_writes :
  writes (trace (SyncFIFO.machine 4 2 3) [wr 10; fl; wr 20; rd]) = [10; 20]
  /\ reads (trace (SyncFIFO.machine 4 2 3) [wr 10; fl; wr 20; rd]) = [20]
  /\ ~ (exists rest,
          writes (trace (SyncFIFO.machine 4 2 3) [wr 10; fl; wr 20; rd])
          = reads (trace (SyncFIFO.machine 4 2 3) [wr 10; fl; wr 20; rd])
            ++ rest).
Proof.
  split; [reflexivity|]. split; [reflexivity|].
  intros [rest H]. vm_compute in H. discriminate.
Qed.

(** C1 (amended).  For every depth and every sequence of inputs to
    [SyncFIFO], each committed read returns the oldest committed write
    that is neither read nor discarded by a flush; when [flush] is never
    driven, the values read, followed by the writes still pending, are the
    committed writes in order.  For depth 4 (scenario A), writing 10, 20,
    30, 40 with [we] held commits all four and leaves [writable] false,
    and four reads then return 10, 20, 30, 40 and leave [readable]
    false. *)
Theorem SyncFIFO_fifo_order (depth flen_ptr flen_level : Z)
    (inputs : list Inputs) :
  0 < depth -> holds_max flen_ptr depth -> holds_max flen_level (depth + 1) ->
  let M := SyncFIFO.machine depth flen_ptr flen_level in
  (forall n e v,
      trace M inputs !! n = Some e -> committed_read e = Some v ->
      head (pending (take n (trace M inputs))) = Some v)
  /\ (Forall (fun i => flush i = false) inputs ->
      reads (trace M inputs) ++ pending (trace M inputs)
      = writes (trace M inputs))
  /\ (depth = 4 ->
      map ev_writable (trace M scenario_A)
      = [true; true; true; true; false; true; true; true]
      /\ writes (trace M scenario_A) = [10; 20; 30; 40]
      /\ map ev_dout (trace M scenario_A)
         = [None; Some 10; Some 10; Some 10;
            Some 10; Some 20; Some 30; Some 40]
      /\ reads (trace M scenario_A) = [10; 20; 30; 40]
      /\ readable M (run M scenario_A) = false).
Proof.
  intros Hd Hp Hl M.
  pose proof (SyncFIFO_pending_tick depth flen_ptr flen_level Hd Hp Hl)
    as Htick.
  pose proof (SyncFIFO_pending_dout depth) as Hdout.
  pose proof (holds_queue_init depth Hd) as Hinit.
  split; [|split].
  - intros n e v Hn He.
    apply (R_read_is_oldest M (holds_queue depth) Htick Hdout inputs
             (reset M) [] n e v Hinit Hn He).
  - intros Hf.
    apply (R_reads_then_pending M (holds_queue depth) Htick Hdout inputs
             (reset M) [] Hinit Hf).
  - intros ->.
    destruct (SyncFIFO_trace_queue 4 flen_ptr flen_level Hd Hp Hl scenario_A)
      as [E HR].
    subst M. rewrite E. simpl readable.
    rewrite (holds_queue_readable 4 _ _ HR).
    repeat split; reflexivity.
Qed.

Lemma SyncFIFO_fifo_order_witness :
  0 < 4 /\ holds_max 2 4 /\ holds_max 3 (4 + 1)
  /\ reads (trace (SyncFIFO.machine 4 2 3) scenario_A)
     ++ pending (trace (SyncFIFO.machine 4 2 3) scenario_A)
     = writes (trace (SyncFIFO.machine 4 2 3) scenario_A).
Proof.
  assert (Hd : 0 < 4) by lia.
  assert (Hp : holds_max 2 4) by (unfold holds_max; simpl; lia).
  assert (Hl : holds_max 3 (4 + 1)) by (unfold holds_max; simpl; lia).
  destruct (SyncFIFO_fifo_order 4 2 3 scenario_A Hd Hp Hl) as (_ & H & _).
  split; [exact Hd|]. split; [exact Hp|]. split; [exact Hl|].
  apply H. repeat constructor.
Defined.

(** C3.  In every state [SyncFIFO] reaches from reset, [0 <= level <=
    depth] and [level] is the number of committed-but-unread writes since
    the last flush; in every state [SyncFIFORelaxed] reaches, the level it
    reports satisfies [0 <= level <= depth + 1]. *)
Theorem level_invariants (depth flen_ptr flen_level flen_rlevel : Z) :
  0 < depth -> holds_max flen_ptr depth ->
  holds_max flen_level (depth + 1) -> holds_max flen_rlevel (depth + 2) ->
  (forall inputs : list Inputs,
     let s := run (SyncFIFO.machine depth flen_ptr flen_level) inputs in
     0 <= SyncFIFO.level s <= depth
     /\ SyncFIFO.level s
        = Z.of_nat (length (pending
            (trace (SyncFIFO.machine depth flen_ptr flen_level) inputs))))
  /\ (forall inputs : list Inputs,
        let s := run (SyncFIFORelaxed.machine depth flen_ptr flen_level)
                   inputs in
        0 <= SyncFIFORelaxed.level flen_rlevel s <= depth + 1).
Proof.
  intros Hd Hp Hl [Hr0 Hr]. split.
  - intros inputs s.
    pose proof (SyncFIFO_holds_pending depth flen_ptr flen_level
                  Hd Hp Hl inputs) as H.
    fold s in H. pose proof (hq_level _ _ _ H). pose proof (hq_bound _ _ _ H).
    lia.
  - intros inputs s.
    destruct (SyncFIFORelaxed_holds_pending depth flen_ptr flen_level
                Hd Hp Hl inputs) as (q_in & H & _).
    fold s in H. pose proof (hq_level _ _ _ H). pose proof (hq_bound _ _ _ H).
    unfold SyncFIFORelaxed.level.
    rewrite wrap_small; destruct (SyncFIFORelaxed.buff_readable s);
      simpl; lia.
Qed.

Lemma level_invariants_witness :
  0 < 4 /\ holds_max 2 4 /\ holds_max 3 (4 + 1) /\ holds_max 3 (4 + 2)
  /\ SyncFIFO.level (run (SyncFIFO.machine 4 2 3) [wr 10; wr 20; rd]) = 1
  /\ 0 <= SyncFIFORelaxed.level 3
            (run (SyncFIFORelaxed.machine 4 2 3) [wr 10; wr 20; rd]) <= 4 + 1.
Proof.
  assert (Hd : 0 < 4) by lia.
  assert (Hp : holds_max 2 4) by (unfold holds_max; simpl; lia).
  assert (Hl : holds_max 3 (4 + 1)) by (unfold holds_max; simpl; lia).
  assert (Hr : holds_max 3 (4 + 2)) by (unfold holds_max; simpl; lia).
  destruct (level_invariants 4 2 3 3 Hd Hp Hl Hr) as [H1 H2].
  split; [exact Hd|]. split; [exact Hp|]. split; [exact Hl|].
  split; [exact Hr|]. split.
  - exact (proj2 (H1 [wr 10; wr 20; rd])).
  - exact (H2 [wr 10; wr 20; rd]).
Defined.

(** C2.  [SyncFIFO], [SyncFIFOBuffered], [SyncFIFORelaxed] and [AsyncFIFO]
    are first-word-fall-through: in every state reached from reset in
    which [readable] is asserted, [dout] is the oldest
    committed-but-unread write.  [SyncFIFOClassic] is not: after one
    committed write it is readable while its output register still holds
    the reset value. *)
Theorem fwft_fidelity (depth flen_ptr flen_level depth_bits : Z)
    (stages : nat) (mode : port_mode) :
  0 < depth -> holds_max flen_ptr depth -> holds_max flen_level (depth + 1) ->
  1 <= depth_bits -> (0 < stages)%nat ->
  fwft (SyncFIFO.machine depth flen_ptr flen_level)
  /\ fwft (SyncFIFOBuffered.machine depth flen_ptr flen_level)
  /\ fwft (SyncFIFORelaxed.machine depth flen_ptr flen_level)
  /\ fwft (AsyncFIFO.machine depth_bits stages mode)
  /\ ~ fwft (SyncFIFOClassic.machine depth flen_ptr flen_level).
Proof.
  intros Hd Hp Hl Hb Hs. repeat split.
  - intros inputs Hr.
    apply (SyncFIFO_pending_dout depth _ _
             (SyncFIFO_holds_pending depth flen_ptr flen_level
                Hd Hp Hl inputs) Hr).
  - intros inputs Hr.
    apply (buffered_holds_dout depth _ _
             (SyncFIFOBuffered_holds_pending depth flen_ptr flen_level
                Hd Hp Hl inputs) Hr).
  - intros inputs Hr.
    apply (relaxed_holds_dout depth _ _
             (SyncFIFORelaxed_holds_pending depth flen_ptr flen_level
                Hd Hp Hl inputs) Hr).
  - intros inputs Hr.
    apply (async_holds_dout depth_bits stages mode Hs _ _
             (AsyncFIFO_holds_pending depth_bits stages mode Hb Hs inputs)
             Hr).
  - intros H. specialize (H [wr 1]).
    pose proof (holds_queue_tick depth flen_ptr flen_level Hd Hp Hl
                  _ _ (wr 1) (holds_queue_init depth Hd)) as Hq.
    unfold BoundedQueue.tick in Hq.
    rewrite (queue_writable_nil depth Hd) in Hq. simpl in Hq.
    assert (Hw : SyncFIFO.writable depth (SyncFIFO.init depth) = true).
    { rewrite (holds_queue_writable depth _ _ (holds_queue_init depth Hd)).
      apply queue_writable_nil, Hd. }
    unfold run, trace, pending, pending_step, committed_write,
      committed_read, observe in H.
    simpl in H.
    unfold SyncFIFOClassic.readable, SyncFIFOClassic.writable in H.
    simpl in H.
    rewrite (holds_queue_readable depth _ _ Hq), Hw in H.
    specialize (H eq_refl). discriminate.
Qed.

Lemma fwft_fidelity_witness :
  0 < 4 /\ holds_max 2 4 /\ holds_max 3 (4 + 1) /\ 1 <= 2 /\ (0 < 2)%nat
  /\ fwft (SyncFIFO.machine 4 2 3)
  /\ fwft (SyncFIFOBuffered.machine 4 2 3)
  /\ fwft (SyncFIFORelaxed.machine 4 2 3)
  /\ fwft (AsyncFIFO.machine 2 2 WRITE_FIRST)
  /\ ~ fwft (SyncFIFOClassic.machine 4 2 3).
Proof.
  assert (Hd : 0 < 4) by lia.
  assert (Hp : holds_max 2 4) by (unfold holds_max; simpl; lia).
  assert (Hl : holds_max 3 (4 + 1)) by (unfold holds_max; simpl; lia).
  assert (Hb : 1 <= 2) by lia.
  assert (Hs : (0 < 2)%nat) by lia.
  split; [exact Hd|]. split; [exact Hp|]. split; [exact Hl|].
  split; [exact Hb|]. split; [exact Hs|].
  exact (fwft_fidelity 4 2 3 2 2 WRITE_FIRST Hd Hp Hl Hb Hs).
Defined.

(** C5.  In every state [SyncFIFORelaxed] reaches, [do_shunt] holds
    exactly when the caller asserts [we] while the inner [SyncFIFO] is not
    readable (its level is zero) and the outer stage is not stalled
    ([readable] and not [re]); a shunted write goes into [buff], the inner
    write enable is masked, the inner storage is not written (without a
    flush the inner FIFO does not change at all), and the reported level
    is the inner level plus the bit [buff_readable]. *)
Theorem relaxed_shunt (depth flen_ptr flen_level flen_rlevel : Z)
    (inputs : list Inputs) (i : Inputs) :
  0 < depth -> holds_max flen_ptr depth ->
  holds_max flen_level (depth + 1) -> holds_max flen_rlevel (depth + 2) ->
  let s := run (SyncFIFORelaxed.machine depth flen_ptr flen_level) inputs in
  let s' := SyncFIFORelaxed.tick depth flen_ptr flen_level s i in
  (SyncFIFORelaxed.do_shunt s i = true <->
     we i = true
     /\ SyncFIFO.readable (SyncFIFORelaxed.fifo s) = false
     /\ ~ (SyncFIFORelaxed.readable s = true /\ re i = false))
  /\ (SyncFIFO.readable (SyncFIFORelaxed.fifo s) = false <->
      SyncFIFO.level (SyncFIFORelaxed.fifo s) = 0)
  /\ (SyncFIFORelaxed.do_shunt s i = true ->
      SyncFIFORelaxed.buff s' = din i
      /\ SyncFIFORelaxed.fifo_we s i = false
      /\ SyncFIFO.storage (SyncFIFORelaxed.fifo s')
         = SyncFIFO.storage (SyncFIFORelaxed.fifo s)
      /\ (flush i = false ->
          SyncFIFORelaxed.buff_readable s' = true
          /\ SyncFIFORelaxed.fifo s' = SyncFIFORelaxed.fifo s))
  /\ SyncFIFORelaxed.level flen_rlevel s
     = SyncFIFO.level (SyncFIFORelaxed.fifo s)
       + Z.b2z (SyncFIFORelaxed.buff_readable s).
Proof.
  intros Hd Hp Hl [Hr0 Hr] s s'.
  destruct (SyncFIFORelaxed_holds_pending depth flen_ptr flen_level
              Hd Hp Hl inputs) as (q_in & H & _).
  fold s in H.
  split; [|split; [|split]].
  - unfold SyncFIFORelaxed.do_shunt.
    destruct (we i), (SyncFIFO.readable (SyncFIFORelaxed.fifo s)),
      (SyncFIFORelaxed.readable s), (re i); simpl; intuition congruence.
  - unfold SyncFIFO.readable. rewrite negb_false_iff, Z.eqb_eq. reflexivity.
  - intros Hsh. pose proof Hsh as Hsh'.
    unfold SyncFIFORelaxed.do_shunt in Hsh'.
    apply andb_true_iff in Hsh' as [Hsh' _].
    apply andb_true_iff in Hsh' as [Hwe Hin].
    apply negb_true_iff in Hin.
    assert (Hfw : SyncFIFORelaxed.fifo_we s i = false).
    { unfold SyncFIFORelaxed.fifo_we. rewrite Hsh. apply andb_false_r. }
    subst s'. unfold SyncFIFORelaxed.tick. simpl. rewrite Hsh.
    unfold SyncFIFO.tick, SyncFIFO.do_write, SyncFIFO.do_read.
    simpl. rewrite Hfw, Hin, andb_false_r. simpl.
    split; [reflexivity|]. split; [reflexivity|]. split.
    + destruct (flush i); reflexivity.
    + intros Hfl. rewrite Hfl.
      split; [reflexivity|]. destruct (SyncFIFORelaxed.fifo s). reflexivity.
  - pose proof (hq_level _ _ _ H). pose proof (hq_bound _ _ _ H).
    unfold SyncFIFORelaxed.level.
    apply wrap_small. destruct (SyncFIFORelaxed.buff_readable s); simpl; lia.
Qed.

Lemma relaxed_shunt_witness :
  0 < 4 /\ holds_max 2 4 /\ holds_max 3 (4 + 1) /\ holds_max 3 (4 + 2)
  /\ SyncFIFORelaxed.do_shunt
       (run (SyncFIFORelaxed.machine 4 2 3) [wr 10; rd]) (wr 20) = true
  /\ SyncFIFORelaxed.level 3
       (run (SyncFIFORelaxed.machine 4 2 3) [wr 10; rd])
     = SyncFIFO.level (SyncFIFORelaxed.fifo
         (run (SyncFIFORelaxed.machine 4 2 3) [wr 10; rd]))
       + Z.b2z (SyncFIFORelaxed.buff_readable
           (run (SyncFIFORelaxed.machine 4 2 3) [wr 10; rd])).
Proof.
  assert (Hd : 0 < 4) by lia.
  assert (Hp : holds_max 2 4) by (unfold holds_max; simpl; lia).
  assert (Hl : holds_max 3 (4 + 1)) by (unfold holds_max; simpl; lia).
  assert (Hr : holds_max 3 (4 + 2)) by (unfold holds_max; simpl; lia).
  destruct (relaxed_shunt 4 2 3 3 [wr 10; rd] (wr 20) Hd Hp Hl Hr)
    as (_ & _ & _ & H).
  split; [exact Hd|]. split; [exact Hp|]. split; [exact Hl|].
  split; [exact Hr|]. split; [reflexivity|exact H].
Defined.

(** C6.  For every variant, asserting [we] at an edge where [writable] is
    false, or [re] at an edge where [readable] is false, changes nothing:
    the registers after the edge (pointers, level, storage, output
    registers) are those the same edge leaves with the enable deasserted,
    and the step is a total function, so nothing is signalled.  In
    [SyncFIFORelaxed] the one register that can differ under an unhonoured
    [re] is the bypass cell [buff] while it is not occupied
    ([buff_readable] false), which no output depends on: every later
    observation is the same. *)
Theorem silent_noop (depth flen_ptr flen_level depth_bits : Z)
    (stages : nat) (mode : port_mode) :
  0 < depth ->
  we_is_noop (SyncFIFO.machine depth flen_ptr flen_level) (with_we false) eq
  /\ re_is_noop (SyncFIFO.machine depth flen_ptr flen_level)
       (with_re false) eq
  /\ we_is_noop (SyncFIFOClassic.machine depth flen_ptr flen_level)
       (with_we false) eq
  /\ re_is_noop (SyncFIFOClassic.machine depth flen_ptr flen_level)
       (with_re false) eq
  /\ we_is_noop (SyncFIFOBuffered.machine depth flen_ptr flen_level)
       (with_we false) eq
  /\ re_is_noop (SyncFIFOBuffered.machine depth flen_ptr flen_level)
       (with_re false) eq
  /\ we_is_noop (SyncFIFORelaxed.machine depth flen_ptr flen_level)
       (with_we false) eq
  /\ re_is_noop (SyncFIFORelaxed.machine depth flen_ptr flen_level)
       (with_re false)
       (fun s1 s2 =>
          relaxed_same s1 s2
          /\ same_traces (SyncFIFORelaxed.machine depth flen_ptr flen_level)
               s1 s2)
  /\ we_is_noop (AsyncFIFO.machine depth_bits stages mode)
       async_without_we eq
  /\ re_is_noop (AsyncFIFO.machine depth_bits stages mode)
       async_without_re eq.
Proof.
  intros Hd.
  assert (Hsw : forall s i, SyncFIFO.writable depth s = false ->
            SyncFIFO.tick depth flen_ptr flen_level s i
            = SyncFIFO.tick depth flen_ptr flen_level s (with_we false i)).
  { intros s i H. unfold SyncFIFO.tick, SyncFIFO.do_write, SyncFIFO.do_read.
    simpl. rewrite H. reflexivity. }
  assert (Hsr : forall s i, SyncFIFO.readable s = false ->
            SyncFIFO.tick depth flen_ptr flen_level s i
            = SyncFIFO.tick depth flen_ptr flen_level s (with_re false i)).
  { intros s i H. unfold SyncFIFO.tick, SyncFIFO.do_write, SyncFIFO.do_read.
    simpl. rewrite H. reflexivity. }
  split; [exact Hsw|]. split; [exact Hsr|].
  repeat apply conj.
  - (* SyncFIFOClassic, we *)
    intros s i H. simpl in *. unfold SyncFIFOClassic.tick.
    rewrite (Hsw _ i H). reflexivity.
  - (* SyncFIFOClassic, re *)
    intros s i H. simpl in *. unfold SyncFIFOClassic.tick.
    unfold SyncFIFOClassic.readable in *.
    rewrite (Hsr _ i H), H, andb_false_r. reflexivity.
  - (* SyncFIFOBuffered, we *)
    intros s i H. simpl in *. unfold SyncFIFOBuffered.tick,
      SyncFIFOClassic.tick, SyncFIFOBuffered.fifo_re.
    unfold SyncFIFOBuffered.writable, SyncFIFOClassic.writable in H.
    simpl. rewrite (Hsw _ _ H). reflexivity.
  - (* SyncFIFOBuffered, re *)
    intros s i H. simpl in *. unfold SyncFIFOBuffered.tick,
      SyncFIFOBuffered.fifo_re. simpl. rewrite H. simpl.
    rewrite !andb_true_r.
    destruct (flush i), (SyncFIFOClassic.readable (SyncFIFOBuffered.fifo s)),
      (re i); reflexivity.
  - (* SyncFIFORelaxed, we *)
    intros s i H. simpl in *. unfold SyncFIFORelaxed.writable in H.
    assert (Hr : SyncFIFO.readable (SyncFIFORelaxed.fifo s) = true).
    { unfold SyncFIFO.writable in H. apply negb_false_iff, Z.eqb_eq in H.
      unfold SyncFIFO.readable. apply negb_true_iff, Z.eqb_neq. lia. }
    unfold SyncFIFORelaxed.tick, SyncFIFORelaxed.fifo_inputs,
      SyncFIFORelaxed.fifo_we, SyncFIFORelaxed.fifo_re,
      SyncFIFORelaxed.do_shunt.
    simpl. rewrite Hr, !andb_false_r. simpl. rewrite !andb_true_r.
    f_equal. unfold SyncFIFO.tick, SyncFIFO.do_write, SyncFIFO.do_read.
    simpl. rewrite H. reflexivity.
  - (* SyncFIFORelaxed, re *)
    intros s i H. simpl in *.
    assert (Hsame : relaxed_same
              (SyncFIFORelaxed.tick depth flen_ptr flen_level s i)
              (SyncFIFORelaxed.tick depth flen_ptr flen_level s
                 (with_re false i))).
    { unfold SyncFIFORelaxed.readable in H.
      apply orb_false_iff in H as [Hb Hdr].
      destruct s as [f d dr b br]. simpl in *. subst br dr.
      unfold relaxed_same, SyncFIFORelaxed.tick,
        SyncFIFORelaxed.fifo_inputs, SyncFIFORelaxed.fifo_we,
        SyncFIFORelaxed.fifo_re, SyncFIFORelaxed.do_shunt,
        SyncFIFORelaxed.readable.
      simpl. rewrite !orb_true_r, !andb_true_r.
      split; [reflexivity|]. split; [reflexivity|].
      split; [reflexivity|]. split.
      - destruct (flush i), (we i && negb (SyncFIFO.readable f)), (re i);
          reflexivity.
      - destruct (flush i), (we i && negb (SyncFIFO.readable f)), (re i);
          simpl; intros E; try discriminate; reflexivity. }
    split; [exact Hsame|].
    intros rest. apply relaxed_same_trace, Hsame.
  - (* AsyncFIFO, we *)
    intros s e H. simpl in *.
    destruct e as [d w|r|d w r]; simpl; [|reflexivity|].
    + unfold AsyncFIFO.tick_write, AsyncFIFO.produce_ce.
      rewrite H. reflexivity.
    + unfold AsyncFIFO.tick_both, AsyncFIFO.tick_write,
        AsyncFIFO.produce_ce.
      rewrite H. reflexivity.
  - (* AsyncFIFO, re *)
    intros s e H. simpl in *.
    destruct e as [d w|r|d w r]; simpl; [reflexivity| |].
    + unfold AsyncFIFO.tick_read, AsyncFIFO.consume_ce.
      rewrite H. reflexivity.
    + unfold AsyncFIFO.tick_both, AsyncFIFO.tick_read,
        AsyncFIFO.consume_ce.
      rewrite H. reflexivity.
Qed.

Lemma silent_noop_witness :
  0 < 4
  /\ SyncFIFO.tick 4 2 3 (SyncFIFO.init 4) rd
     = SyncFIFO.tick 4 2 3 (SyncFIFO.init 4) (with_re false rd)
  /\ SyncFIFORelaxed.tick 4 2 3
       (run (SyncFIFORelaxed.machine 4 2 3)
          [wr 1; wr 2; wr 3; wr 4; wr 5]) (wr 6)
     = SyncFIFORelaxed.tick 4 2 3
         (run (SyncFIFORelaxed.machine 4 2 3)
            [wr 1; wr 2; wr 3; wr 4; wr 5]) (with_we false (wr 6)).
Proof.
  assert (Hd : 0 < 4) by lia.
  destruct (silent_noop 4 2 3 2 2 WRITE_FIRST Hd)
    as (_ & Hr & _ & _ & _ & _ & Hw & _).
  split; [exact Hd|]. split.
  - apply (Hr (SyncFIFO.init 4) rd). reflexivity.
  - apply (Hw (run (SyncFIFORelaxed.machine 4 2 3)
                 [wr 1; wr 2; wr 3; wr 4; wr 5]) (wr 6)).
    reflexivity.
Defined.

(** C4, as the specification states it, fails on the code.  With four
    slots, after four committed writes and no read the FIFO is full
    ([writable] false), but the two Gray pointers, 110 and 000, do not show
    "equal top bit with differing second-top bit"; after three writes the
    pointers 010 and 000 do show it, and the FIFO is writable. *)
Lemma AsyncFIFO_full_is_not_the_spec_pattern :
  AsyncFIFO.writable 2
    (run (AsyncFIFO.machine 2 2 WRITE_FIRST)
       [AsyncFIFO.write_edge 1 true; AsyncFIFO.write_edge 2 true;
        AsyncFIFO.write_edge 3 true; AsyncFIFO.write_edge 4 true]) = false
  /\ spec_full_pattern 2 6 0 = false
  /\ GrayCounter.q (AsyncFIFO.produce
       (run (AsyncFIFO.machine 2 2 WRITE_FIRST)
          [AsyncFIFO.write_edge 1 true; AsyncFIFO.write_edge 2 true;
           AsyncFIFO.write_edge 3 true; AsyncFIFO.write_edge 4 true])) = 6
  /\ MultiReg.o (AsyncFIFO.consume_wdomain
       (run (AsyncFIFO.machine 2 2 WRITE_FIRST)
          [AsyncFIFO.write_edge 1 true; AsyncFIFO.write_edge 2 true;
           AsyncFIFO.write_edge 3 true; AsyncFIFO.write_edge 4 true])) = 0
  /\ AsyncFIFO.writable 2
       (run (AsyncFIFO.machine 2 2 WRITE_FIRST)
          [AsyncFIFO.write_edge 1 true; AsyncFIFO.write_edge 2 true;
           AsyncFIFO.write_edge 3 true]) = true
  /\ spec_full_pattern 2 2 0 = true
  /\ GrayCounter.q (AsyncFIFO.produce
       (run (AsyncFIFO.machine 2 2 WRITE_FIRST)
          [AsyncFIFO.write_edge 1 true; AsyncFIFO.write_edge 2 true;
           AsyncFIFO.write_edge 3 true])) = 2.
Proof. repeat split; reflexivity. Qed.

(** C4 (amended).  In [AsyncFIFO] the write side is not writable exactly
    when the local Gray produce pointer and the resynchronised Gray
    consume pointer differ in the top bit and differ in the second-top
    bit while all remaining low bits are equal; with exactly two pointer
    bits there are no remaining bits and only the two bits are compared.
    On Gray codes of binary pointers this is the case exactly when the
    produce pointer is [depth] ahead of the consume pointer. *)
Theorem AsyncFIFO_full_test (depth_bits : Z) (s : AsyncFIFO.t) :
  1 <= depth_bits ->
  (AsyncFIFO.writable depth_bits s = false <->
     bit (GrayCounter.q (AsyncFIFO.produce s))
         (AsyncFIFO.width depth_bits - 1)
     <> bit (MultiReg.o (AsyncFIFO.consume_wdomain s))
            (AsyncFIFO.width depth_bits - 1)
     /\ bit (GrayCounter.q (AsyncFIFO.produce s))
            (AsyncFIFO.width depth_bits - 2)
        <> bit (MultiReg.o (AsyncFIFO.consume_wdomain s))
               (AsyncFIFO.width depth_bits - 2)
     /\ (depth_bits <> 1 ->
         low (AsyncFIFO.width depth_bits - 2)
           (GrayCounter.q (AsyncFIFO.produce s))
         = low (AsyncFIFO.width depth_bits - 2)
             (MultiReg.o (AsyncFIFO.consume_wdomain s))))
  /\ (forall a b,
        0 <= a < 2 ^ AsyncFIFO.width depth_bits ->
        0 <= b < 2 ^ AsyncFIFO.width depth_bits ->
        AsyncFIFO.not_full depth_bits
          (GrayCounter.gray a) (GrayCounter.gray b) = false
        <-> a = (b + AsyncFIFO.depth depth_bits)
                  mod 2 ^ AsyncFIFO.width depth_bits).
Proof.
  intros Hd. split.
  - unfold AsyncFIFO.writable. apply not_full_false_iff.
  - intros a b Ha Hb. apply not_full_gray; assumption.
Qed.

Lemma AsyncFIFO_full_test_witness :
  1 <= 2
  /\ (AsyncFIFO.not_full 2 (GrayCounter.gray 4) (GrayCounter.gray 0) = false
      <-> 4 = (0 + AsyncFIFO.depth 2) mod 2 ^ AsyncFIFO.width 2).
Proof.
  assert (Hd : 1 <= 2) by lia.
  split; [exact Hd|].
  apply (proj2 (AsyncFIFO_full_test 2 (AsyncFIFO.init 2 2) Hd) 4 0);
    vm_compute; split; congruence.
Defined.




(** C10.  At every tick, whatever the state and the other inputs, the
    bridge registers into [a_o] the low 14 bits of [adr_i] (the higher
    address bits have no effect), into [d_o] the value of [dat_i] and
    into [dat_o] the value of the CSR's [d_i], each as wide as the
    receiving signal; [a_o] is at least 14 bits wide. *)
Theorem wishbone2csr_registers (flen_a_o flen_d_o flen_dat_o : Z)
    (s : wishbone2csr.t) (i : wishbone2csr.bus) :
  14 <= flen_a_o ->
  let s' := wishbone2csr.tick flen_a_o flen_d_o flen_dat_o s i in
  wishbone2csr.a_o s' = wishbone2csr.adr_i i mod 2 ^ 14
  /\ wishbone2csr.a_o s' = Z.land (wishbone2csr.adr_i i) (Z.ones 14)
  /\ (forall k, 14 <= k -> Z.testbit (wishbone2csr.a_o s') k = false)
  /\ (forall s2 i2,
        wishbone2csr.adr_i i2 mod 2 ^ 14 = wishbone2csr.adr_i i mod 2 ^ 14 ->
        wishbone2csr.a_o
          (wishbone2csr.tick flen_a_o flen_d_o flen_dat_o s2 i2)
        = wishbone2csr.a_o s')
  /\ wishbone2csr.d_o s' = wrap flen_d_o (wishbone2csr.dat_i i)
  /\ wishbone2csr.dat_o s' = wrap flen_dat_o (wishbone2csr.d_i i).
Proof.
  intros Ha. cbv zeta. unfold wishbone2csr.tick. simpl.
  assert (E : wrap flen_a_o (low 14 (wishbone2csr.adr_i i))
              = wishbone2csr.adr_i i mod 2 ^ 14).
  { unfold wrap, low. apply Z.mod_small.
    pose proof (Z.mod_pos_bound (wishbone2csr.adr_i i) (2 ^ 14) ltac:(lia)).
    pose proof (Z.pow_le_mono_r 2 14 flen_a_o ltac:(lia) Ha). lia. }
  repeat apply conj.
  - exact E.
  - rewrite E. symmetry. apply Z.land_ones. lia.
  - intros k Hk. rewrite E. apply Z.mod_pow2_bits_high. lia.
  - intros s2 i2 H. unfold wrap, low. rewrite H. reflexivity.
  - reflexivity.
  - reflexivity.
Qed.

Lemma wishbone2csr_registers_witness :
  14 <= 14
  /\ wishbone2csr.a_o
       (wishbone2csr.tick 14 8 32 wishbone2csr.init
          (wishbone2csr.Build_bus true true false 16389 7 9)) = 5.
Proof.
  assert (Ha : 14 <= 14) by lia.
  destruct (wishbone2csr_registers 14 8 32 wishbone2csr.init
              (wishbone2csr.Build_bus true true false 16389 7 9) Ha)
    as (H & _).
  split; [exact Ha|exact H].
Defined.

(** * Further properties of the specification's section 8 *)

(** X1.  Order preservation for the other variants: in
    [SyncFIFOBuffered], [SyncFIFORelaxed] (while [flush] is not driven)
    and [AsyncFIFO] (under any interleaving of the two clocks), what was
    read, followed by what is still pending, is what was written, in
    order; nothing is lost or duplicated under back-pressure. *)
Theorem order_every_variant (depth flen_ptr flen_level depth_bits : Z)
    (stages : nat) (mode : port_mode) :
  0 < depth -> holds_max flen_ptr depth -> holds_max flen_level (depth + 1) ->
  1 <= depth_bits -> (0 < stages)%nat ->
  (forall inputs : list Inputs,
     Forall (fun i => flush i = false) inputs ->
     let tr := trace (SyncFIFOBuffered.machine depth flen_ptr flen_level)
                 inputs in
     reads tr ++ pending tr = writes tr)
  /\ (forall inputs : list Inputs,
        Forall (fun i => flush i = false) inputs ->
        let tr := trace (SyncFIFORelaxed.machine depth flen_ptr flen_level)
                    inputs in
        reads tr ++ pending tr = writes tr)
  /\ (forall inputs : list AsyncFIFO.clock_edge,
        let tr := trace (AsyncFIFO.machine depth_bits stages mode) inputs in
        reads tr ++ pending tr = writes tr).
Proof.
  intros Hd Hp Hl Hb Hs. repeat apply conj.
  - intros inputs Hf.
    apply (R_reads_then_pending
             (SyncFIFOBuffered.machine depth flen_ptr flen_level)
             (buffered_holds depth)
             (buffered_holds_tick depth flen_ptr flen_level Hd Hp Hl)
             (buffered_holds_dout depth) inputs _ []
             (buffered_holds_init depth Hd) Hf).
  - intros inputs Hf.
    apply (R_reads_then_pending
             (SyncFIFORelaxed.machine depth flen_ptr flen_level)
             (relaxed_holds depth)
             (relaxed_holds_tick depth flen_ptr flen_level Hd Hp Hl)
             (relaxed_holds_dout depth) inputs _ []
             (relaxed_holds_init depth Hd)).
    exact Hf.
  - intros inputs.
    apply (R_reads_then_pending
             (AsyncFIFO.machine depth_bits stages mode)
             (async_holds depth_bits)
             (async_holds_tick depth_bits stages mode Hb Hs)
             (async_holds_dout depth_bits stages mode Hs) inputs _ []
             (async_holds_init depth_bits stages Hb Hs)).
    clear. induction inputs as [|e rest IH]; constructor; [|exact IH].
    destruct e; reflexivity.
Qed.

Lemma order_every_variant_witness :
  0 < 4 /\ holds_max 2 4 /\ holds_max 3 (4 + 1) /\ 1 <= 2 /\ (0 < 2)%nat
  /\ reads (trace (SyncFIFORelaxed.machine 4 2 3) scenario_A)
     ++ pending (trace (SyncFIFORelaxed.machine 4 2 3) scenario_A)
     = writes (trace (SyncFIFORelaxed.machine 4 2 3) scenario_A).
Proof.
  assert (Hd : 0 < 4) by lia.
  assert (Hp : holds_max 2 4) by (unfold holds_max; simpl; lia).
  assert (Hl : holds_max 3 (4 + 1)) by (unfold holds_max; simpl; lia).
  assert (Hb : 1 <= 2) by lia.
  assert (Hs : (0 < 2)%nat) by lia.
  destruct (order_every_variant 4 2 3 2 2 WRITE_FIRST Hd Hp Hl Hb Hs)
    as (_ & H & _).
  split; [exact Hd|]. split; [exact Hp|]. split; [exact Hl|].
  split; [exact Hb|]. split; [exact Hs|].
  apply H. repeat constructor.
Defined.

(** X2.  Cross-domain safety: under any interleaving of the two clocks,
    [AsyncFIFO] asserts [readable] only while a committed write is
    unread, asserts [writable] only while fewer than [depth] are, never
    holds more than [depth], and has read no more than was written. *)
Theorem AsyncFIFO_never_overclaims (depth_bits : Z) (stages : nat)
    (mode : port_mode) (inputs : list AsyncFIFO.clock_edge) :
  1 <= depth_bits -> (0 < stages)%nat ->
  let M := AsyncFIFO.machine depth_bits stages mode in
  (readable M (run M inputs) = true -> pending (trace M inputs) <> [])
  /\ (writable M (run M inputs) = true ->
      Z.of_nat (length (pending (trace M inputs)))
      < AsyncFIFO.depth depth_bits)
  /\ Z.of_nat (length (pending (trace M inputs)))
     <= AsyncFIFO.depth depth_bits
  /\ (length (reads (trace M inputs)) <= length (writes (trace M inputs)))%nat.
Proof.
  intros Hb Hs M.
  destruct (AsyncFIFO_holds_pending depth_bits stages mode Hb Hs inputs)
    as (n & ws & rs & H).
  fold M in H. repeat apply conj.
  - intros Hr E.
    destruct (async_readable depth_bits stages Hs _ _ _ _ _ H Hr)
      as (w & Hw & Hlt).
    pose proof (chain_ok_last _ _ _ _ (ai_rdomain_ok _ _ _ _ _ _ H) Hw) as Hb'.
    fold M in E. rewrite E in Hb'. simpl in Hb'. lia.
  - intros Hw.
    destruct (async_writable depth_bits stages Hb Hs _ _ _ _ _ H Hw)
      as (r & Hr & Hlt).
    pose proof (chain_ok_last _ _ _ _ (ai_wdomain_ok _ _ _ _ _ _ H) Hr).
    lia.
  - apply (async_inv_length depth_bits stages Hs _ _ _ _ _ H).
  - assert (E : reads (trace M inputs) ++ pending (trace M inputs)
                = writes (trace M inputs)).
    { apply (R_reads_then_pending M (async_holds depth_bits)
               (async_holds_tick depth_bits stages mode Hb Hs)
               (async_holds_dout depth_bits stages mode Hs) inputs _ []
               (async_holds_init depth_bits stages Hb Hs)).
      clear. induction inputs as [|e rest IH]; constructor; [|exact IH].
      destruct e; reflexivity. }
    rewrite <- E, length_app. lia.
Qed.

Lemma AsyncFIFO_never_overclaims_witness :
  1 <= 2 /\ (0 < 2)%nat
  /\ Z.of_nat (length (pending (trace (AsyncFIFO.machine 2 2 READ_FIRST)
       [AsyncFIFO.write_edge 1 true; AsyncFIFO.write_edge 2 true;
        AsyncFIFO.write_edge 3 true; AsyncFIFO.read_edge true])))
     <= AsyncFIFO.depth 2.
Proof.
  assert (Hb : 1 <= 2) by lia.
  assert (Hs : (0 < 2)%nat) by lia.
  destruct (AsyncFIFO_never_overclaims 2 2 READ_FIRST
              [AsyncFIFO.write_edge 1 true; AsyncFIFO.write_edge 2 true;
               AsyncFIFO.write_edge 3 true; AsyncFIFO.read_edge true] Hb Hs)
    as (_ & _ & H & _).
  split; [exact Hb|]. split; [exact Hs|exact H].
Defined.

(** X3.  Scenario B: from reset, so with the inner queue empty, one write
    without a read is visible at [dout] with [readable] asserted one tick
    later, through the bypass cell; the inner FIFO, its storage included,
    is as it was at reset. *)
Theorem relaxed_scenario_B (depth flen_ptr flen_level v : Z) :
  let s := SyncFIFORelaxed.tick depth flen_ptr flen_level
             (SyncFIFORelaxed.init depth) (wr v) in
  SyncFIFORelaxed.do_shunt (SyncFIFORelaxed.init depth) (wr v) = true
  /\ SyncFIFORelaxed.readable s = true
  /\ SyncFIFORelaxed.dout_bits s = v
  /\ SyncFIFORelaxed.buff_readable s = true
  /\ SyncFIFORelaxed.fifo s = SyncFIFO.init depth.
Proof.
  cbv zeta.
  unfold SyncFIFORelaxed.tick, SyncFIFORelaxed.do_shunt,
    SyncFIFORelaxed.readable, SyncFIFORelaxed.dout_bits,
    SyncFIFORelaxed.fifo_inputs, SyncFIFORelaxed.fifo_we,
    SyncFIFORelaxed.fifo_re, SyncFIFO.tick, SyncFIFO.do_write,
    SyncFIFO.do_read.
  simpl. rewrite andb_false_r. repeat split.
Qed.

(** X4.  Flush: whatever the state and the other inputs, a tick with
    [flush] leaves the pointers and the level of [SyncFIFO] at zero, so
    [readable] is false and, the depth not being zero, [writable] true;
    a second flush leaves them there. *)
Theorem flush_resets (depth flen_ptr flen_level : Z)
    (s : SyncFIFO.t) (i i2 : Inputs) :
  flush i = true -> flush i2 = true ->
  let s1 := SyncFIFO.tick depth flen_ptr flen_level s i in
  let s2 := SyncFIFO.tick depth flen_ptr flen_level s1 i2 in
  (SyncFIFO.produce s1 = 0 /\ SyncFIFO.consume s1 = 0
   /\ SyncFIFO.level s1 = 0)
  /\ SyncFIFO.readable s1 = false
  /\ (depth <> 0 -> SyncFIFO.writable depth s1 = true)
  /\ (SyncFIFO.produce s2 = 0 /\ SyncFIFO.consume s2 = 0
      /\ SyncFIFO.level s2 = 0).
Proof.
  intros Hi Hi2. cbv zeta. unfold SyncFIFO.tick. rewrite Hi, Hi2. simpl.
  repeat apply conj; try reflexivity.
  intros Hne. unfold SyncFIFO.writable. simpl.
  destruct depth; [congruence|reflexivity|reflexivity].
Qed.

Lemma flush_resets_witness :
  flush fl = true
  /\ SyncFIFO.level
       (SyncFIFO.tick 4 2 3
          (run (SyncFIFO.machine 4 2 3) [wr 10; wr 20]) fl) = 0.
Proof.
  destruct (flush_resets 4 2 3 (run (SyncFIFO.machine 4 2 3) [wr 10; wr 20])
              fl fl eq_refl eq_refl) as ((_ & _ & H) & _).
  split; [reflexivity|exact H].
Defined.

(** X5.  [SyncFIFO] refines the bounded queue: for every sequence of
    inputs, flushes included, what a caller observes at the ports of
    [SyncFIFO] tick by tick ([writable], and [dout] while [readable]) is
    what it observes of a list of at most [depth] elements. *)
Theorem SyncFIFO_refines_queue (depth flen_ptr flen_level : Z)
    (inputs : list Inputs) :
  0 < depth -> holds_max flen_ptr depth -> holds_max flen_level (depth + 1) ->
  trace (SyncFIFO.machine depth flen_ptr flen_level) inputs
  = trace (BoundedQueue.machine depth) inputs
  /\ SyncFIFO.level (run (SyncFIFO.machine depth flen_ptr flen_level) inputs)
     = Z.of_nat (length (run (BoundedQueue.machine depth) inputs)).
Proof.
  intros Hd Hp Hl.
  destruct (SyncFIFO_trace_queue depth flen_ptr flen_level Hd Hp Hl inputs)
    as [E H].
  split; [exact E|apply (hq_level _ _ _ H)].
Qed.

Lemma SyncFIFO_refines_queue_witness :
  0 < 4 /\ holds_max 2 4 /\ holds_max 3 (4 + 1)
  /\ trace (SyncFIFO.machine 4 2 3) scenario_A
     = trace (BoundedQueue.machine 4) scenario_A.
Proof.
  assert (Hd : 0 < 4) by lia.
  assert (Hp : holds_max 2 4) by (unfold holds_max; simpl; lia).
  assert (Hl : holds_max 3 (4 + 1)) by (unfold holds_max; simpl; lia).
  destruct (SyncFIFO_refines_queue 4 2 3 scenario_A Hd Hp Hl) as [H _].
  split; [exact Hd|]. split; [exact Hp|]. split; [exact Hl|exact H].
Defined.

(** * Further properties of the code *)

(** X6.  What the docstring of [SyncFIFORelaxed] promises: for every
    sequence of inputs, flushes included, what a caller observes at its
    ports tick by tick is what it observes of a bounded queue of
    [depth + 1] words, and so of a [SyncFIFO] of depth [depth + 1];
    [readable] is asserted exactly while a committed write is unread (a
    write is visible one tick later), and [writable] exactly while fewer
    than [depth + 1] are. *)
Theorem SyncFIFORelaxed_refines_queue (depth flen_ptr flen_level : Z)
    (flen_ptr' flen_level' : Z) (inputs : list Inputs) :
  0 < depth -> holds_max flen_ptr depth -> holds_max flen_level (depth + 1) ->
  holds_max flen_ptr' (depth + 1) -> holds_max flen_level' (depth + 1 + 1) ->
  let M := SyncFIFORelaxed.machine depth flen_ptr flen_level in
  trace M inputs = trace (BoundedQueue.machine (depth + 1)) inputs
  /\ trace M inputs
     = trace (SyncFIFO.machine (depth + 1) flen_ptr' flen_level') inputs
  /\ (readable M (run M inputs) = true <-> pending (trace M inputs) <> [])
  /\ (writable M (run M inputs) = true <->
      Z.of_nat (length (pending (trace M inputs))) < depth + 1).
Proof.
  intros Hd Hp Hl Hp' Hl' M.
  pose proof (SyncFIFORelaxed_tight_pending depth flen_ptr flen_level
                Hd Hp Hl inputs) as H.
  fold M in H.
  assert (E : trace M inputs = trace (BoundedQueue.machine (depth + 1)) inputs).
  { apply (SyncFIFORelaxed_trace_from_queue depth flen_ptr flen_level
             Hd Hp Hl inputs), relaxed_tight_init, Hd. }
  split; [exact E|]. split; [|split].
  - rewrite E. symmetry.
    apply (SyncFIFO_trace_queue (depth + 1) flen_ptr' flen_level'
             ltac:(lia) Hp' Hl' inputs).
  - simpl readable. rewrite (relaxed_tight_readable depth _ _ H).
    unfold BoundedQueue.readable. rewrite negb_true_iff, Z.eqb_neq.
    destruct (pending (trace M inputs)); simpl; split; intros; try lia;
      congruence.
  - assert (Hlen : Z.of_nat (length (pending (trace M inputs))) <= depth + 1).
    { destruct H as (q_in & Hq & Eq & _). rewrite Eq, length_app.
      destruct (relaxed_front_readable (run M inputs)) as (_ & Hf & _).
      pose proof (hq_level _ _ _ Hq). pose proof (hq_bound _ _ _ Hq). lia. }
    simpl writable. rewrite (relaxed_tight_writable depth Hd _ _ H).
    unfold BoundedQueue.writable. rewrite negb_true_iff, Z.eqb_neq. lia.
Qed.

Lemma SyncFIFORelaxed_refines_queue_witness :
  0 < 4 /\ holds_max 2 4 /\ holds_max 3 (4 + 1)
  /\ holds_max 3 (4 + 1) /\ holds_max 3 (4 + 1 + 1)
  /\ trace (SyncFIFORelaxed.machine 4 2 3) scenario_A
     = trace (SyncFIFO.machine (4 + 1) 3 3) scenario_A.
Proof.
  assert (Hd : 0 < 4) by lia.
  assert (Hp : holds_max 2 4) by (unfold holds_max; simpl; lia).
  assert (Hl : holds_max 3 (4 + 1)) by (unfold holds_max; simpl; lia).
  assert (Hp' : holds_max 3 (4 + 1)) by (unfold holds_max; simpl; lia).
  assert (Hl' : holds_max 3 (4 + 1 + 1)) by (unfold holds_max; simpl; lia).
  destruct (SyncFIFORelaxed_refines_queue 4 2 3 3 3 scenario_A
              Hd Hp Hl Hp' Hl') as (_ & H & _).
  split; [exact Hd|]. split; [exact Hp|]. split; [exact Hl|].
  split; [exact Hp'|]. split; [exact Hl'|exact H].
Defined.

(** X7.  The [level] of [SyncFIFORelaxed] is the number of unread words
    except that it leaves out the word in the mirror register [dout]
    while the bypass cell is empty; after any tick in which the caller
    read without writing, a readable FIFO reports one less than it
    holds. *)
Theorem SyncFIFORelaxed_level_lags (depth flen_ptr flen_level flen_rlevel : Z)
    (inputs : list Inputs) (i : Inputs) :
  0 < depth -> holds_max flen_ptr depth ->
  holds_max flen_level (depth + 1) -> holds_max flen_rlevel (depth + 2) ->
  let M := SyncFIFORelaxed.machine depth flen_ptr flen_level in
  let s := run M inputs in
  let s' := run M (inputs ++ [i]) in
  SyncFIFORelaxed.level flen_rlevel s
  + Z.b2z (negb (SyncFIFORelaxed.buff_readable s)
           && SyncFIFORelaxed.dout_readable s)
  = Z.of_nat (length (pending (trace M inputs)))
  /\ (re i = true -> we i = false -> SyncFIFORelaxed.readable s' = true ->
      SyncFIFORelaxed.level flen_rlevel s'
      = Z.of_nat (length (pending (trace M (inputs ++ [i])))) - 1).
Proof.
  intros Hd Hp Hl [Hr0 Hr] M s s'.
  assert (Hlevel : forall inputs0,
    SyncFIFORelaxed.level flen_rlevel (run M inputs0)
    + Z.b2z (negb (SyncFIFORelaxed.buff_readable (run M inputs0))
             && SyncFIFORelaxed.dout_readable (run M inputs0))
    = Z.of_nat (length (pending (trace M inputs0)))).
  { intros inputs0.
    destruct (SyncFIFORelaxed_holds_pending depth flen_ptr flen_level
                Hd Hp Hl inputs0) as (q_in & Hq & E).
    fold M in Hq, E. rewrite E, length_app.
    pose proof (hq_level _ _ _ Hq). pose proof (hq_bound _ _ _ Hq).
    unfold SyncFIFORelaxed.level, relaxed_front.
    rewrite wrap_small;
      destruct (SyncFIFORelaxed.buff_readable (run M inputs0)),
        (SyncFIFORelaxed.dout_readable (run M inputs0)); simpl; lia. }
  split; [apply Hlevel|].
  intros Hre Hwe Hrd. rewrite <- (Hlevel (inputs ++ [i])). fold s'.
  assert (Hb : SyncFIFORelaxed.buff_readable s' = false).
  { subst s'. unfold run. rewrite run_from_app.
    change (run_from M (run_from M (reset M) inputs) [i])
      with (SyncFIFORelaxed.tick depth flen_ptr flen_level s i).
    unfold SyncFIFORelaxed.tick, SyncFIFORelaxed.do_shunt.
    cbn [SyncFIFORelaxed.buff_readable]. rewrite Hre, Hwe.
    destruct (flush i), (SyncFIFORelaxed.buff_readable s); reflexivity. }
  unfold SyncFIFORelaxed.readable in Hrd. rewrite Hb in *. simpl in Hrd.
  rewrite Hrd. simpl. lia.
Qed.

Lemma SyncFIFORelaxed_level_lags_witness :
  0 < 4 /\ holds_max 2 4 /\ holds_max 3 (4 + 1) /\ holds_max 3 (4 + 2)
  /\ SyncFIFORelaxed.readable
       (run (SyncFIFORelaxed.machine 4 2 3) ([wr 10; wr 20] ++ [rd])) = true
  /\ SyncFIFORelaxed.level 3
       (run (SyncFIFORelaxed.machine 4 2 3) ([wr 10; wr 20] ++ [rd]))
     = Z.of_nat (length (pending
         (trace (SyncFIFORelaxed.machine 4 2 3) ([wr 10; wr 20] ++ [rd])))) - 1.
Proof.
  assert (Hd : 0 < 4) by lia.
  assert (Hp : holds_max 2 4) by (unfold holds_max; simpl; lia).
  assert (Hl : holds_max 3 (4 + 1)) by (unfold holds_max; simpl; lia).
  assert (Hr : holds_max 3 (4 + 2)) by (unfold holds_max; simpl; lia).
  destruct (SyncFIFORelaxed_level_lags 4 2 3 3 [wr 10; wr 20] rd Hd Hp Hl Hr)
    as [_ H].
  split; [exact Hd|]. split; [exact Hp|]. split; [exact Hl|].
  split; [exact Hr|]. split; [reflexivity|].
  apply H; reflexivity.
Defined.

(** X8.  [SyncFIFOBuffered] holds the inner FIFO's words and one more in
    its output register: the number of unread words is [level] plus the
    bit [readable], [level] stays within [0 .. depth], and [writable] is
    asserted exactly while [level < depth].  Without a flush, [readable]
    is asserted after a tick exactly when a word is left once this tick's
    committed read has been taken out; so a word written in a tick is
    readable two ticks later, and reads in consecutive ticks never see
    [readable] drop while more words are pending. *)
Theorem SyncFIFOBuffered_occupancy (depth flen_ptr flen_level : Z)
    (inputs : list Inputs) (i : Inputs) :
  0 < depth -> holds_max flen_ptr depth -> holds_max flen_level (depth + 1) ->
  let M := SyncFIFOBuffered.machine depth flen_ptr flen_level in
  let s := run M inputs in
  let q := pending (trace M inputs) in
  Z.of_nat (length q)
  = SyncFIFOBuffered.level s + Z.b2z (SyncFIFOBuffered.readable s)
  /\ 0 <= SyncFIFOBuffered.level s <= depth
  /\ (SyncFIFOBuffered.writable depth s = true <->
      SyncFIFOBuffered.level s < depth)
  /\ (flush i = false ->
      (SyncFIFOBuffered.readable
         (SyncFIFOBuffered.tick depth flen_ptr flen_level s i) = true
       <-> (if SyncFIFOBuffered.readable s && re i then tail q else q) <> [])).
Proof.
  intros Hd Hp Hl M s q.
  destruct (SyncFIFOBuffered_holds_pending depth flen_ptr flen_level
              Hd Hp Hl inputs) as (q_in & Hq & E).
  fold M in Hq, E. fold s in Hq, E. fold q in E.
  pose proof (hq_level _ _ _ Hq) as Hlev. pose proof (hq_bound _ _ _ Hq) as Hb.
  pose proof (holds_queue_readable depth _ _ Hq) as Hrd.
  unfold SyncFIFOBuffered.level, SyncFIFOClassic.level.
  split; [|split; [|split]].
  - rewrite E, length_app, Hlev. unfold buffered_front.
    destruct (SyncFIFOBuffered.readable s); simpl; lia.
  - lia.
  - unfold SyncFIFOBuffered.writable, SyncFIFOClassic.writable,
      SyncFIFO.writable.
    rewrite negb_true_iff, Z.eqb_neq. lia.
  - intros Hf. unfold SyncFIFOBuffered.tick.
    cbn [SyncFIFOBuffered.readable]. rewrite Hf.
    unfold SyncFIFOBuffered.fifo_re, SyncFIFOClassic.readable.
    rewrite Hrd, E. unfold buffered_front.
    destruct q_in as [|v q_in'].
    + rewrite queue_readable_nil.
      destruct (SyncFIFOBuffered.readable s), (re i); simpl;
        split; intros; congruence.
    + rewrite queue_readable_cons.
      destruct (SyncFIFOBuffered.readable s), (re i); simpl;
        split; intros; congruence.
Qed.

Lemma SyncFIFOBuffered_occupancy_witness :
  0 < 4 /\ holds_max 2 4 /\ holds_max 3 (4 + 1)
  /\ Z.of_nat (length (pending
       (trace (SyncFIFOBuffered.machine 4 2 3) [wr 10; wr 20; wr 30])))
     = SyncFIFOBuffered.level
         (run (SyncFIFOBuffered.machine 4 2 3) [wr 10; wr 20; wr 30])
       + Z.b2z (SyncFIFOBuffered.readable
           (run (SyncFIFOBuffered.machine 4 2 3) [wr 10; wr 20; wr 30])).
Proof.
  assert (Hd : 0 < 4) by lia.
  assert (Hp : holds_max 2 4) by (unfold holds_max; simpl; lia).
  assert (Hl : holds_max 3 (4 + 1)) by (unfold holds_max; simpl; lia).
  destruct (SyncFIFOBuffered_occupancy 4 2 3 [wr 10; wr 20; wr 30] idle
              Hd Hp Hl) as [H _].
  split; [exact Hd|]. split; [exact Hp|]. split; [exact Hl|exact H].
Defined.

(** X9.  [SyncFIFOClassic] has a registered read: [level] counts the
    unread words, [readable] is asserted exactly while there is one and
    [writable] exactly while there are fewer than [depth]; a tick with
    [re] while [readable] loads the oldest unread word into [dout_bits],
    and any other tick leaves [dout_bits] as it was. *)
Theorem SyncFIFOClassic_registered_read (depth flen_ptr flen_level : Z)
    (inputs : list Inputs) (i : Inputs) :
  0 < depth -> holds_max flen_ptr depth -> holds_max flen_level (depth + 1) ->
  let M := SyncFIFOClassic.machine depth flen_ptr flen_level in
  let s := run M inputs in
  let q := pending (trace M inputs) in
  SyncFIFOClassic.level s = Z.of_nat (length q)
  /\ (SyncFIFOClassic.readable s = true <-> q <> [])
  /\ (SyncFIFOClassic.writable depth s = true <-> Z.of_nat (length q) < depth)
  /\ (re i = true -> SyncFIFOClassic.readable s = true ->
      head q = Some (SyncFIFOClassic.dout_bits
                       (SyncFIFOClassic.tick depth flen_ptr flen_level s i)))
  /\ (re i && SyncFIFOClassic.readable s = false ->
      SyncFIFOClassic.dout_bits
        (SyncFIFOClassic.tick depth flen_ptr flen_level s i)
      = SyncFIFOClassic.dout_bits s).
Proof.
  intros Hd Hp Hl M s q.
  pose proof (SyncFIFOClassic_holds_pending depth flen_ptr flen_level
                Hd Hp Hl inputs) as H.
  fold M in H. fold s in H. fold q in H. unfold classic_holds in H.
  pose proof (hq_level _ _ _ H) as Hlev. pose proof (hq_bound _ _ _ H) as Hb.
  unfold SyncFIFOClassic.level, SyncFIFOClassic.readable,
    SyncFIFOClassic.writable.
  split; [exact Hlev|]. split; [|split; [|split]].
  - unfold SyncFIFO.readable. rewrite negb_true_iff, Z.eqb_neq, Hlev.
    destruct q; simpl; split; intros; try lia; congruence.
  - unfold SyncFIFO.writable. rewrite negb_true_iff, Z.eqb_neq. lia.
  - intros Hre Hrd. unfold SyncFIFOClassic.tick.
    cbn [SyncFIFOClassic.dout_bits].
    unfold SyncFIFOClassic.readable. rewrite Hre, Hrd.
    apply (SyncFIFO_pending_dout depth _ _ H Hrd).
  - intros E. unfold SyncFIFOClassic.tick. cbn [SyncFIFOClassic.dout_bits].
    unfold SyncFIFOClassic.readable. rewrite E. reflexivity.
Qed.

Lemma SyncFIFOClassic_registered_read_witness :
  0 < 4 /\ holds_max 2 4 /\ holds_max 3 (4 + 1)
  /\ head (pending (trace (SyncFIFOClassic.machine 4 2 3) [wr 10; wr 20]))
     = Some (SyncFIFOClassic.dout_bits
               (SyncFIFOClassic.tick 4 2 3
                  (run (SyncFIFOClassic.machine 4 2 3) [wr 10; wr 20]) rd)).
Proof.
  assert (Hd : 0 < 4) by lia.
  assert (Hp : holds_max 2 4) by (unfold holds_max; simpl; lia).
  assert (Hl : holds_max 3 (4 + 1)) by (unfold holds_max; simpl; lia).
  destruct (SyncFIFOClassic_registered_read 4 2 3 [wr 10; wr 20] rd
              Hd Hp Hl) as (_ & _ & _ & H & _).
  split; [exact Hd|]. split; [exact Hp|]. split; [exact Hl|].
  apply H; reflexivity.
Defined.

(** X10.  After a tick with [flush], whatever the other inputs of that
    tick and whatever happened before, [SyncFIFO], [SyncFIFOBuffered] and
    [SyncFIFORelaxed] answer every later sequence of inputs as they do
    from reset: at each later tick [writable], [readable] and, while
    [readable] is asserted, [dout] are the same.  ([dout] while [readable]
    is low, and [level], are not compared.) *)
Theorem flush_is_reset (depth flen_ptr flen_level : Z)
    (inputs rest : list Inputs) (i : Inputs) :
  0 < depth -> holds_max flen_ptr depth -> holds_max flen_level (depth + 1) ->
  flush i = true ->
  (let M := SyncFIFO.machine depth flen_ptr flen_level in
   trace_from M (run M (inputs ++ [i])) rest = trace M rest)
  /\ (let M := SyncFIFOBuffered.machine depth flen_ptr flen_level in
      trace_from M (run M (inputs ++ [i])) rest = trace M rest)
  /\ (let M := SyncFIFORelaxed.machine depth flen_ptr flen_level in
      trace_from M (run M (inputs ++ [i])) rest = trace M rest).
Proof.
  intros Hd Hp Hl Hf. split; [|split]; intros M; unfold run;
    rewrite run_from_app; fold (run M inputs).
  - pose proof (holds_queue_tick depth flen_ptr flen_level Hd Hp Hl _ _ i
                  (proj2 (SyncFIFO_trace_queue depth flen_ptr flen_level
                            Hd Hp Hl inputs))) as H.
    unfold BoundedQueue.tick in H. rewrite Hf in H.
    transitivity (trace_from (BoundedQueue.machine depth) [] rest).
    + exact (proj1 (SyncFIFO_trace_from_queue depth flen_ptr flen_level
                      Hd Hp Hl rest _ _ H)).
    + symmetry.
      exact (proj1 (SyncFIFO_trace_from_queue depth flen_ptr flen_level
                      Hd Hp Hl rest _ _ (holds_queue_init depth Hd))).
  - apply (buffered_same_trace depth flen_ptr flen_level Hd Hp Hl).
    destruct (SyncFIFOBuffered_holds_pending depth flen_ptr flen_level
                Hd Hp Hl inputs) as (q_in & Hq & _).
    fold M in Hq.
    split; [|split].
    + simpl. rewrite Hf. reflexivity.
    + simpl. rewrite Hf. discriminate.
    + exists []. split; [|apply holds_queue_init, Hd].
      pose proof (holds_queue_tick depth flen_ptr flen_level Hd Hp Hl _ _
                    (with_re (SyncFIFOBuffered.fifo_re (run M inputs) i) i)
                    Hq) as H.
      unfold BoundedQueue.tick in H. simpl flush in H. rewrite Hf in H.
      exact H.
  - pose proof (relaxed_tight_tick depth flen_ptr flen_level Hd Hp Hl _ _ i
                  (SyncFIFORelaxed_tight_pending depth flen_ptr flen_level
                     Hd Hp Hl inputs)) as H.
    unfold BoundedQueue.tick in H. rewrite Hf in H.
    transitivity (trace_from (BoundedQueue.machine (depth + 1)) [] rest).
    + exact (proj1 (SyncFIFORelaxed_trace_from_queue depth flen_ptr
                      flen_level Hd Hp Hl rest _ _ H)).
    + symmetry.
      exact (proj1 (SyncFIFORelaxed_trace_from_queue depth flen_ptr
                      flen_level Hd Hp Hl rest _ _
                      (relaxed_tight_init depth Hd))).
Qed.

Lemma flush_is_reset_witness :
  0 < 4 /\ holds_max 2 4 /\ holds_max 3 (4 + 1) /\ flush fl = true
  /\ trace_from (SyncFIFOBuffered.machine 4 2 3)
       (run (SyncFIFOBuffered.machine 4 2 3) ([wr 10; wr 20; idle] ++ [fl]))
       [wr 30; idle; idle; rd]
     = trace (SyncFIFOBuffered.machine 4 2 3) [wr 30; idle; idle; rd].
Proof.
  assert (Hd : 0 < 4) by lia.
  assert (Hp : holds_max 2 4) by (unfold holds_max; simpl; lia).
  assert (Hl : holds_max 3 (4 + 1)) by (unfold holds_max; simpl; lia).
  destruct (flush_is_reset 4 2 3 [wr 10; wr 20; idle] [wr 30; idle; idle; rd]
              fl Hd Hp Hl eq_refl) as (_ & H & _).
  split; [exact Hd|]. split; [exact Hp|]. split; [exact Hl|].
  split; [reflexivity|exact H].
Defined.

(** X11.  The flags of [AsyncFIFO] catch up.  After any run, once
    [stages] or more edges of the read clock have passed with no edge of
    the write clock among them, [readable] is asserted exactly when a
    committed write is unread; once [stages] or more edges of the write
    clock have passed with no edge of the read clock among them,
    [writable] is asserted exactly when fewer than [depth] are unread. *)
Theorem AsyncFIFO_settles (depth_bits : Z) (stages : nat) (mode : port_mode)
    (inputs : list AsyncFIFO.clock_edge)
    (res : list bool) (wes : list (Z * bool)) :
  1 <= depth_bits -> (0 < stages)%nat ->
  let M := AsyncFIFO.machine depth_bits stages mode in
  ((stages <= length res)%nat ->
   let quiet := inputs ++ read_edges res in
   (readable M (run M quiet) = true <-> pending (trace M quiet) <> []))
  /\ ((stages <= length wes)%nat ->
      let quiet := inputs ++ write_edges wes in
      (writable M (run M quiet) = true <->
       Z.of_nat (length (pending (trace M quiet)))
       < AsyncFIFO.depth depth_bits)).
Proof.
  intros Hb Hs M.
  destruct (AsyncFIFO_holds_pending depth_bits stages mode Hb Hs inputs)
    as (reads & ws & rs & H).
  fold M in H.
  destruct (async_chain_lengths depth_bits stages mode inputs
              (AsyncFIFO.init depth_bits stages)) as [Lp Lc].
  { unfold AsyncFIFO.init, MultiReg.init. simpl.
    rewrite !length_replicate. split; reflexivity. }
  fold M in Lp, Lc. change (run_from M (AsyncFIFO.init depth_bits stages) inputs)
    with (run M inputs) in Lp, Lc.
  assert (Lws : length ws = stages).
  { rewrite <- Lp, (ai_rdomain _ _ _ _ _ _ H). symmetry. apply length_map. }
  assert (Lrs : length rs = stages).
  { rewrite <- Lc, (ai_wdomain _ _ _ _ _ _ H). symmetry. apply length_map. }
  split.
  - intros Hlen quiet. subst quiet. unfold run, trace.
    rewrite run_from_app, trace_from_app, pending_app.
    fold (run M inputs). fold (trace M inputs).
    destruct (async_inv_read_edges depth_bits stages mode Hb Hs res _ _ _ _ _
                0%nat H (fresh_0 _ _)) as (reads' & ws' & H' & Lws' & Hf).
    fold M in H', Hf.
    apply (async_readable_exact depth_bits stages Hb Hs _ _ _ _ _ H').
    destruct (last_is_Some ws' (ai_rdomain_ne _ _ _ _ _ _ H')) as [w Hw].
    rewrite Hw. f_equal.
    apply (fresh_last _ _ _ _ Hf); [|exact Hw]. simpl. lia.
  - intros Hlen quiet. subst quiet. unfold run, trace.
    rewrite run_from_app, trace_from_app, pending_app.
    fold (run M inputs). fold (trace M inputs).
    destruct (async_inv_write_edges depth_bits stages mode Hb Hs wes _ _ _ _ _
                0%nat H (fresh_0 _ _)) as (rs' & H' & Lrs' & Hf).
    fold M in H', Hf.
    apply (async_writable_exact depth_bits stages Hb Hs _ _ _ _ _ H').
    destruct (last_is_Some rs' (ai_wdomain_ne _ _ _ _ _ _ H')) as [r Hr].
    rewrite Hr. f_equal.
    apply (fresh_last _ _ _ _ Hf); [|exact Hr]. simpl. lia.
Qed.

Lemma AsyncFIFO_settles_witness :
  1 <= 2 /\ (0 < 2)%nat
  /\ readable (AsyncFIFO.machine 2 2 WRITE_FIRST)
       (run (AsyncFIFO.machine 2 2 WRITE_FIRST)
          ([AsyncFIFO.write_edge 1 true; AsyncFIFO.write_edge 2 true;
            AsyncFIFO.write_edge 3 true] ++ read_edges [false; false]))
     = true.
Proof.
  assert (Hb : 1 <= 2) by lia.
  assert (Hs : (0 < 2)%nat) by lia.
  destruct (AsyncFIFO_settles 2 2 WRITE_FIRST
              [AsyncFIFO.write_edge 1 true; AsyncFIFO.write_edge 2 true;
               AsyncFIFO.write_edge 3 true] [false; false] [] Hb Hs)
    as [H _].
  split; [exact Hb|]. split; [exact Hs|].
  apply H; [simpl; lia|]. vm_compute. discriminate.
Defined.

(** X12.  The ring of [SyncFIFO]: in every state reached from reset the
    two pointers address the memory ([0 <= produce, consume < depth], for
    depths that are no power of two as well), [produce] is [level] slots
    after [consume], the memory keeps its [depth] words, the [k]-th oldest
    unread word is the one stored [k] slots after [consume], and while
    [writable] is asserted the slot at [produce] holds none of them. *)
Theorem SyncFIFO_ring_layout (depth flen_ptr flen_level : Z)
    (inputs : list Inputs) :
  0 < depth -> holds_max flen_ptr depth -> holds_max flen_level (depth + 1) ->
  let M := SyncFIFO.machine depth flen_ptr flen_level in
  let s := run M inputs in
  let q := pending (trace M inputs) in
  0 <= SyncFIFO.produce s < depth
  /\ 0 <= SyncFIFO.consume s < depth
  /\ SyncFIFO.produce s = (SyncFIFO.consume s + SyncFIFO.level s) mod depth
  /\ length (SyncFIFO.storage s) = Z.to_nat depth
  /\ (forall (k : nat) (v : Z), q !! k = Some v ->
        SyncFIFO.storage s
          !! Z.to_nat ((SyncFIFO.consume s + Z.of_nat k) mod depth) = Some v)
  /\ (SyncFIFO.writable depth s = true ->
      forall k : nat, (k < length q)%nat ->
        SyncFIFO.produce s <> (SyncFIFO.consume s + Z.of_nat k) mod depth).
Proof.
  intros Hd Hp Hl M s q.
  pose proof (SyncFIFO_holds_pending depth flen_ptr flen_level Hd Hp Hl inputs)
    as H.
  fold M in H. fold s in H. fold q in H.
  destruct H as [Hc Hlev Hb Hpr [Hlen Hst]].
  split; [rewrite Hpr; apply Z.mod_pos_bound, Hd|].
  split; [exact Hc|]. split; [exact Hpr|]. split; [exact Hlen|].
  split; [exact Hst|].
  intros Hw k Hk. unfold SyncFIFO.writable in Hw.
  apply negb_true_iff, Z.eqb_neq in Hw.
  rewrite Hpr, Hlev. intros E. symmetry in E. revert E.
  apply ring_slots_distinct; lia.
Qed.

Lemma SyncFIFO_ring_layout_witness :
  0 < 3 /\ holds_max 2 3 /\ holds_max 2 (3 + 1)
  /\ SyncFIFO.produce
       (run (SyncFIFO.machine 3 2 2) [wr 10; wr 20; rd; wr 30; rd; wr 40])
     = (SyncFIFO.consume
          (run (SyncFIFO.machine 3 2 2) [wr 10; wr 20; rd; wr 30; rd; wr 40])
        + SyncFIFO.level
            (run (SyncFIFO.machine 3 2 2) [wr 10; wr 20; rd; wr 30; rd; wr 40]))
       mod 3.
Proof.
  assert (Hd : 0 < 3) by lia.
  assert (Hp : holds_max 2 3) by (unfold holds_max; simpl; lia).
  assert (Hl : holds_max 2 (3 + 1)) by (unfold holds_max; simpl; lia).
  destruct (SyncFIFO_ring_layout 3 2 2 [wr 10; wr 20; rd; wr 30; rd; wr 40]
              Hd Hp Hl) as (_ & _ & H & _).
  split; [exact Hd|]. split; [exact Hp|]. split; [exact Hl|exact H].
Defined.

(** X13.  A write pointer is seen in the read domain only after passing
    all the stages: once [stages] read edges have passed alone and left
    the FIFO empty, then, whatever is written afterwards, [readable] stays
    deasserted as long as fewer than [stages] edges of the read clock
    have followed. *)
Theorem AsyncFIFO_crossing_latency (depth_bits : Z) (stages : nat)
    (mode : port_mode) (pre : list AsyncFIFO.clock_edge)
    (res0 res : list bool) (wes : list (Z * bool)) :
  1 <= depth_bits -> (0 < stages)%nat ->
  let M := AsyncFIFO.machine depth_bits stages mode in
  let drained := pre ++ read_edges res0 in
  (stages <= length res0)%nat ->
  pending (trace M drained) = [] ->
  (length res < stages)%nat ->
  readable M (run M (drained ++ write_edges wes ++ read_edges res)) = false.
Proof.
  intros Hb Hs M drained Hlen0 Hempty Hlen.
  destruct (AsyncFIFO_holds_pending depth_bits stages mode Hb Hs pre)
    as (reads & ws & rs & H).
  fold M in H.
  destruct (async_chain_lengths depth_bits stages mode pre
              (AsyncFIFO.init depth_bits stages)) as [Lp _].
  { unfold AsyncFIFO.init, MultiReg.init. simpl.
    rewrite !length_replicate. split; reflexivity. }
  fold M in Lp. change (run_from M (AsyncFIFO.init depth_bits stages) pre)
    with (run M pre) in Lp.
  assert (Lws : length ws = stages).
  { rewrite <- Lp, (ai_rdomain _ _ _ _ _ _ H). symmetry. apply length_map. }
  destruct (async_inv_read_edges depth_bits stages mode Hb Hs res0 _ _ _ _ _
              0%nat H (fresh_0 _ _)) as (reads0 & ws0 & H0 & Lws0 & Hf0).
  fold M in H0, Hf0.
  assert (Eq0 : pending_from (pending (trace M pre))
                  (trace_from M (run M pre) (read_edges res0)) = []).
  { rewrite <- Hempty. subst drained. unfold trace, run.
    rewrite trace_from_app, pending_app. reflexivity. }
  rewrite Eq0 in H0, Hf0. simpl in Hf0. rewrite Z.add_0_r in Hf0.
  pose proof (fresh_stale _ _ _ Hf0 ltac:(simpl; lia)) as Hst.
  destruct (async_inv_write_edges depth_bits stages mode Hb Hs wes _ _ _ _ _
              0%nat H0 (fresh_0 _ _)) as (rs1 & H1 & _ & _).
  fold M in H1.
  unfold run. subst drained.
  rewrite !run_from_app. fold (run M pre).
  apply (async_inv_stale_read_edges depth_bits stages mode Hb Hs res
           _ _ _ _ _ 0%nat H1 Hst).
  simpl. lia.
Qed.

Lemma AsyncFIFO_crossing_latency_witness :
  1 <= 2 /\ (0 < 2)%nat /\ (2 <= length [true; true])%nat
  /\ pending (trace (AsyncFIFO.machine 2 2 WRITE_FIRST)
       ([AsyncFIFO.write_edge 7 true; AsyncFIFO.read_edge false;
         AsyncFIFO.read_edge false; AsyncFIFO.read_edge true]
        ++ read_edges [true; true])) = []
  /\ (length [false] < 2)%nat
  /\ readable (AsyncFIFO.machine 2 2 WRITE_FIRST)
       (run (AsyncFIFO.machine 2 2 WRITE_FIRST)
          (([AsyncFIFO.write_edge 7 true; AsyncFIFO.read_edge false;
             AsyncFIFO.read_edge false; AsyncFIFO.read_edge true]
            ++ read_edges [true; true])
           ++ write_edges [(8, true); (9, true)] ++ read_edges [false]))
     = false.
Proof.
  assert (Hb : 1 <= 2) by lia.
  assert (Hs : (0 < 2)%nat) by lia.
  assert (H0 : (2 <= length [true; true])%nat) by (simpl; lia).
  assert (He : pending (trace (AsyncFIFO.machine 2 2 WRITE_FIRST)
       ([AsyncFIFO.write_edge 7 true; AsyncFIFO.read_edge false;
         AsyncFIFO.read_edge false; AsyncFIFO.read_edge true]
        ++ read_edges [true; true])) = []) by reflexivity.
  assert (H1 : (length [false] < 2)%nat) by (simpl; lia).
  split; [exact Hb|]. split; [exact Hs|]. split; [exact H0|].
  split; [exact He|]. split; [exact H1|].
  exact (AsyncFIFO_crossing_latency 2 2 WRITE_FIRST
           [AsyncFIFO.write_edge 7 true; AsyncFIFO.read_edge false;
            AsyncFIFO.read_edge false; AsyncFIFO.read_edge true]
           [true; true] [false] [(8, true); (9, true)] Hb Hs H0 He H1).
Defined.

(** X15.  [AsyncFIFO] can be filled to [depth]: from reset, with the
    write clock running alone, [writable] is asserted exactly while fewer
    than [depth] writes are unread, so [depth] writes in a row with [we]
    asserted are all committed, in order. *)
Theorem AsyncFIFO_fills_to_depth (depth_bits : Z) (stages : nat)
    (mode : port_mode) (wes : list (Z * bool)) :
  1 <= depth_bits -> (0 < stages)%nat ->
  let M := AsyncFIFO.machine depth_bits stages mode in
  (writable M (run M (write_edges wes)) = true
   <-> Z.of_nat (length (pending (trace M (write_edges wes))))
       < AsyncFIFO.depth depth_bits)
  /\ (Forall (fun dw => snd dw = true) wes ->
      Z.of_nat (length wes) <= AsyncFIFO.depth depth_bits ->
      pending (trace M (write_edges wes)) = map fst wes).
Proof.
  intros Hb Hs M.
  split; [apply (async_reset_writes depth_bits stages mode wes Hb Hs)|].
  induction wes as [|[d w] wes IH] using rev_ind; intros Hall Hlen;
    [reflexivity|].
  apply Forall_app in Hall as [Hall Hw]. inversion Hw as [|? ? Hw' _]; subst.
  simpl in Hw'. subst w.
  rewrite length_app in Hlen. simpl in Hlen.
  specialize (IH Hall ltac:(lia)).
  pose proof (proj2 (async_reset_writes depth_bits stages mode wes Hb Hs))
    as Hwr.
  fold M in Hwr. rewrite IH, length_map in Hwr. specialize (Hwr ltac:(lia)).
  unfold write_edges. rewrite !map_app. fold (write_edges wes).
  unfold trace. rewrite trace_from_app, pending_app.
  fold (trace M (write_edges wes)). fold (run M (write_edges wes)).
  rewrite IH. simpl.
  unfold pending_step, committed_read, committed_write, observe. simpl.
  rewrite Hwr. reflexivity.
Qed.

Lemma AsyncFIFO_fills_to_depth_witness :
  1 <= 2 /\ (0 < 2)%nat
  /\ pending (trace (AsyncFIFO.machine 2 2 WRITE_FIRST)
       (write_edges [(1, true); (2, true); (3, true); (4, true)]))
     = [1; 2; 3; 4]
  /\ ~ (writable (AsyncFIFO.machine 2 2 WRITE_FIRST)
          (run (AsyncFIFO.machine 2 2 WRITE_FIRST)
             (write_edges [(1, true); (2, true); (3, true); (4, true)]))
        = true).
Proof.
  assert (Hb : 1 <= 2) by lia.
  assert (Hs : (0 < 2)%nat) by lia.
  destruct (AsyncFIFO_fills_to_depth 2 2 WRITE_FIRST
              [(1, true); (2, true); (3, true); (4, true)] Hb Hs) as [H1 H2].
  split; [exact Hb|]. split; [exact Hs|]. split.
  - apply H2; [repeat constructor|vm_compute; discriminate].
  - intros E. apply H1 in E. vm_compute in E. discriminate.
Defined.

(** X16.  A read pointer is seen in the write domain only after passing
    all the stages: once [stages] write edges have passed alone and left
    the FIFO full, then, whatever is read afterwards, [writable] stays
    deasserted as long as fewer than [stages] edges of the write clock
    have followed. *)
Theorem AsyncFIFO_release_latency (depth_bits : Z) (stages : nat)
    (mode : port_mode) (pre : list AsyncFIFO.clock_edge)
    (wes0 wes : list (Z * bool)) (res : list bool) :
  1 <= depth_bits -> (0 < stages)%nat ->
  let M := AsyncFIFO.machine depth_bits stages mode in
  let filled := pre ++ write_edges wes0 in
  (stages <= length wes0)%nat ->
  Z.of_nat (length (pending (trace M filled))) = AsyncFIFO.depth depth_bits ->
  (length wes < stages)%nat ->
  writable M (run M (filled ++ read_edges res ++ write_edges wes)) = false.
Proof.
  intros Hb Hs M filled Hlen0 Hfull Hlen.
  destruct (AsyncFIFO_holds_pending depth_bits stages mode Hb Hs pre)
    as (reads & ws & rs & H).
  fold M in H.
  destruct (async_chain_lengths depth_bits stages mode pre
              (AsyncFIFO.init depth_bits stages)) as [_ Lc].
  { unfold AsyncFIFO.init, MultiReg.init. simpl.
    rewrite !length_replicate. split; reflexivity. }
  fold M in Lc. change (run_from M (AsyncFIFO.init depth_bits stages) pre)
    with (run M pre) in Lc.
  assert (Lrs : length rs = stages).
  { rewrite <- Lc, (ai_wdomain _ _ _ _ _ _ H). symmetry. apply length_map. }
  destruct (async_inv_write_edges depth_bits stages mode Hb Hs wes0 _ _ _ _ _
              0%nat H (fresh_0 _ _)) as (rs0 & H0 & Lrs0 & Hf0).
  fold M in H0, Hf0.
  assert (Eq0 : pending_from (pending (trace M pre))
                  (trace_from M (run M pre) (write_edges wes0))
                = pending (trace M filled)).
  { subst filled. unfold trace, run.
    rewrite trace_from_app, pending_app. reflexivity. }
  rewrite Eq0 in H0.
  pose proof (fresh_stale _ _ _ Hf0 ltac:(simpl; lia)) as Hst.
  destruct (async_inv_read_edges_count depth_bits stages mode Hb Hs res
              _ _ _ _ _ H0) as (reads1 & ws1 & H1 & E1).
  fold M in H1, E1.
  unfold run. subst filled.
  rewrite !run_from_app. fold (run M pre).
  apply (async_inv_stale_write_edges depth_bits stages mode Hb Hs wes
           _ _ _ _ _ 0%nat reads H1 Hst).
  - simpl. lia.
  - rewrite E1. lia.
Qed.

Lemma AsyncFIFO_release_latency_witness :
  1 <= 2 /\ (0 < 2)%nat
  /\ (2 <= length [(1, true); (2, true); (3, true); (4, true)])%nat
  /\ Z.of_nat (length (pending (trace (AsyncFIFO.machine 2 2 WRITE_FIRST)
       ([] ++ write_edges [(1, true); (2, true); (3, true); (4, true)]))))
     = AsyncFIFO.depth 2
  /\ (length [(5, true)] < 2)%nat
  /\ writable (AsyncFIFO.machine 2 2 WRITE_FIRST)
       (run (AsyncFIFO.machine 2 2 WRITE_FIRST)
          (([] ++ write_edges [(1, true); (2, true); (3, true); (4, true)])
           ++ read_edges [false; false; true; true]
           ++ write_edges [(5, true)]))
     = false.
Proof.
  assert (Hb : 1 <= 2) by lia.
  assert (Hs : (0 < 2)%nat) by lia.
  assert (H0 : (2 <= length [(1, true); (2, true); (3, true); (4, true)])%nat)
    by (simpl; lia).
  assert (Hf : Z.of_nat (length (pending
       (trace (AsyncFIFO.machine 2 2 WRITE_FIRST)
          ([] ++ write_edges [(1, true); (2, true); (3, true); (4, true)]))))
     = AsyncFIFO.depth 2) by reflexivity.
  assert (H1 : (length [(5, true)] < 2)%nat) by (simpl; lia).
  split; [exact Hb|]. split; [exact Hs|]. split; [exact H0|].
  split; [exact Hf|]. split; [exact H1|].
  exact (AsyncFIFO_release_latency 2 2 WRITE_FIRST []
           [(1, true); (2, true); (3, true); (4, true)] [(5, true)]
           [false; false; true; true] Hb Hs H0 Hf H1).
Defined.
